(** * Storyspire narration service: chunker and session controller

    A shallow embedding of [services/tts.ts] (the text-to-speech playback
    controller of the Storyspire client) together with the properties of
    its chunker and of its session state machine.

    Conventions of the embedding:
    - a JavaScript string is the list of its UTF-16 code units ([N]);
      [.length], [.slice], [.trim], [.split] and the regular expressions
      of the source all work on code units;
    - JavaScript numbers that hold indices, counters and millisecond
      clocks are integers ([Z]); the one place where the source computes
      with fractions, the estimate of the words already spoken, is
      carried out in IEEE 754 binary64 arithmetic ([SpecFloat]);
    - the module-level variables of the source are the fields of one
      [State] record, threaded explicitly; calls to the speech engine and
      to the progress callback are appended to an event log kept in the
      state;
    - an [async] function is a [Task]: it runs synchronously up to its
      first [await], where it suspends holding the state it has produced,
      and it is resumed on whatever the state is by then. *)

From Stdlib Require Import Ascii String.
From Stdlib Require Import Bool Arith ZArith NArith QArith Qround Lia List.
From Stdlib Require SpecFloat.
Import ListNotations.

Close Scope Q_scope.
Open Scope nat_scope.

(* ===================================================================== *)
(** ** JavaScript strings *)
(* ===================================================================== *)

Module JS.

(** A code unit, and a string of code units. *)
Abbreviation char := N (only parsing).
Abbreviation jsstring := (list N) (only parsing).

(** Code units matched by [\s] and removed by [String.prototype.trim]:
    the ECMAScript WhiteSpace and LineTerminator productions. *)
Definition isWhiteSpace (c : char) : bool :=
  ((9 <=? c) && (c <=? 13) || (c =? 32) || (c =? 160) || (c =? 5760)
   || (8192 <=? c) && (c <=? 8202) || (c =? 8232) || (c =? 8233)
   || (c =? 8239) || (c =? 8287) || (c =? 12288) || (c =? 65279))%N.

Definition SPACE : char := 32%N.

(** The sentence punctuation of the class [[.!?]]. *)
Definition isTerminator (c : char) : bool :=
  ((c =? 46) || (c =? 33) || (c =? 63))%N.

(** Truthiness of a string: the empty string is falsy. *)
Definition truthy (s : jsstring) : bool :=
  match s with [] => false | _ :: _ => true end.

Definition eqb (a b : jsstring) : bool :=
  if list_eq_dec N.eq_dec a b then true else false.

(** Literals for examples: the code units of an ASCII string. *)
Definition str (s : String.string) : jsstring :=
  map N_of_ascii (list_ascii_of_string s).

(** [s.replace(/\s+/g, ' ')]: every maximal run of white space becomes one
    space.  [inRun] tells that the previous code unit was white space. *)
Fixpoint collapseWs (inRun : bool) (s : jsstring) : jsstring :=
  match s with
  | [] => []
  | c :: r =>
      if isWhiteSpace c
      then if inRun then collapseWs true r else SPACE :: collapseWs true r
      else c :: collapseWs false r
  end.

Fixpoint trimStart (s : jsstring) : jsstring :=
  match s with
  | [] => []
  | c :: r => if isWhiteSpace c then trimStart r else s
  end.

Fixpoint trimEnd (s : jsstring) : jsstring :=
  match s with
  | [] => []
  | c :: r =>
      match trimEnd r with
      | [] => if isWhiteSpace c then [] else [c]
      | r' => c :: r'
      end
  end.

(** [s.trim()] *)
Definition trim (s : jsstring) : jsstring := trimEnd (trimStart s).

(** [s.slice(i, j)] for [0 <= i <= j]. *)
Definition slice (i j : nat) (s : jsstring) : jsstring :=
  firstn (j - i) (skipn i s).

(** [parts.join(sep)] *)
Fixpoint join (sep : jsstring) (parts : list jsstring) : jsstring :=
  match parts with
  | [] => []
  | [p] => p
  | p :: rest => p ++ sep ++ join sep rest
  end.

Definition consHead (c : char) (parts : list jsstring) : list jsstring :=
  match parts with
  | [] => [[c]]
  | p :: rest => (c :: p) :: rest
  end.

(** [s.split(/(?<=[.!?])\s+/)]: a separator is a maximal run of white
    space whose preceding code unit is a terminator.  [prevTerm] tells
    that the previous code unit is a terminator, [inSep] that the scan is
    inside a separator.  The result always has a first piece, as in
    JavaScript ([''.split(re)] is [['']]). *)
Fixpoint splitSentencesFrom (prevTerm inSep : bool) (s : jsstring)
  : list jsstring :=
  match s with
  | [] => [[]]
  | c :: r =>
      if isWhiteSpace c then
        if inSep then splitSentencesFrom false true r
        else if prevTerm then [] :: splitSentencesFrom false true r
        else consHead c (splitSentencesFrom false false r)
      else consHead c (splitSentencesFrom (isTerminator c) false r)
  end.

Definition splitSentences (s : jsstring) : list jsstring :=
  splitSentencesFrom false false s.

(** [s.split(/\s+/)]: every maximal run of white space is a separator. *)
Fixpoint splitWsFrom (inSep : bool) (s : jsstring) : list jsstring :=
  match s with
  | [] => [[]]
  | c :: r =>
      if isWhiteSpace c then
        if inSep then splitWsFrom true r else [] :: splitWsFrom true r
      else consHead c (splitWsFrom false r)
  end.

(** [s.split(/\s+/).filter(Boolean)] *)
Definition words (s : jsstring) : list jsstring :=
  filter truthy (splitWsFrom false s).

End JS.

Import JS.

(* ===================================================================== *)
(** ** The chunker: [buildChunks] *)
(* ===================================================================== *)

Definition MAX_CHUNK_LEN : nat := 600.

(** [for (let i = 0; i < s.length; i += MAX_CHUNK_LEN)
       out.push(s.slice(i, i + MAX_CHUNK_LEN))].
    The loop runs at most [s.length] times; [fuel] bounds it. *)
Fixpoint sliceLoop (fuel i : nat) (s : jsstring) : list jsstring :=
  match fuel with
  | O => []
  | S fuel' =>
      if i <? length s
      then slice i (i + MAX_CHUNK_LEN) s :: sliceLoop fuel' (i + MAX_CHUNK_LEN) s
      else []
  end.

Definition hardSlices (s : jsstring) : list jsstring :=
  sliceLoop (length s) 0 s.

(** One iteration of [for (const s of sentences)], on the pair of the
    output array [out] and the buffer [buf]. *)
Definition chunkStep (acc : list jsstring * jsstring) (s : jsstring)
  : list jsstring * jsstring :=
  let (out, buf) := acc in
  if MAX_CHUNK_LEN <? length (trim (buf ++ SPACE :: s)) then
    let out1 := if truthy buf then out ++ [trim buf] else out in
    if MAX_CHUNK_LEN <? length s
    then (out1 ++ hardSlices s, [])
    else (out1, s)
  else (out, (if truthy buf then buf ++ [SPACE] else []) ++ s).

Definition normalize (text : jsstring) : jsstring :=
  trim (collapseWs false text).

Definition buildChunks (text : jsstring) : list jsstring :=
  let normalized := normalize text in
  if negb (truthy normalized) then []
  else
    let (out, buf) :=
      fold_left chunkStep (splitSentences normalized) ([], []) in
    if truthy buf then out ++ [trim buf] else out.


(* ===================================================================== *)
(** ** The session controller: state, speech engine and progress sink *)
(* ===================================================================== *)

(** [interface TTSPreferences { voice?: string; rate?: number }].  A rate
    is stored as the rational it denotes. *)
Record TTSPreferences := mkPrefs {
  voice : option jsstring;
  rate : option Q
}.

(** What the controller does to the outside: calls of the speech engine,
    of the progress callback and of [playbackResolve].  A [Speak] entry
    records the utterance, the options, and the [startIndex] and [sid]
    captured by the three callbacks registered with it. *)
Inductive Event :=
| EvSpeak (text : jsstring) (voiceId : option jsstring) (speechRate : Q)
          (startIndex sid : Z)
| EvStop
| EvPause
| EvResume
| EvProgress (currentChunk totalChunks : Z) (progress : Q)
| EvResolve.

(** The module-level variables.  [playbackPromise] tells whether the
    promise (and with it [playbackResolve]) is set, [progressCallback]
    whether a callback is registered.  [log] holds the events, the most
    recent first. *)
Record State := mkState {
  isPlaying : bool;
  isPaused : bool;
  currentText : jsstring;
  chunks : list jsstring;
  currentChunkIndex : Z;
  sessionId : Z;
  playbackPromise : bool;
  currentPreferences : TTSPreferences;
  progressCallback : bool;
  chunkStartTime : option Z;
  chunkStartPrefs : option TTSPreferences;
  overrideFirstChunk : option jsstring;
  isInitiatingPlayback : bool;
  log : list Event
}.

Definition initialState : State :=
  {| isPlaying := false; isPaused := false; currentText := [];
     chunks := []; currentChunkIndex := 0; sessionId := 0;
     playbackPromise := false;
     currentPreferences := {| voice := None; rate := Some 1%Q |};
     progressCallback := false; chunkStartTime := None;
     chunkStartPrefs := None; overrideFirstChunk := None;
     isInitiatingPlayback := false; log := [] |}.

(** What a call reads from its surroundings: the platform, whether the
    engine's [pause] throws, whether its [resume] rejects, and the clock
    ([Date.now()]). *)
Record World := mkWorld {
  android : bool;
  pauseThrows : bool;
  resumeRejects : bool;
  now : Z
}.

(** Assignments to the module-level variables. *)
Definition set_isPlaying (b : bool) (st : State) : State :=
  mkState b (isPaused st) (currentText st) (chunks st)
    (currentChunkIndex st) (sessionId st) (playbackPromise st)
    (currentPreferences st) (progressCallback st) (chunkStartTime st)
    (chunkStartPrefs st) (overrideFirstChunk st) (isInitiatingPlayback st)
    (log st).

Definition set_isPaused (b : bool) (st : State) : State :=
  mkState (isPlaying st) b (currentText st) (chunks st)
    (currentChunkIndex st) (sessionId st) (playbackPromise st)
    (currentPreferences st) (progressCallback st) (chunkStartTime st)
    (chunkStartPrefs st) (overrideFirstChunk st) (isInitiatingPlayback st)
    (log st).

Definition set_text (t : jsstring) (cs : list jsstring) (st : State) : State :=
  mkState (isPlaying st) (isPaused st) t cs
    (currentChunkIndex st) (sessionId st) (playbackPromise st)
    (currentPreferences st) (progressCallback st) (chunkStartTime st)
    (chunkStartPrefs st) (overrideFirstChunk st) (isInitiatingPlayback st)
    (log st).

Definition set_currentChunkIndex (i : Z) (st : State) : State :=
  mkState (isPlaying st) (isPaused st) (currentText st) (chunks st)
    i (sessionId st) (playbackPromise st)
    (currentPreferences st) (progressCallback st) (chunkStartTime st)
    (chunkStartPrefs st) (overrideFirstChunk st) (isInitiatingPlayback st)
    (log st).

Definition set_sessionId (i : Z) (st : State) : State :=
  mkState (isPlaying st) (isPaused st) (currentText st) (chunks st)
    (currentChunkIndex st) i (playbackPromise st)
    (currentPreferences st) (progressCallback st) (chunkStartTime st)
    (chunkStartPrefs st) (overrideFirstChunk st) (isInitiatingPlayback st)
    (log st).

Definition set_playbackPromise (b : bool) (st : State) : State :=
  mkState (isPlaying st) (isPaused st) (currentText st) (chunks st)
    (currentChunkIndex st) (sessionId st) b
    (currentPreferences st) (progressCallback st) (chunkStartTime st)
    (chunkStartPrefs st) (overrideFirstChunk st) (isInitiatingPlayback st)
    (log st).

Definition set_currentPreferences (p : TTSPreferences) (st : State) : State :=
  mkState (isPlaying st) (isPaused st) (currentText st) (chunks st)
    (currentChunkIndex st) (sessionId st) (playbackPromise st)
    p (progressCallback st) (chunkStartTime st)
    (chunkStartPrefs st) (overrideFirstChunk st) (isInitiatingPlayback st)
    (log st).

Definition set_progressCallback (b : bool) (st : State) : State :=
  mkState (isPlaying st) (isPaused st) (currentText st) (chunks st)
    (currentChunkIndex st) (sessionId st) (playbackPromise st)
    (currentPreferences st) b (chunkStartTime st)
    (chunkStartPrefs st) (overrideFirstChunk st) (isInitiatingPlayback st)
    (log st).

Definition set_chunkStart (t : option Z) (p : option TTSPreferences)
  (st : State) : State :=
  mkState (isPlaying st) (isPaused st) (currentText st) (chunks st)
    (currentChunkIndex st) (sessionId st) (playbackPromise st)
    (currentPreferences st) (progressCallback st) t
    p (overrideFirstChunk st) (isInitiatingPlayback st)
    (log st).

Definition set_overrideFirstChunk (o : option jsstring) (st : State) : State :=
  mkState (isPlaying st) (isPaused st) (currentText st) (chunks st)
    (currentChunkIndex st) (sessionId st) (playbackPromise st)
    (currentPreferences st) (progressCallback st) (chunkStartTime st)
    (chunkStartPrefs st) o (isInitiatingPlayback st)
    (log st).

Definition set_isInitiatingPlayback (b : bool) (st : State) : State :=
  mkState (isPlaying st) (isPaused st) (currentText st) (chunks st)
    (currentChunkIndex st) (sessionId st) (playbackPromise st)
    (currentPreferences st) (progressCallback st) (chunkStartTime st)
    (chunkStartPrefs st) (overrideFirstChunk st) b
    (log st).

Definition emit (e : Event) (st : State) : State :=
  mkState (isPlaying st) (isPaused st) (currentText st) (chunks st)
    (currentChunkIndex st) (sessionId st) (playbackPromise st)
    (currentPreferences st) (progressCallback st) (chunkStartTime st)
    (chunkStartPrefs st) (overrideFirstChunk st) (isInitiatingPlayback st)
    (e :: log st).

(** [chunks.length] *)
Definition chunkCount (st : State) : Z := Z.of_nat (length (chunks st)).

(** [chunks[i]]: [None] is [undefined]. *)
Definition chunkAt (st : State) (i : Z) : option jsstring :=
  if (i <? 0)%Z then None else nth_error (chunks st) (Z.to_nat i).

(** [(currentChunkIndex + 1) / chunks.length] for a non-empty [chunks]. *)
Definition progressFraction (st : State) : Q :=
  Qmake (currentChunkIndex st + 1) (Z.to_pos (chunkCount st)).

Definition updateProgress (st : State) : State :=
  if progressCallback st && (0 <? chunkCount st)%Z
  then emit (EvProgress (currentChunkIndex st + 1) (chunkCount st)
                        (progressFraction st)) st
  else st.

Definition ensurePlaybackPromise (st : State) : State :=
  if playbackPromise st then st else set_playbackPromise true st.

(** [playbackResolve?.()] *)
Definition resolvePlayback (st : State) : State :=
  if playbackPromise st then emit EvResolve (set_playbackPromise false st)
  else st.

(** The end of a session, as written twice in the source: all chunks
    spoken. *)
Definition finishSession (st : State) : State :=
  resolvePlayback
    (updateProgress
       (set_currentChunkIndex 0 (set_isPaused false (set_isPlaying false st)))).

Definition optTruthy (o : option jsstring) : bool :=
  match o with Some s => truthy s | None => false end.

Definition orEmpty (o : option jsstring) : jsstring :=
  match o with Some s => s | None => [] end.

Definition rateOrDefault (p : TTSPreferences) : Q :=
  match rate p with Some r => r | None => 1%Q end.

(** [prefs.voice] is put in the options only when it is truthy. *)
Definition voiceOption (p : TTSPreferences) : option jsstring :=
  if optTruthy (voice p) then voice p else None.

(** [speakChunkChain(startIndex, sid)], up to and including its call of
    [Speech.speak]. *)
Definition speakChunkChain (w : World) (startIndex sid : Z) (st : State)
  : State :=
  if negb (sid =? sessionId st)%Z then st
  else if (chunkCount st <=? startIndex)%Z then finishSession st
  else
    let st1 :=
      updateProgress
        (set_isPaused false
           (set_isPlaying true (set_currentChunkIndex startIndex st))) in
    let prefs := currentPreferences st1 in
    let useOverride :=
      optTruthy (overrideFirstChunk st1)
      && (startIndex =? currentChunkIndex st1)%Z in
    let textToSpeak :=
      if useOverride then orEmpty (overrideFirstChunk st1)
      else orEmpty (chunkAt st1 startIndex) in
    let st2 := if useOverride then set_overrideFirstChunk None st1 else st1 in
    if negb (truthy textToSpeak) || (length (trim textToSpeak) =? 0) then st2
    else
      emit (EvSpeak textToSpeak (voiceOption prefs) (rateOrDefault prefs)
                    startIndex sid)
           (set_chunkStart (Some (now w)) (Some prefs) st2).

(** The callbacks registered with an utterance; [startIndex] and [sid] are
    the values their closure captured. *)
Definition onDone (w : World) (startIndex sid : Z) (st : State) : State :=
  if negb (sid =? sessionId st)%Z then st
  else if isPaused st then st
  else
    let st1 := set_chunkStart None None st in
    if (startIndex + 1 <? chunkCount st1)%Z
    then speakChunkChain w (startIndex + 1) sid st1
    else finishSession st1.

Definition onStopped (sid : Z) (st : State) : State :=
  if negb (sid =? sessionId st)%Z then st
  else
    let st1 := set_chunkStart None None (set_isPlaying false st) in
    if negb (isPaused st1) then resolvePlayback (updateProgress st1) else st1.

Definition onError (sid : Z) (st : State) : State :=
  if negb (sid =? sessionId st)%Z then st
  else
    resolvePlayback
      (updateProgress (set_chunkStart None None (set_isPlaying false st))).

(* ===================================================================== *)
(** ** Asynchronous functions *)
(* ===================================================================== *)

(** The run of an [async] function.  [Return st]: the function has
    finished, leaving the state [st].  [Await st k]: it is suspended at an
    [await], having left the state [st]; when it is resumed, in the world
    and on the state of that moment, it goes on as [k]. *)
Inductive Task :=
| Return (st : State)
| Await (st : State) (k : World -> State -> Task).

(** The state a suspended or finished task has left. *)
Definition suspendedAt (t : Task) : State :=
  match t with Return st => st | Await st _ => st end.

(** Resume a task until it finishes, nothing else touching the state in
    between. *)
Fixpoint run (w : World) (t : Task) : State :=
  match t with
  | Return st => st
  | Await st k => run w (k w st)
  end.

(** Resume a suspended task in the world [w] on the state [st] that other
    calls have left in the meantime; a finished task has nothing left to
    do. *)
Definition resume (w : World) (t : Task) (st : State) : Task :=
  match t with
  | Return _ => Return st
  | Await _ k => k w st
  end.

(** [await callee()], where [callee] is another [async] function of the
    controller: the caller goes on after the callee has finished, and not
    before its own next turn. *)
Fixpoint awaitTask (callee : Task) (k : World -> State -> Task) : Task :=
  match callee with
  | Return st => Await st k
  | Await st k' => Await st (fun w st' => awaitTask (k' w st') k)
  end.

(** [try { await Speech.stop(); } catch {}] *)
Definition awaitStop (st : State) (k : World -> State -> Task) : Task :=
  Await (emit EvStop st) k.

(** [if (preferences) currentPreferences = { ...preferences }] *)
Definition replacePreferences (p : option TTSPreferences) (st : State)
  : State :=
  match p with
  | Some prefs => set_currentPreferences prefs st
  | None => st
  end.

(** The common tail of [speakText] and [restartSpeech]:
    [const sid = sessionId; const p = ensurePlaybackPromise();
     speakChunkChain(0, sid); return p;] and the [finally] block. *)
Definition startChain (w : World) (st : State) : Task :=
  let sid := sessionId st in
  Return
    (set_isInitiatingPlayback false
       (speakChunkChain w 0 sid (ensurePlaybackPromise st))).

Definition resumeSpeech (w : World) (st : State) : Task :=
  if isInitiatingPlayback st then Return st
  else if negb (truthy (currentText st)) || (chunkCount st =? 0)%Z
  then Return st
  else
    let st0 := set_isInitiatingPlayback true st in
    let resumeChunkIndex := currentChunkIndex st0 in
    let manualResume (w' : World) (st' : State) : Task :=
      let sid := sessionId st' in
      Return
        (set_isInitiatingPlayback false
           (ensurePlaybackPromise
              (speakChunkChain w' resumeChunkIndex sid st'))) in
    awaitStop st0 (fun w1 st1 =>
      let st2 := set_isPlaying true (set_isPaused false st1) in
      if negb (android w1) then
        Await (emit EvResume st2) (fun w2 st3 =>
          if resumeRejects w2 then manualResume w2 st3
          else
            Return
              (set_isInitiatingPlayback false
                 (ensurePlaybackPromise (updateProgress st3))))
      else manualResume w1 st2).

Definition speakText (w : World) (text : jsstring)
  (preferences : option TTSPreferences) (st : State) : Task :=
  if isInitiatingPlayback st then Return st
  else
    let st0 := set_isInitiatingPlayback true st in
    if isPaused st0 && eqb (currentText st0) text then
      awaitTask (resumeSpeech w st0)
        (fun _ st' => Return (set_isInitiatingPlayback false st'))
    else if eqb (currentText st0) text && (0 <? chunkCount st0)%Z then
      let st1 :=
        set_sessionId (sessionId st0 + 1)
          (set_isPaused false
             (set_currentChunkIndex 0 (replacePreferences preferences st0))) in
      if isPlaying st1 then awaitStop st1 startChain else startChain w st1
    else
      let st1 :=
        replacePreferences preferences
          (set_sessionId (sessionId st0 + 1)
             (set_isPaused false
                (set_currentChunkIndex 0
                   (set_text text (buildChunks text) st0)))) in
      if isPlaying st1 then awaitStop st1 startChain else startChain w st1.

Definition pauseSpeech (w : World) (st : State) : State :=
  let st1 := set_isPlaying false (set_isPaused true st) in
  let st2 :=
    if negb (android w) then
      if pauseThrows w then emit EvStop (emit EvPause st1)
      else emit EvPause st1
    else emit EvStop st1 in
  updateProgress st2.

Definition restartSpeech (w : World) (text : jsstring)
  (preferences : option TTSPreferences) (st : State) : Task :=
  if isInitiatingPlayback st then Return st
  else
    let st0 := set_isInitiatingPlayback true st in
    let st1 :=
      replacePreferences preferences
        (set_sessionId (sessionId st0 + 1)
           (set_isPaused false
              (set_currentChunkIndex 0
                 (set_text text (buildChunks text) st0)))) in
    awaitStop st1 startChain.

Definition seekToChunk (w : World) (chunkIndex : Z) (st : State) : Task :=
  if negb (truthy (currentText st)) || (chunkCount st =? 0)%Z then Return st
  else if (chunkIndex <? 0)%Z || (chunkCount st <=? chunkIndex)%Z
  then Return st
  else
    let wasPlaying := isPlaying st in
    let wasPaused := isPaused st in
    awaitStop st (fun w1 st1 =>
      let st2 :=
        updateProgress
          (set_sessionId (sessionId st1 + 1)
             (set_isPaused false (set_currentChunkIndex chunkIndex st1))) in
      if wasPlaying || wasPaused then
        let sid := sessionId st2 in
        Return (speakChunkChain w1 chunkIndex sid (ensurePlaybackPromise st2))
      else Return st2).

(** The value of [Math.floor(x)] for a double [x]: an integer, an
    infinity or NaN. *)
Inductive Floored :=
| Finite (n : Z)
| PosInfinity
| NegInfinity
| NotANumber.

(** [x >= n] and [x > 0] for such a value. *)
Definition flooredGe (x : Floored) (n : Z) : bool :=
  match x with
  | Finite m => (n <=? m)%Z
  | PosInfinity => true
  | _ => false
  end.

Definition flooredPositive (x : Floored) : bool :=
  match x with
  | Finite m => (0 <? m)%Z
  | PosInfinity => true
  | _ => false
  end.

(** [words.slice(x)] where [x > 0]. *)
Definition sliceFrom (x : Floored) (ws : list jsstring) : list jsstring :=
  match x with
  | Finite m => skipn (Z.to_nat m) ws
  | PosInfinity => []
  | _ => ws
  end.

Section LiveChange.

(** [wordsSpokenOf elapsedMs usedRate] stands for
    [Math.floor((elapsedMs / 1000) * (3 * usedRate))]; the source's own
    computation, in double precision, is [wordsSpoken] below.  The
    invariants of the controller hold whatever this function answers, so
    the controller is written over it. *)
Variable wordsSpokenOf : Z -> Q -> Floored.

(** The body of the [try] block of [setPreferences]. *)
Definition estimateOffset (w : World) (st : State) : State :=
  match chunkStartTime st, chunkStartPrefs st with
  | Some t0, Some startPrefs =>
      if negb (t0 =? 0)%Z && optTruthy (chunkAt st (currentChunkIndex st))
      then
        let elapsedMs := Z.max 0 (now w - t0) in
        let chunkText := orEmpty (chunkAt st (currentChunkIndex st)) in
        let ws := words chunkText in
        let totalWords :=
          if (length ws =? 0) then 1%Z else Z.of_nat (length ws) in
        let usedRate := rateOrDefault startPrefs in
        let wordsSpoken := wordsSpokenOf elapsedMs usedRate in
        if flooredGe wordsSpoken totalWords then
          set_currentChunkIndex
            (Z.min (currentChunkIndex st + 1) (chunkCount st - 1)) st
        else if flooredPositive wordsSpoken then
          let remainingText := trim (join [SPACE] (sliceFrom wordsSpoken ws)) in
          if (0 <? length remainingText)
          then set_overrideFirstChunk (Some remainingText) st
          else st
        else st
      else st
  | _, _ => st
  end.

Definition setPreferences (w : World) (preferences : TTSPreferences)
  (st : State) : Task :=
  let st0 := set_currentPreferences preferences st in
  if negb (isPlaying st0) && negb (isPaused st0) then Return st0
  else
    let st1 := estimateOffset w st0 in
    let st2 := set_sessionId (sessionId st1 + 1) st1 in
    let sid := sessionId st2 in
    awaitStop st2 (fun w1 st3 =>
      Return
        (speakChunkChain w1 (currentChunkIndex st3) sid
           (ensurePlaybackPromise st3))).

(** The entry points of the module and the callbacks of the engine. *)
Inductive Call :=
| CallSpeakText (text : jsstring) (preferences : option TTSPreferences)
| CallPauseSpeech
| CallResumeSpeech
| CallRestartSpeech (text : jsstring) (preferences : option TTSPreferences)
| CallSeekToChunk (chunkIndex : Z)
| CallSetPreferences (preferences : TTSPreferences)
| CallSetProgressCallback (registered : bool)
| CallOnDone (startIndex sid : Z)
| CallOnStopped (startIndex sid : Z)
| CallOnError (startIndex sid : Z).

(** A call carried to its end: entered in the world [w], its awaits
    resumed in the world [w']. *)
Definition exec (w w' : World) (c : Call) (st : State) : State :=
  match c with
  | CallSpeakText text p => run w' (speakText w text p st)
  | CallPauseSpeech => pauseSpeech w st
  | CallResumeSpeech => run w' (resumeSpeech w st)
  | CallRestartSpeech text p => run w' (restartSpeech w text p st)
  | CallSeekToChunk i => run w' (seekToChunk w i st)
  | CallSetPreferences p => run w' (setPreferences w p st)
  | CallSetProgressCallback b => set_progressCallback b st
  | CallOnDone i sid => onDone w i sid st
  | CallOnStopped _ sid => onStopped sid st
  | CallOnError _ sid => onError sid st
  end.

(** The callbacks that exist are those of the utterances handed to the
    engine. *)
Definition isSpeak (startIndex sid : Z) (e : Event) : bool :=
  match e with
  | EvSpeak _ _ _ i s => (i =? startIndex)%Z && (s =? sid)%Z
  | _ => false
  end.

Definition registered (startIndex sid : Z) (st : State) : bool :=
  existsb (isSpeak startIndex sid) (log st).

Definition enabled (c : Call) (st : State) : bool :=
  match c with
  | CallOnDone i sid | CallOnStopped i sid | CallOnError i sid =>
      registered i sid st
  | _ => true
  end.

(** The states the controller can be in between two calls. *)
Inductive Reachable : State -> Prop :=
| reachInitial : Reachable initialState
| reachCall st w w' c :
    Reachable st -> enabled c st = true -> Reachable (exec w w' c st).

End LiveChange.

(** The read-only queries. *)
Definition isSpeechPaused (st : State) : bool := isPaused st.
Definition isSpeechPlaying (st : State) : bool := isPlaying st.
Definition getCurrentChunkIndex (st : State) : Z := currentChunkIndex st.

(** The utterances handed to the engine, the most recent first, each with
    the chunk index and the session it was spoken for. *)
Fixpoint utterances (l : list Event) : list (jsstring * Z * Z) :=
  match l with
  | [] => []
  | EvSpeak text _ _ i sid :: r => (text, i, sid) :: utterances r
  | _ :: r => utterances r
  end.

(** JavaScript numbers where the source computes with them: IEEE 754
    binary64, every operation rounded to nearest, ties to even. *)
Module Double.

Definition prec : Z := 53.
Definition emax : Z := 1024.

Definition double : Set := SpecFloat.spec_float.

(** The double of an integer. *)
Definition ofInteger (z : Z) : double :=
  SpecFloat.binary_normalize prec emax z 0 false.

(** The double nearest to a rational: the double itself when the
    rational is the value of one. *)
Definition ofRational (q : Q) : double :=
  match Qnum q with
  | Z0 => SpecFloat.S754_zero false
  | Zpos n =>
      SpecFloat.SFdiv prec emax (SpecFloat.S754_finite false n 0)
        (SpecFloat.S754_finite false (Qden q) 0)
  | Zneg n =>
      SpecFloat.SFdiv prec emax (SpecFloat.S754_finite true n 0)
        (SpecFloat.S754_finite false (Qden q) 0)
  end.

Definition mul : double -> double -> double := SpecFloat.SFmul prec emax.
Definition div : double -> double -> double := SpecFloat.SFdiv prec emax.

(** [Math.floor] *)
Definition floor (x : double) : Floored :=
  match x with
  | SpecFloat.S754_zero _ => Finite 0
  | SpecFloat.S754_infinity false => PosInfinity
  | SpecFloat.S754_infinity true => NegInfinity
  | SpecFloat.S754_nan => NotANumber
  | SpecFloat.S754_finite s m e =>
      Finite (Z.shiftl (if s then Zneg m else Zpos m) e)
  end.

End Double.

(** The estimate of [setPreferences]:
    [const elapsedSec = elapsedMs / 1000; const baseWps = 3;
     const wordsPerSec = baseWps * usedRate;
     const wordsSpoken = Math.floor(elapsedSec * wordsPerSec);] *)
Definition wordsSpoken (elapsedMs : Z) (usedRate : Q) : Floored :=
  let elapsedSec := Double.div (Double.ofInteger elapsedMs)
                               (Double.ofInteger 1000) in
  let baseWps := Double.ofInteger 3 in
  let wordsPerSec := Double.mul baseWps (Double.ofRational usedRate) in
  Double.floor (Double.mul elapsedSec wordsPerSec).

(** The formula of the specification, floor(elapsed-seconds x 3 x rate),
    on the exact values: what the estimate of the source is compared
    with. *)
Definition specWordsSpoken (elapsedMs : Z) (usedRate : Q) : Z :=
  Qfloor (Qmult (Qmake elapsedMs 1000) (Qmult (3 # 1) usedRate)).

(** The estimate is the value of the formula or one below it. *)
Definition nearSpec (elapsedMs : Z) (usedRate : Q) : bool :=
  match wordsSpoken elapsedMs usedRate with
  | Finite n =>
      (specWordsSpoken elapsedMs usedRate - 1 <=? n)%Z
      && (n <=? specWordsSpoken elapsedMs usedRate)%Z
  | _ => false
  end.

(** Rates between 0.5 and 2.5, the range the source gives for [rate]. *)
Definition speechRates : list Q :=
  [(1 # 2); (3 # 4); (1 # 1); (5 # 4); (3 # 2); (2 # 1); (5 # 2)]%Q.

(* ===================================================================== *)
(** ** Predicates of the statements *)
(* ===================================================================== *)

(** The code units that are not white space, in order. *)
Definition ink (s : jsstring) : jsstring :=
  filter (fun c => negb (isWhiteSpace c)) s.

Definition startsWs (s : jsstring) : bool :=
  match s with [] => false | c :: _ => isWhiteSpace c end.

Fixpoint endsWs (s : jsstring) : bool :=
  match s with
  | [] => false
  | [c] => isWhiteSpace c
  | _ :: r => endsWs r
  end.

(** Every white space is one space, followed by something else than white
    space or by the end. *)
Fixpoint sparse (s : jsstring) : bool :=
  match s with
  | [] => true
  | c :: r =>
      (if isWhiteSpace c then (c =? SPACE)%N && negb (startsWs r) else true)
      && sparse r
  end.

(** Non-empty, with no white space at either end. *)
Definition tidy (s : jsstring) : bool :=
  truthy s && negb (startsWs s) && negb (endsWs s).

(** What the loop maintains: the chunks pushed so far are non-empty and
    within the limit, and so is the buffer, which is empty or tidy. *)
Definition loopOk (acc : list jsstring * jsstring) : Prop :=
  Forall (fun c => c <> [] /\ length c <= MAX_CHUNK_LEN) (fst acc) /\
  (snd acc = [] \/ tidy (snd acc) = true) /\
  length (snd acc) <= MAX_CHUNK_LEN.

Definition inkOf (acc : list jsstring * jsstring) : jsstring :=
  ink (concat (fst acc)) ++ ink (snd acc).

(** What the loop maintains when no sentence needs the hard split: the
    chunks pushed and the buffer, joined with spaces, are the sentences
    read so far joined with spaces. *)
Definition joinOk (seen : list jsstring) (acc : list jsstring * jsstring)
  : Prop :=
  (seen = [] /\ acc = ([], [])) \/
  (seen <> [] /\ tidy (snd acc) = true /\
   Forall (fun c => tidy c = true) (fst acc) /\
   join [SPACE] (fst acc ++ [snd acc]) = join [SPACE] seen).


(** What does not depend on the log and on the promise. *)
Record SameSession (a b : State) : Prop := {
  same_text : currentText a = currentText b;
  same_chunks : chunks a = chunks b;
  same_sid : sessionId a = sessionId b;
  same_prefs : currentPreferences a = currentPreferences b;
  same_flag : isInitiatingPlayback a = isInitiatingPlayback b
}.

Definition indexInRange (st : State) : Prop :=
  (0 <= currentChunkIndex st)%Z /\
  (chunks st <> [] -> (currentChunkIndex st < chunkCount st)%Z).

(** A value handed to the progress callback. *)
Definition progressOk (currentChunk totalChunks : Z) (progress : Q) : Prop :=
  (1 <= currentChunk <= totalChunks)%Z /\ (0 <= progress)%Q /\ (progress <= 1)%Q.

(** An utterance is for a chunk index that is not negative; a progress
    report is within its bounds. *)
Definition eventOk (e : Event) : Prop :=
  match e with
  | EvSpeak _ _ _ i _ => (0 <= i)%Z
  | EvProgress c t p => progressOk c t p
  | _ => True
  end.

Definition wellFormed (st : State) : Prop :=
  indexInRange st /\ Forall eventOk (log st).

(* ===================================================================== *)
(** ** Worked sessions *)
(* ===================================================================== *)

(** Three sentences of 501 code units: three chunks. *)
Definition story : jsstring :=
  repeat 97%N 500 ++ str ". " ++ repeat 98%N 500 ++ str ". "
  ++ repeat 99%N 500 ++ str ".".

(** An over-long sentence followed by a short one. *)
Definition longWord : jsstring := repeat 97%N 601 ++ str ". b.".

(** A sentence whose 600th code unit is a space. *)
Definition spaceAtCut : jsstring :=
  repeat 97%N 599 ++ str " " ++ repeat 98%N 10.

Definition tenWords : jsstring :=
  str "one two three four five six seven eight nine ten.".


Definition androidAt (t : Z) : World :=
  {| android := true; pauseThrows := false; resumeRejects := false; now := t |}.

Definition iosAt (t : Z) : World :=
  {| android := false; pauseThrows := false; resumeRejects := false; now := t |}.

Definition listening : State :=
  exec wordsSpoken (androidAt 0) (androidAt 0)
    (CallSetProgressCallback true) initialState.

(** [speakText(story)] on a fresh controller, then the first chunk done:
    the session plays chunk 1 of 3. *)
Definition playing0 : State :=
  exec wordsSpoken (androidAt 1000) (androidAt 1000)
    (CallSpeakText story None) listening.

Definition playing1 : State :=
  exec wordsSpoken (androidAt 5000) (androidAt 5000)
    (CallOnDone 0 1) playing0.

Definition paused1 : State := pauseSpeech (androidAt 6000) playing1.

(** The story heard to its end: the session is idle, the text and its
    three chunks still loaded. *)
Definition finished : State :=
  exec wordsSpoken (androidAt 9000) (androidAt 9000) (CallOnDone 2 1)
    (exec wordsSpoken (androidAt 7000) (androidAt 7000) (CallOnDone 1 1)
       playing1).

Definition hi : jsstring := str "Hi.".

(** A restart caught at its [await]. *)
Definition restarting : State :=
  suspendedAt (restartSpeech (androidAt 7000) story None playing1).




(* ===================================================================== *)
(** ** Further predicates, queries and callers *)
(* ===================================================================== *)

(** An utterance carries a session id that has been current, and a text
    with something to speak. *)
Definition tagOk (sid : Z) (e : Event) : Prop :=
  match e with
  | EvSpeak text _ _ _ s => (s <= sid)%Z /\ trim text <> []
  | _ => True
  end.

(** What the chain needs of the state it starts from. *)
Definition ready (st : State) : Prop :=
  chunks st = buildChunks (currentText st) /\
  Forall (tagOk (sessionId st)) (log st).

(** What holds between two calls. *)
Definition settled (st : State) : Prop :=
  isInitiatingPlayback st = false /\
  overrideFirstChunk st = None /\
  isPlaying st && isPaused st = false /\
  (chunks st = [] -> currentChunkIndex st = 0%Z) /\
  ready st.

(** [interface TTSProgress] *)
Record TTSProgress := mkProgress {
  currentChunk : Z;
  totalChunks : Z;
  progress : Q
}.

(** [getCurrentProgress()] *)
Definition getCurrentProgress (st : State) : TTSProgress :=
  {| currentChunk := currentChunkIndex st + 1;
     totalChunks := chunkCount st;
     progress :=
       if (0 <? chunkCount st)%Z then progressFraction st else 0%Q |}.

(** How many utterances have been handed to the engine. *)
Definition spoken (st : State) : nat := length (utterances (log st)).

(** [st'] has the session id and the utterances of [st]. *)
Definition quiet (st st' : State) : Prop :=
  sessionId st' = sessionId st /\ utterances (log st') = utterances (log st).

(** [st'] has the session id of [st] and at most one utterance more. *)
Definition oneMore (st st' : State) : Prop :=
  sessionId st' = sessionId st /\ spoken st <= spoken st' <= S (spoken st).

(** The step of a whole call: the session id stays or goes up by one, and
    at most one utterance is added. *)
Definition callStep (st st' : State) : Prop :=
  (sessionId st <= sessionId st' <= sessionId st + 1)%Z /\
  spoken st <= spoken st' <= S (spoken st).

(** [preferences] if given, else what was there. *)
Definition preferencesAfter (p : option TTSPreferences) (st : State)
  : TTSPreferences :=
  match p with Some q => q | None => currentPreferences st end.

(** A session started from the top on [text]: what [restartSpeech], and
    [speakText] when it does not resume, leave behind. *)
Definition startedFromTop (text : jsstring) (p : option TTSPreferences)
  (st st' : State) : Prop :=
  currentText st' = text /\
  chunks st' = buildChunks text /\
  sessionId st' = (sessionId st + 1)%Z /\
  currentChunkIndex st' = 0%Z /\
  isPaused st' = false /\
  isInitiatingPlayback st' = false /\
  overrideFirstChunk st' = None /\
  currentPreferences st' = preferencesAfter p st /\
  match buildChunks text with
  | [] =>
      isPlaying st' = false /\ playbackPromise st' = false /\
      utterances (log st') = utterances (log st)
  | first :: _ =>
      isPlaying st' = true /\ playbackPromise st' = true /\
      utterances (log st') =
        (first, 0%Z, (sessionId st + 1)%Z) :: utterances (log st) /\
      hd_error (log st') =
        Some (EvSpeak first (voiceOption (preferencesAfter p st))
                (rateOrDefault (preferencesAfter p st)) 0
                (sessionId st + 1))
  end.

(** The chunks with their indices from [k] on, tagged with a session. *)
Fixpoint numbered (sid : Z) (k : nat) (cs : list jsstring)
  : list (jsstring * Z * Z) :=
  match cs with
  | [] => []
  | c :: r => (c, Z.of_nat k, sid) :: numbered sid (S k) r
  end.

(** The engine reports the utterances of the chunks [k], [k+1], ... done,
    [n] of them in turn. *)
Fixpoint narrate (w : World) (sid : Z) (k n : nat) (st : State) : State :=
  match n with
  | O => st
  | S n' => narrate w sid (S k) n' (onDone w (Z.of_nat k) sid st)
  end.

(** [handlePlay] of the story screen, as far as the controller is
    concerned: [uiPaused] is the screen's own [isPaused], [content] the
    story's text, [preferences] what the screen has computed. *)
Definition handlePlay (w : World) (uiPaused : bool) (content : jsstring)
  (preferences : TTSPreferences) (st : State) : Task :=
  let servicePaused := isSpeechPaused st in
  if uiPaused || servicePaused then resumeSpeech w st
  else speakText w content (Some preferences) st.

(** A session over: idle, back at the first chunk, its promise
    resolved. *)
Definition ended (st : State) : Prop :=
  isPlaying st = false /\ isPaused st = false /\
  currentChunkIndex st = 0%Z /\ playbackPromise st = false.

(** The session of [paused1] after the engine has reported the stop. *)
Definition stopped1 : State := onStopped 1 paused1.

Definition slower : TTSPreferences :=
  {| voice := Some (str "en-us-x-sfg-local"); rate := Some (3 # 4)%Q |}.

(* ===================================================================== *)
(** ** Voices: [lib/voiceMapping.ts] and [lib/characterVoices.ts] *)
(* ===================================================================== *)

(** [s.startsWith(prefix)] *)
Fixpoint startsWith (s prefix : jsstring) : bool :=
  match prefix, s with
  | [], _ => true
  | p :: ps, c :: cs => (c =? p)%N && startsWith cs ps
  | _ :: _, [] => false
  end.

Module VoiceMapping.

(** [type Gender = 'female' | 'male' | 'unknown'] *)
Inductive Gender := female | male | unknown.

Definition genderEqb (a b : Gender) : bool :=
  match a, b with
  | female, female | male, male | unknown, unknown => true
  | _, _ => false
  end.

(** An entry of the array [mapVoices(voices)], with what its users read:
    [voice.identifier], [languageTag] and [gender]. *)
Record MappedVoice := mkMapped {
  identifier : jsstring;
  languageTag : jsstring;
  gender : Gender
}.

(** [chooseDefaultVoice(voices, targetLang)], on [mapped =
    mapVoices(voices)]; [None] is [undefined]. *)
Definition chooseDefaultVoice (mapped : list MappedVoice)
  (targetLang : jsstring) : option jsstring :=
  match find (fun m => eqb (languageTag m) targetLang
                       && genderEqb (gender m) female) mapped with
  | Some exact => Some (identifier exact)
  | None =>
      match find (fun m => startsWith (languageTag m) targetLang
                           && genderEqb (gender m) female) mapped with
      | Some primary => Some (identifier primary)
      | None =>
          match find (fun m => startsWith (languageTag m) targetLang) mapped with
          | Some anyLang => Some (identifier anyLang)
          | None => None
          end
      end
  end.

End VoiceMapping.

Module CharacterVoices.

Import VoiceMapping.

(** An element of [CHARACTER_DEFINITIONS]. *)
Record CharacterDefinition := mkDefinition {
  defCharacter : jsstring;
  preferredLangs : list jsstring;
  defGender : Gender;
  defSubtitle : option jsstring;
  defPitch : option Q;
  defRate : option Q
}.

(** [type CharacterOption] *)
Record CharacterOption := mkOption {
  character : jsstring;
  voiceIdentifier : option jsstring;
  gender : Gender;
  pitch : Q;
  rate : Q;
  subtitle : option jsstring
}.

Definition CHARACTER_DEFINITIONS : list CharacterDefinition :=
  [ mkDefinition (str "Samantha") [str "en-us"; str "en-gb"; str "en"] female
      (Some (str "Warm & calm")) (Some (108 # 100)%Q) (Some (92 # 100)%Q);
    mkDefinition (str "Josh") [str "en-us"; str "en"] male
      (Some (str "Energetic & clear")) (Some (98 # 100)%Q) (Some (106 # 100)%Q);
    mkDefinition (str "Luna") [str "en-gb"; str "en-us"; str "en"] female
      (Some (str "Dreamy & soft")) (Some (112 # 100)%Q) (Some (9 # 10)%Q);
    mkDefinition (str "Aaron") [str "en-us"; str "en"] male
      (Some (str "Deep & steady")) (Some (92 # 100)%Q) (Some (1 # 1)%Q);
    mkDefinition (str "Jira") [str "hi"; str "en"] female
      (Some (str "Friendly & expressive")) (Some (103 # 100)%Q)
      (Some (98 # 100)%Q) ].

(** [presetsForGender(gender)], as the pair of [pitch] and [rate]. *)
Definition presetsForGender (g : Gender) : Q * Q :=
  match g with
  | female => ((105 # 100)%Q, (95 # 100)%Q)
  | male => ((95 # 100)%Q, (1 # 1)%Q)
  | unknown => ((1 # 1)%Q, (1 # 1)%Q)
  end.

(** [a || b] on the results of [find]. *)
Definition orElse (a : option MappedVoice) (b : option MappedVoice)
  : option MappedVoice :=
  match a with Some _ => a | None => b end.

(** The four attempts of [buildCharacterOptions] for one definition. *)
Definition matchFor (mapped : list MappedVoice) (def : CharacterDefinition)
  : option MappedVoice :=
  let exact :=
    find (fun m => existsb (fun pl => eqb (languageTag m) pl) (preferredLangs def)
                   && genderEqb (VoiceMapping.gender m) (defGender def)) mapped in
  let primary :=
    find (fun m => existsb (fun pl => startsWith (languageTag m) pl)
                     (preferredLangs def)
                   && genderEqb (VoiceMapping.gender m) (defGender def)) mapped in
  let anyLang :=
    find (fun m => existsb (fun pl => startsWith (languageTag m) pl)
                     (preferredLangs def)) mapped in
  let sameGender :=
    find (fun m => genderEqb (VoiceMapping.gender m) (defGender def)) mapped in
  orElse exact (orElse primary (orElse anyLang sameGender)).

(** [buildCharacterOptions(availableVoices)], on [mapped =
    mapVoices(availableVoices)]. *)
Definition buildCharacterOptions (mapped : list MappedVoice)
  : list CharacterOption :=
  map (fun def =>
         let m := matchFor mapped def in
         {| character := defCharacter def;
            voiceIdentifier :=
              match m with Some v => Some (identifier v) | None => None end;
            gender := defGender def;
            pitch := match defPitch def with
                     | Some x => x
                     | None => fst (presetsForGender (defGender def))
                     end;
            rate := match defRate def with
                    | Some x => x
                    | None => snd (presetsForGender (defGender def))
                    end;
            subtitle := defSubtitle def |})
      CHARACTER_DEFINITIONS.

(** [findCharacterOption(options, character)] *)
Definition findCharacterOption (options : list CharacterOption)
  (name : jsstring) : option CharacterOption :=
  find (fun o => eqb (character o) name) options.

End CharacterVoices.

(* ===================================================================== *)
(** ** Story generation: the fallback over models *)
(* ===================================================================== *)

Module OpenRouter.

(** [interface GeneratedStory] *)
Record GeneratedStory := mkStory {
  title : jsstring;
  content : jsstring
}.

(** How a call of [callOpenRouter(m, storyPrompt)] ends: with a story, or
    by throwing a value whose [message] is read ([None]: no message). *)
Inductive Outcome :=
| Returned (story : GeneratedStory)
| Thrown (message : option jsstring).

Definition MODELS_TO_TRY : list jsstring :=
  [ str "openai/gpt-4o-mini";
    str "anthropic/claude-3.5-haiku";
    str "mistralai/mistral-small-latest";
    str "mistralai/mistral-7b-instruct";
    str "meta-llama/llama-3.1-8b-instruct" ].

(** [lastErr?.message || 'All OpenRouter models failed'] *)
Definition failureMessage (lastErr : option (option jsstring)) : jsstring :=
  match lastErr with
  | Some (Some m) => if truthy m then m else str "All OpenRouter models failed"
  | _ => str "All OpenRouter models failed"
  end.

(** The loop of [generateStoryOpenRouter] over the models left, with
    [lastErr] ([None]: [null]).  [call m] is the outcome of
    [callOpenRouter(m, storyPrompt)] in this run.  The result comes with
    the models that were called, in order. *)
Fixpoint tryModels (call : jsstring -> Outcome) (models : list jsstring)
  (lastErr : option (option jsstring)) : list jsstring * Outcome :=
  match models with
  | [] => ([], Thrown (Some (failureMessage lastErr)))
  | m :: rest =>
      match call m with
      | Returned story => ([m], Returned story)
      | Thrown e =>
          let (called, outcome) := tryModels call rest (Some e) in
          (m :: called, outcome)
      end
  end.

Definition generateStoryOpenRouter (call : jsstring -> Outcome)
  : list jsstring * Outcome :=
  tryModels call MODELS_TO_TRY None.

(** The call threw. *)
Definition failed (o : Outcome) : bool :=
  match o with Thrown _ => true | Returned _ => false end.

End OpenRouter.

(* ===================================================================== *)
(** * Properties *)
(* ===================================================================== *)

Example buildChunks_one_chunk :
  buildChunks (str "  One.  Two!    Three? Four  ")
  = [str "One. Two! Three? Four"].
Proof. vm_compute. reflexivity. Qed.

Example splitSentences_four :
  splitSentences (str "One. Two! Three? Four") = 
  [str "One."; str "Two!"; str "Three?"; str "Four"].
Proof. vm_compute. reflexivity. Qed.

Example buildChunks_hard_split :
  map (@length _) (buildChunks (repeat 97%N 1500)) = [600;600;300]%nat.
Proof. vm_compute. reflexivity. Qed.

Example words_three :
  words (str "  a bb   c ") = [str "a"; str "bb"; str "c"].
Proof. vm_compute. reflexivity. Qed.

(* ===================================================================== *)
(** ** Properties of the string primitives *)
(* ===================================================================== *)

Lemma space_is_ws : isWhiteSpace SPACE = true.
Proof. reflexivity. Qed.

Lemma trimStart_snoc a c :
  trimStart (a ++ [c]) =
  if forallb isWhiteSpace a
  then (if isWhiteSpace c then [] else [c])
  else trimStart a ++ [c].
Proof.
  induction a as [|d a IH]; simpl.
  - now destruct (isWhiteSpace c).
  - destruct (isWhiteSpace d); [exact IH|reflexivity].
Qed.

Lemma trimStart_nil_iff a : trimStart a = [] <-> forallb isWhiteSpace a = true.
Proof.
  induction a as [|d a IH]; simpl; [tauto|].
  destruct (isWhiteSpace d); [exact IH|]. split; discriminate.
Qed.

(** [trimEnd] removes the white space at the end: it is [trimStart] on the
    reversed string. *)
Lemma trimEnd_rev s : trimEnd s = rev (trimStart (rev s)).
Proof.
  induction s as [|c r IH]; [reflexivity|].
  cbn [trimEnd rev]. rewrite trimStart_snoc, IH.
  destruct (forallb isWhiteSpace (rev r)) eqn:E.
  - apply trimStart_nil_iff in E. rewrite E. cbn [rev].
    now destruct (isWhiteSpace c).
  - assert (N : trimStart (rev r) <> []).
    { intro N. apply trimStart_nil_iff in N. congruence. }
    rewrite rev_app_distr. cbn [rev app].
    destruct (rev (trimStart (rev r))) eqn:R; [|reflexivity].
    apply (f_equal (@rev _)) in R. rewrite rev_involutive in R. now destruct N.
Qed.

Lemma ink_app a b : ink (a ++ b) = ink a ++ ink b.
Proof. apply filter_app. Qed.

Lemma ink_collapseWs b s : ink (collapseWs b s) = ink s.
Proof.
  revert b; induction s as [|c r IH]; intro b; simpl; auto.
  destruct (isWhiteSpace c) eqn:E; simpl.
  - destruct b; simpl; rewrite ?space_is_ws; simpl; apply IH.
  - rewrite E; simpl. f_equal. apply IH.
Qed.

Lemma ink_trimStart s : ink (trimStart s) = ink s.
Proof.
  induction s as [|c r IH]; simpl; auto.
  destruct (isWhiteSpace c) eqn:E; simpl; rewrite ?E; simpl; auto.
Qed.

Lemma ink_trimEnd s : ink (trimEnd s) = ink s.
Proof.
  induction s as [|c r IH]; simpl; auto.
  destruct (trimEnd r) as [|d r'] eqn:T.
  - rewrite <- IH. destruct (isWhiteSpace c) eqn:E; simpl; rewrite ?E; auto.
  - rewrite <- IH. cbn [ink filter]. reflexivity.
Qed.

Lemma ink_trim s : ink (trim s) = ink s.
Proof. unfold trim. now rewrite ink_trimEnd, ink_trimStart. Qed.

Lemma ink_normalize s : ink (normalize s) = ink s.
Proof. unfold normalize. now rewrite ink_trim, ink_collapseWs. Qed.

Lemma splitSentencesFrom_nonnil p m s : splitSentencesFrom p m s <> [].
Proof.
  revert p m; induction s as [|c r IH]; intros p m; simpl; try discriminate.
  destruct (isWhiteSpace c).
  - destruct m; [apply IH|]. destruct p; [discriminate|].
    specialize (IH false false). destruct (splitSentencesFrom false false r); [congruence|discriminate].
  - specialize (IH (isTerminator c) false).
    destruct (splitSentencesFrom (isTerminator c) false r); [congruence|discriminate].
Qed.

Lemma concat_consHead c l : l <> [] -> concat (consHead c l) = c :: concat l.
Proof. destruct l; [congruence|reflexivity]. Qed.

Lemma ink_splitSentencesFrom p m s :
  ink (concat (splitSentencesFrom p m s)) = ink s.
Proof.
  revert p m; induction s as [|c r IH]; intros p m; simpl; auto.
  destruct (isWhiteSpace c) eqn:E.
  - destruct m; [apply IH|]. destruct p; simpl; [apply IH|].
    rewrite concat_consHead by apply splitSentencesFrom_nonnil.
    simpl. rewrite E. simpl. apply IH.
  - rewrite concat_consHead by apply splitSentencesFrom_nonnil.
    simpl. rewrite E. simpl. f_equal. apply IH.
Qed.

Lemma MAX_CHUNK_LEN_pos : 0 < MAX_CHUNK_LEN.
Proof. apply Nat.ltb_lt. reflexivity. Qed.

(** The slicing loop covers the sentence: from offset [i] on, with fuel
    for the code units left, its slices put together are the rest. *)
Lemma sliceLoop_concat s : forall fuel i,
  length s - i <= fuel -> concat (sliceLoop fuel i s) = skipn i s.
Proof.
  induction fuel as [|f IH]; intros i H; simpl.
  - symmetry. apply skipn_all2. lia.
  - destruct (i <? length s) eqn:E.
    + apply Nat.ltb_lt in E. simpl. pose proof MAX_CHUNK_LEN_pos. rewrite (IH (i + MAX_CHUNK_LEN)) by lia.
      unfold slice. replace (i + MAX_CHUNK_LEN - i) with MAX_CHUNK_LEN by lia.
      rewrite Nat.add_comm, <- skipn_skipn. apply firstn_skipn.
    + apply Nat.ltb_ge in E. symmetry. apply skipn_all2. lia.
Qed.

Lemma hardSlices_concat s : concat (hardSlices s) = s.
Proof. unfold hardSlices. rewrite sliceLoop_concat by lia. reflexivity. Qed.

Lemma sliceLoop_bounded s : forall fuel i,
  Forall (fun c => c <> [] /\ length c <= MAX_CHUNK_LEN) (sliceLoop fuel i s).
Proof.
  induction fuel as [|f IH]; intros i; simpl; [constructor|].
  destruct (i <? length s) eqn:E; [|constructor].
  apply Nat.ltb_lt in E. constructor; [|apply IH].
  unfold slice. replace (i + MAX_CHUNK_LEN - i) with MAX_CHUNK_LEN by lia.
  split.
  - intro H. apply (f_equal (@length _)) in H.
    rewrite length_firstn, length_skipn in H. cbn [length] in H.
    pose proof MAX_CHUNK_LEN_pos. lia.
  - rewrite length_firstn. lia.
Qed.

(** *** The shape of a normalized text *)

Lemma sparse_collapseWs s : forall b,
  sparse (collapseWs b s) = true /\
  (b = true -> startsWs (collapseWs b s) = false).
Proof.
  induction s as [|c r IH]; intro b; simpl; [split; auto|].
  destruct (isWhiteSpace c) eqn:E.
  - destruct b.
    + apply IH.
    + destruct (IH true) as [S1 S2]. split; [|discriminate].
      cbn [sparse]. rewrite space_is_ws, S1, S2 by reflexivity. reflexivity.
  - destruct (IH false) as [S1 _]. split.
    + simpl. rewrite E. exact S1.
    + intros _. simpl. exact E.
Qed.

Lemma sparse_tail c r : sparse (c :: r) = true -> sparse r = true.
Proof. simpl. intro H. apply andb_true_iff in H. tauto. Qed.

Lemma sparse_trimStart s :
  sparse s = true ->
  sparse (trimStart s) = true /\ startsWs (trimStart s) = false.
Proof.
  induction s as [|c r IH]; intro H; simpl; [split; auto|].
  destruct (isWhiteSpace c) eqn:E.
  - apply IH. eapply sparse_tail; eauto.
  - split; [exact H|]. simpl. exact E.
Qed.

Lemma trimEnd_shape s :
  sparse s = true -> startsWs s = false ->
  sparse (trimEnd s) = true /\ startsWs (trimEnd s) = false
  /\ endsWs (trimEnd s) = false.
Proof.
  induction s as [|c r IH]; intros HS HW; simpl; [auto|].
  simpl in HW. simpl in HS. rewrite HW in HS. simpl in HS.
  destruct (trimEnd r) as [|d r'] eqn:T.
  - rewrite HW. simpl. rewrite HW. auto.
  - (* the kept tail is shaped as soon as it does not start with white space *)
    assert (HT : sparse (d :: r') = true /\ endsWs (d :: r') = false
                 /\ startsWs (d :: r') = startsWs r).
    { clear IH HW. revert d r' T HS.
      induction r as [|e r2 IH2]; intros d r' T HS; simpl in T; [discriminate|].
      simpl in HS. apply andb_true_iff in HS. destruct HS as [HS1 HS2].
      destruct (trimEnd r2) as [|d2 r2'] eqn:T2.
      - destruct (isWhiteSpace e) eqn:Ee; [discriminate|].
        inversion T; subst. simpl. rewrite Ee. auto.
      - inversion T; subst. destruct (IH2 _ _ eq_refl HS2) as (A & B & C).
        split; [|split].
        + change (sparse (d :: d2 :: r2'))
            with ((if isWhiteSpace d then (d =? SPACE)%N && negb (startsWs (d2 :: r2')) else true)
                  && sparse (d2 :: r2')).
          rewrite A, C. rewrite andb_true_r. exact HS1.
        + exact B.
        + reflexivity. }
    destruct HT as (A & B & C).
    split; [|split].
    + change (sparse (c :: d :: r'))
        with ((if isWhiteSpace c then (c =? SPACE)%N && negb (startsWs (d :: r')) else true)
              && sparse (d :: r')).
      rewrite HW, A. reflexivity.
    + simpl. exact HW.
    + exact B.
Qed.

(** A normalized text is sparse and has no white space at its ends. *)
Lemma normalize_shape text :
  sparse (normalize text) = true /\ startsWs (normalize text) = false
  /\ endsWs (normalize text) = false.
Proof.
  unfold normalize, trim.
  destruct (sparse_collapseWs text false) as [S1 _].
  destruct (sparse_trimStart _ S1) as [S2 S3].
  apply trimEnd_shape; assumption.
Qed.

Lemma trimStart_id s : startsWs s = false -> trimStart s = s.
Proof. destruct s as [|c r]; simpl; auto. intros ->. reflexivity. Qed.

Lemma trimEnd_id s : endsWs s = false -> trimEnd s = s.
Proof.
  induction s as [|c r IH]; simpl; auto.
  destruct r as [|d r'].
  - intros ->. reflexivity.
  - intro H. rewrite IH by exact H. reflexivity.
Qed.

Lemma trim_id s : startsWs s = false -> endsWs s = false -> trim s = s.
Proof. intros A B. unfold trim. rewrite trimStart_id by exact A. now apply trimEnd_id. Qed.

Lemma tidy_inv s :
  tidy s = true -> s <> [] /\ startsWs s = false /\ endsWs s = false.
Proof.
  unfold tidy. intro H. apply andb_true_iff in H. destruct H as [H C].
  apply andb_true_iff in H. destruct H as [A B].
  apply negb_true_iff in B. apply negb_true_iff in C.
  destruct s; [discriminate|]. repeat split; auto. discriminate.
Qed.

Lemma tidy_intro s :
  s <> [] -> startsWs s = false -> endsWs s = false -> tidy s = true.
Proof. intros A B C. unfold tidy. rewrite B, C. destruct s; [congruence|reflexivity]. Qed.

Lemma trim_tidy s : tidy s = true -> trim s = s.
Proof. intro H. apply tidy_inv in H. apply trim_id; tauto. Qed.

Lemma endsWs_app a b : b <> [] -> endsWs (a ++ b) = endsWs b.
Proof.
  intro H. induction a as [|c a IH]; simpl; auto.
  destruct (a ++ b) eqn:E; [|exact IH].
  apply app_eq_nil in E. tauto.
Qed.

Lemma tidy_glue a b :
  tidy a = true -> tidy b = true -> tidy (a ++ SPACE :: b) = true.
Proof.
  intros A B. apply tidy_inv in A. apply tidy_inv in B.
  destruct A as (A1 & A2 & A3), B as (B1 & B2 & B3).
  apply tidy_intro.
  - destruct a; [congruence|discriminate].
  - destruct a; [congruence|exact A2].
  - rewrite endsWs_app by discriminate. destruct b; [congruence|exact B3].
Qed.

(** Outside a separator, and before something else than white space, the
    scan does not depend on what came before. *)
Lemma splitSentencesFrom_restart p m s :
  startsWs s = false ->
  splitSentencesFrom p m s = splitSentencesFrom false false s.
Proof. destruct s as [|c r]; simpl; auto. intros ->. reflexivity. Qed.

Lemma endsWs_cons c s : s <> [] -> endsWs (c :: s) = endsWs s.
Proof. destruct s; [congruence|reflexivity]. Qed.

(** The pieces of a sparse text that does not end in white space: all but
    the first are tidy, and the first is tidy too when the text starts
    with something else than white space. *)
Lemma splitSentencesFrom_shape s : forall p,
  sparse s = true -> endsWs s = false ->
  exists h t,
    splitSentencesFrom p false s = h :: t /\
    Forall (fun x => tidy x = true) t /\
    endsWs h = false /\
    (s <> [] -> startsWs s = false -> startsWs h = false /\ h <> []).
Proof.
  induction s as [|c r IH]; intros p HS HE.
  - exists [], []. simpl. repeat split; auto; congruence.
  - assert (HSr : sparse r = true) by (eapply sparse_tail; eauto).
    assert (HEr : endsWs r = false).
    { destruct r; [reflexivity|]. exact HE. }
    simpl. destruct (isWhiteSpace c) eqn:E.
    + (* white space: not the last code unit, and followed by none *)
      assert (Hr : r <> [] /\ startsWs r = false).
      { simpl in HS. rewrite E in HS. destruct r as [|d r'].
        - simpl in HE. congruence.
        - split; [discriminate|].
          apply andb_true_iff in HS. destruct HS as [HS _].
          apply andb_true_iff in HS. destruct HS as [_ HS].
          now apply negb_true_iff in HS. }
      destruct Hr as [Hr1 Hr2].
      assert (Hc : (c :: r <> [] -> startsWs (c :: r) = false -> False)).
      { intros _ Hc. simpl in Hc. congruence. }
      destruct (IH false HSr HEr) as (h & t & Eq & Ft & Eh & Hh).
      destruct (Hh Hr1 Hr2) as [Hh1 Hh2].
      destruct p.
      * rewrite (splitSentencesFrom_restart false true r Hr2), Eq.
        exists [], (h :: t). split; [reflexivity|]. split; [|split].
        -- constructor; auto. now apply tidy_intro.
        -- reflexivity.
        -- intros X Y. simpl in Y. congruence.
      * rewrite Eq. exists (c :: h), t. split; [reflexivity|]. split; [|split].
        -- exact Ft.
        -- rewrite endsWs_cons by exact Hh2. exact Eh.
        -- intros X Y. simpl in Y. congruence.
    + destruct (IH (isTerminator c) HSr HEr) as (h & t & Eq & Ft & Eh & Hh).
      rewrite Eq. exists (c :: h), t. split; [reflexivity|]. split; [|split].
      * exact Ft.
      * destruct h as [|d h']; [exact E|exact Eh].
      * intros _ _. split; [exact E|discriminate].
Qed.

(** The sentences of a non-empty normalized text are tidy. *)
Lemma sentences_tidy text :
  normalize text <> [] ->
  Forall (fun s => tidy s = true) (splitSentences (normalize text)).
Proof.
  intro Hne. destruct (normalize_shape text) as (A & B & C).
  destruct (splitSentencesFrom_shape _ false A C) as (h & t & Eq & Ft & Eh & Hh).
  unfold splitSentences. rewrite Eq. constructor; auto.
  destruct (Hh Hne B). now apply tidy_intro.
Qed.

(** *** The loop of [buildChunks] *)

Lemma truthy_false s : truthy s = false -> s = [].
Proof. destruct s; [reflexivity|discriminate]. Qed.

Lemma truthy_true s : truthy s = true <-> s <> [].
Proof. destruct s; simpl; split; congruence. Qed.

Lemma trim_space_tidy s : tidy s = true -> trim (SPACE :: s) = s.
Proof. intro H. unfold trim. simpl. fold (trim s). now apply trim_tidy. Qed.

Lemma chunkStep_ok acc s :
  loopOk acc -> tidy s = true -> loopOk (chunkStep acc s).
Proof.
  destruct acc as [out buf]. unfold loopOk. cbn [fst snd].
  intros (Ho & Hb & Hl) Hs. unfold chunkStep.
  assert (Hout1 : Forall (fun c => c <> [] /\ length c <= MAX_CHUNK_LEN)
                    (if truthy buf then out ++ [trim buf] else out)).
  { destruct (truthy buf) eqn:T; [|exact Ho].
    apply Forall_app. split; [exact Ho|]. constructor; [|constructor].
    destruct Hb as [->|Hb]; [discriminate|].
    rewrite trim_tidy by exact Hb. split; [now apply truthy_true|exact Hl]. }
  destruct (MAX_CHUNK_LEN <? length (trim (buf ++ SPACE :: s))) eqn:Over.
  - destruct (MAX_CHUNK_LEN <? length s) eqn:Long; cbn [fst snd].
    + split; [|split].
      * apply Forall_app. split; [exact Hout1|apply sliceLoop_bounded].
      * now left.
      * cbn [length]. lia.
    + apply Nat.ltb_ge in Long. repeat split; auto.
  - apply Nat.ltb_ge in Over. cbn [fst snd]. split; [exact Ho|].
    destruct Hb as [->|Hb].
    + cbn [truthy app] in *. rewrite trim_space_tidy in Over by exact Hs. auto.
    + assert (T : truthy buf = true).
      { apply tidy_inv in Hb. now apply truthy_true. }
      rewrite T. rewrite <- app_assoc. cbn [app].
      pose proof (tidy_glue _ _ Hb Hs) as G.
      rewrite trim_tidy in Over by exact G. auto.
Qed.

Lemma chunkLoop_ok sentences : forall acc,
  loopOk acc -> Forall (fun s => tidy s = true) sentences ->
  loopOk (fold_left chunkStep sentences acc).
Proof.
  induction sentences as [|s rest IH]; intros acc Ha Hs; simpl; [exact Ha|].
  inversion Hs; subst. apply IH; [now apply chunkStep_ok|assumption].
Qed.

Lemma normalize_nil_or text :
  truthy (normalize text) = false -> normalize text = [].
Proof. apply truthy_false. Qed.

(** Every chunk is non-empty and at most [MAX_CHUNK_LEN] long. *)
Lemma buildChunks_bounded text :
  Forall (fun c => c <> [] /\ length c <= MAX_CHUNK_LEN) (buildChunks text).
Proof.
  unfold buildChunks. cbv zeta.
  destruct (truthy (normalize text)) eqn:T; cbn [negb]; [|constructor].
  apply truthy_true in T.
  assert (H : loopOk (fold_left chunkStep (splitSentences (normalize text)) ([], []))).
  { apply chunkLoop_ok; [|now apply sentences_tidy].
    unfold loopOk. cbn [fst snd length]. repeat split; auto. lia. }
  destruct (fold_left chunkStep (splitSentences (normalize text)) ([], []))
    as [out buf].
  destruct H as (Ho & Hb & Hl). cbn [fst snd] in *.
  destruct (truthy buf) eqn:Tb; [|exact Ho].
  apply Forall_app. split; [exact Ho|]. constructor; [|constructor].
  destruct Hb as [->|Hb]; [discriminate|].
  rewrite trim_tidy by exact Hb. split; [now apply truthy_true|exact Hl].
Qed.

(** A text of white space only has an empty normal form. *)
Lemma normalize_blank text :
  Forall (fun c => isWhiteSpace c = true) text -> normalize text = [].
Proof.
  intro H. assert (E : ink text = []).
  { induction H as [|c r Hc _ IH]; simpl; auto. rewrite Hc. exact IH. }
  rewrite <- ink_normalize in E.
  destruct (normalize_shape text) as (_ & B & _).
  destruct (normalize text) as [|c r]; [reflexivity|].
  simpl in B, E. rewrite B in E. discriminate.
Qed.

Lemma buildChunks_blank text :
  Forall (fun c => isWhiteSpace c = true) text -> buildChunks text = [].
Proof.
  intro H. unfold buildChunks. cbv zeta.
  rewrite (normalize_blank _ H). reflexivity.
Qed.

(** *** No code unit other than white space is lost, added or moved *)

Lemma chunkStep_ink acc s : inkOf (chunkStep acc s) = inkOf acc ++ ink s.
Proof.
  destruct acc as [out buf]. unfold inkOf, chunkStep. cbv zeta. cbn [fst snd].
  set (out1 := if truthy buf then out ++ [trim buf] else out).
  assert (H1 : ink (concat out1) = ink (concat out) ++ ink buf).
  { subst out1. destruct (truthy buf) eqn:T.
    - rewrite concat_app, ink_app. simpl. now rewrite app_nil_r, ink_trim.
    - apply truthy_false in T. subst. simpl. now rewrite app_nil_r. }
  clearbody out1.
  destruct (MAX_CHUNK_LEN <? length (trim (buf ++ SPACE :: s))).
  - destruct (MAX_CHUNK_LEN <? length s); cbn [fst snd].
    + rewrite concat_app, ink_app, H1, hardSlices_concat. simpl.
      now rewrite app_nil_r.
    + now rewrite H1.
  - cbn [fst snd]. rewrite ink_app. rewrite <- app_assoc. f_equal. f_equal.
    destruct (truthy buf) eqn:T.
    + rewrite ink_app. simpl. now rewrite app_nil_r.
    + apply truthy_false in T. now subst.
Qed.

Lemma chunkLoop_ink sentences : forall acc,
  inkOf (fold_left chunkStep sentences acc) = inkOf acc ++ ink (concat sentences).
Proof.
  induction sentences as [|s rest IH]; intro acc; simpl.
  - now rewrite app_nil_r.
  - rewrite IH, chunkStep_ink, ink_app, app_assoc. reflexivity.
Qed.

Lemma buildChunks_ink text : ink (concat (buildChunks text)) = ink text.
Proof.
  unfold buildChunks. cbv zeta.
  destruct (truthy (normalize text)) eqn:T; cbn [negb].
  - pose proof (chunkLoop_ink (splitSentences (normalize text)) ([], [])) as H.
    unfold splitSentences in H at 2.
    rewrite ink_splitSentencesFrom, ink_normalize in H.
    destruct (fold_left chunkStep (splitSentences (normalize text)) ([], []))
      as [out buf].
    unfold inkOf in H. cbn [fst snd concat ink filter app] in H.
    rewrite <- H. destruct (truthy buf) eqn:Tb.
    + rewrite concat_app, ink_app. simpl. now rewrite app_nil_r, ink_trim.
    + apply truthy_false in Tb. subst. simpl. now rewrite app_nil_r.
  - apply truthy_false in T. rewrite <- (ink_normalize text), T. reflexivity.
Qed.

(** *** Joining the pieces back *)

Lemma join_cons sep p l : l <> [] -> join sep (p :: l) = p ++ sep ++ join sep l.
Proof. destruct l; [congruence|reflexivity]. Qed.

Lemma join_consHead sep c l :
  l <> [] -> join sep (consHead c l) = c :: join sep l.
Proof.
  destruct l as [|p rest]; [congruence|]. intros _.
  destruct rest; reflexivity.
Qed.

Lemma join_snoc sep l x : l <> [] -> join sep (l ++ [x]) = join sep l ++ sep ++ x.
Proof.
  induction l as [|p l IH]; [congruence|]. intros _.
  destruct l as [|q l].
  - reflexivity.
  - change ((p :: q :: l) ++ [x]) with (p :: ((q :: l) ++ [x])).
    rewrite join_cons by (simpl; discriminate).
    rewrite IH by discriminate.
    rewrite (join_cons sep p (q :: l)) by discriminate.
    now rewrite <- !app_assoc.
Qed.

Lemma join_grow_last sep out b x :
  join sep (out ++ [b ++ x]) = join sep (out ++ [b]) ++ x.
Proof.
  destruct out as [|p out]; [reflexivity|].
  rewrite !join_snoc by discriminate. now rewrite <- !app_assoc.
Qed.

(** Joining the sentences of a normalized text with single spaces gives
    the text back: each separator was one space. *)
Lemma join_splitSentencesFrom s : forall p,
  sparse s = true -> endsWs s = false ->
  join [SPACE] (splitSentencesFrom p false s) = s.
Proof.
  induction s as [|c r IH]; intros p HS HE; [reflexivity|].
  assert (HSr : sparse r = true) by (eapply sparse_tail; eauto).
  assert (HEr : endsWs r = false).
  { destruct r; [reflexivity|]. exact HE. }
  simpl. destruct (isWhiteSpace c) eqn:E.
  - simpl in HS. rewrite E in HS.
    apply andb_true_iff in HS. destruct HS as [HS _].
    apply andb_true_iff in HS. destruct HS as [Hc Hr].
    apply N.eqb_eq in Hc. apply negb_true_iff in Hr. subst c.
    destruct p.
    + rewrite (splitSentencesFrom_restart false true r Hr).
      rewrite join_cons by apply splitSentencesFrom_nonnil.
      rewrite IH by assumption. reflexivity.
    + rewrite join_consHead by apply splitSentencesFrom_nonnil.
      now rewrite IH.
  - rewrite join_consHead by apply splitSentencesFrom_nonnil.
    now rewrite IH.
Qed.

Lemma chunkStep_join seen acc s :
  joinOk seen acc -> tidy s = true -> length s <= MAX_CHUNK_LEN ->
  joinOk (seen ++ [s]) (chunkStep acc s).
Proof.
  intros H Hs Hl. right. split; [destruct seen; discriminate|].
  apply Nat.ltb_ge in Hl.
  destruct H as [[-> ->]|(Hn & Hb & Ho & Hj)].
  - unfold chunkStep. cbn [truthy app]. rewrite Hl.
    destruct (MAX_CHUNK_LEN <? length (trim (SPACE :: s)));
      cbn [fst snd app]; repeat split; auto.
  - destruct acc as [out buf]. cbn [fst snd] in *.
    assert (T : truthy buf = true).
    { apply tidy_inv in Hb. now apply truthy_true. }
    unfold chunkStep. rewrite T, Hl, (trim_tidy _ Hb).
    destruct (MAX_CHUNK_LEN <? length (trim (buf ++ SPACE :: s)));
      cbn [fst snd].
    + split; [exact Hs|]. split.
      * apply Forall_app. split; [exact Ho|]. now constructor.
      * rewrite (join_snoc _ (out ++ [buf])) by (destruct out; discriminate).
        rewrite Hj, (join_snoc _ seen) by exact Hn. reflexivity.
    + split; [|split; [exact Ho|]].
      * replace ((buf ++ [SPACE]) ++ s) with (buf ++ SPACE :: s)
          by (now rewrite <- app_assoc).
        now apply tidy_glue.
      * replace ((buf ++ [SPACE]) ++ s) with (buf ++ ([SPACE] ++ s))
          by apply app_assoc.
        rewrite join_grow_last, Hj, (join_snoc _ seen) by exact Hn.
        reflexivity.
Qed.

Lemma chunkLoop_join sentences : forall seen acc,
  joinOk seen acc ->
  Forall (fun s => tidy s = true) sentences ->
  Forall (fun s => length s <= MAX_CHUNK_LEN) sentences ->
  joinOk (seen ++ sentences) (fold_left chunkStep sentences acc).
Proof.
  induction sentences as [|s rest IH]; intros seen acc H Ht Hl; simpl.
  - now rewrite app_nil_r.
  - inversion Ht; subst. inversion Hl; subst.
    replace (seen ++ s :: rest) with ((seen ++ [s]) ++ rest)
      by (now rewrite <- app_assoc).
    apply IH; auto. now apply chunkStep_join.
Qed.

(** When no sentence is longer than [MAX_CHUNK_LEN], the chunks are tidy
    and joined with single spaces they are the normalized text. *)
Lemma buildChunks_join text :
  Forall (fun s => length s <= MAX_CHUNK_LEN)
         (splitSentences (normalize text)) ->
  join [SPACE] (buildChunks text) = normalize text /\
  Forall (fun c => tidy c = true) (buildChunks text).
Proof.
  intro Hl. unfold buildChunks. cbv zeta.
  destruct (truthy (normalize text)) eqn:T; cbn [negb].
  - apply truthy_true in T.
    pose proof (chunkLoop_join (splitSentences (normalize text)) [] ([], [])
                  (or_introl (conj eq_refl eq_refl))
                  (sentences_tidy text T) Hl) as H.
    cbn [app] in H.
    destruct (normalize_shape text) as (A & B & C).
    destruct (fold_left chunkStep (splitSentences (normalize text)) ([], []))
      as [out buf].
    destruct H as [[H _]|(Hn & Hb & Ho & Hj)].
    + exfalso. revert H. apply splitSentencesFrom_nonnil.
    + cbn [fst snd] in *.
      assert (Tb : truthy buf = true).
      { apply tidy_inv in Hb. now apply truthy_true. }
      rewrite Tb, (trim_tidy _ Hb). split.
      * rewrite Hj. now apply join_splitSentencesFrom.
      * apply Forall_app. split; [exact Ho|]. now constructor.
  - apply truthy_false in T. rewrite T. split; [reflexivity|constructor].
Qed.

(** *** A single over-long sentence *)

Lemma splitSentences_single s :
  Forall (fun c => isTerminator c = false) s -> splitSentences s = [s].
Proof.
  unfold splitSentences. induction 1 as [|c r Hc _ IH]; [reflexivity|].
  simpl. rewrite Hc, IH. now destruct (isWhiteSpace c).
Qed.

Lemma sliceLoop_unroll fuel i s :
  length s - i <= fuel -> i < length s ->
  sliceLoop fuel i s =
  slice i (i + MAX_CHUNK_LEN) s :: sliceLoop (fuel - 1) (i + MAX_CHUNK_LEN) s.
Proof.
  intros Hf Hi. destruct fuel as [|f]; [lia|].
  cbn [sliceLoop]. apply Nat.ltb_lt in Hi. rewrite Hi.
  now rewrite Nat.sub_1_r.
Qed.

Lemma sliceLoop_done fuel i s : length s <= i -> sliceLoop fuel i s = [].
Proof.
  intro H. destruct fuel; [reflexivity|]. cbn [sliceLoop].
  apply Nat.ltb_ge in H. now rewrite H.
Qed.

(** A sentence of more than two and at most three times the limit is cut
    in three. *)
Lemma hardSlices_three s :
  2 * MAX_CHUNK_LEN < length s -> length s <= 3 * MAX_CHUNK_LEN ->
  hardSlices s =
    [slice 0 MAX_CHUNK_LEN s;
     slice MAX_CHUNK_LEN (2 * MAX_CHUNK_LEN) s;
     slice (2 * MAX_CHUNK_LEN) (3 * MAX_CHUNK_LEN) s].
Proof.
  intros H2 H3. unfold hardSlices. pose proof MAX_CHUNK_LEN_pos as HM.
  rewrite (sliceLoop_unroll _ 0) by lia.
  rewrite (sliceLoop_unroll _ (0 + MAX_CHUNK_LEN)) by lia.
  rewrite (sliceLoop_unroll _ (0 + MAX_CHUNK_LEN + MAX_CHUNK_LEN)) by lia.
  rewrite sliceLoop_done by lia.
  replace (0 + MAX_CHUNK_LEN) with MAX_CHUNK_LEN by lia.
  replace (MAX_CHUNK_LEN + MAX_CHUNK_LEN) with (2 * MAX_CHUNK_LEN) by lia.
  replace (2 * MAX_CHUNK_LEN + MAX_CHUNK_LEN) with (3 * MAX_CHUNK_LEN) by lia.
  reflexivity.
Qed.

(** A text whose normal form is one sentence longer than the limit is
    chunked into the hard slices of that sentence. *)
Lemma buildChunks_single_long text :
  MAX_CHUNK_LEN < length (normalize text) ->
  Forall (fun c => isTerminator c = false) (normalize text) ->
  buildChunks text = hardSlices (normalize text).
Proof.
  intros Hlen Hterm. unfold buildChunks. cbv zeta.
  destruct (normalize_shape text) as (A & B & C).
  assert (Hne : normalize text <> []).
  { intro E. rewrite E in Hlen. cbn [length] in Hlen. lia. }
  assert (Ht : tidy (normalize text) = true) by now apply tidy_intro.
  rewrite (proj2 (truthy_true _) Hne). cbn [negb].
  rewrite (splitSentences_single _ Hterm). cbn [fold_left].
  unfold chunkStep. cbn [app truthy].
  rewrite (trim_space_tidy _ Ht).
  apply Nat.ltb_lt in Hlen. rewrite Hlen. reflexivity.
Qed.

(** ** The controller *)

Lemma eqb_eq a b : eqb a b = true <-> a = b.
Proof. unfold eqb. destruct (list_eq_dec N.eq_dec a b); split; congruence. Qed.

Lemma eqb_refl a : eqb a a = true.
Proof. now apply eqb_eq. Qed.

(** Setting the re-entrancy flag and clearing it again leaves a state whose
    flag was clear as it was. *)
Lemma flag_round_trip st :
  isInitiatingPlayback st = false ->
  set_isInitiatingPlayback false (set_isInitiatingPlayback true st) = st.
Proof. destruct st. simpl. now intros ->. Qed.

(** *** The re-entrancy guard *)

Lemma speakText_guarded w text prefs st :
  isInitiatingPlayback st = true -> speakText w text prefs st = Return st.
Proof. unfold speakText. now intros ->. Qed.

Lemma resumeSpeech_guarded w st :
  isInitiatingPlayback st = true -> resumeSpeech w st = Return st.
Proof. unfold resumeSpeech. now intros ->. Qed.

Lemma restartSpeech_guarded w text prefs st :
  isInitiatingPlayback st = true -> restartSpeech w text prefs st = Return st.
Proof. unfold restartSpeech. now intros ->. Qed.

(** [speakText] on a paused session with the same text: the call of
    [resumeSpeech] finds the flag that [speakText] has just set, returns
    at once, and [speakText] ends having changed nothing. *)
Lemma speakText_paused_same_text w w' text prefs st :
  isInitiatingPlayback st = false ->
  isPaused st = true ->
  currentText st = text ->
  run w' (speakText w text prefs st) = st.
Proof.
  intros Hf Hp Ht. unfold speakText. rewrite Hf. cbv zeta.
  replace (isPaused (set_isInitiatingPlayback true st)) with true
    by (symmetry; exact Hp).
  replace (currentText (set_isInitiatingPlayback true st)) with text
    by (symmetry; exact Ht).
  rewrite eqb_refl. cbn [andb].
  rewrite resumeSpeech_guarded by reflexivity.
  cbn [awaitTask run]. now apply flag_round_trip.
Qed.

(** *** Stale callbacks *)

Lemma stale_sid sid st : sid <> sessionId st -> negb (sid =? sessionId st)%Z = true.
Proof. intro H. apply negb_true_iff. now apply Z.eqb_neq. Qed.

Lemma speakChunkChain_stale w i sid st :
  sid <> sessionId st -> speakChunkChain w i sid st = st.
Proof. intro H. unfold speakChunkChain. now rewrite stale_sid. Qed.

Lemma onDone_stale w i sid st : sid <> sessionId st -> onDone w i sid st = st.
Proof. intro H. unfold onDone. now rewrite stale_sid. Qed.

Lemma onStopped_stale sid st : sid <> sessionId st -> onStopped sid st = st.
Proof. intro H. unfold onStopped. now rewrite stale_sid. Qed.

Lemma onError_stale sid st : sid <> sessionId st -> onError sid st = st.
Proof. intro H. unfold onError. now rewrite stale_sid. Qed.

(** [updateProgress], [ensurePlaybackPromise] and [resolvePlayback] touch
    nothing but the log and the promise. *)
Ltac effects :=
  unfold finishSession, resolvePlayback, updateProgress, ensurePlaybackPromise,
         replacePreferences;
  repeat match goal with
         | |- context [if ?b then _ else _] => destruct b
         | |- context [match ?p with Some _ => _ | None => _ end] => destruct p
         end;
  cbn; try reflexivity; try lia.

Lemma sessionId_speakChunkChain w i sid st :
  sessionId (speakChunkChain w i sid st) = sessionId st.
Proof. unfold speakChunkChain. effects. Qed.

Lemma restartSpeech_bumps w w' text prefs st :
  isInitiatingPlayback st = false ->
  sessionId (suspendedAt (restartSpeech w text prefs st)) = (sessionId st + 1)%Z /\
  sessionId (run w' (restartSpeech w text prefs st)) = (sessionId st + 1)%Z.
Proof.
  intro Hf. unfold restartSpeech. rewrite Hf. cbv zeta.
  unfold awaitStop, startChain. cbn [suspendedAt run].
  split.
  - effects.
  - cbn. rewrite sessionId_speakChunkChain. effects.
Qed.

(** *** The chunk chain *)

Lemma updateProgress_cases st :
  updateProgress st = st \/
  exists c t p, updateProgress st = emit (EvProgress c t p) st.
Proof.
  unfold updateProgress.
  destruct (progressCallback st && (0 <? chunkCount st)%Z); [right|now left].
  now eexists _, _, _.
Qed.

Ltac progress_cases :=
  match goal with
  | |- context [updateProgress ?x] =>
      let E := fresh "E" in
      destruct (updateProgress_cases x) as [E|(? & ? & ? & E)]; rewrite E;
      clear E
  end.

(** One utterance of a chunk that is there and not blank, no override
    pending. *)
Lemma speakChunkChain_speaks w i st text :
  (0 <= i < chunkCount st)%Z ->
  overrideFirstChunk st = None ->
  chunkAt st i = Some text ->
  trim text <> [] ->
  let st' := speakChunkChain w i (sessionId st) st in
  currentChunkIndex st' = i /\ isPlaying st' = true /\ isPaused st' = false /\
  SameSession st' st /\
  overrideFirstChunk st' = None /\
  chunkStartTime st' = Some (now w) /\
  chunkStartPrefs st' = Some (currentPreferences st) /\
  playbackPromise st' = playbackPromise st /\
  progressCallback st' = progressCallback st /\
  utterances (log st') = (text, i, sessionId st) :: utterances (log st).
Proof.
  intros Hi Hov Hc Hb. unfold speakChunkChain.
  rewrite Z.eqb_refl. cbn [negb].
  replace (chunkCount st <=? i)%Z with false by (symmetry; apply Z.leb_gt; lia).
  cbv zeta.
  assert (Ht : negb (truthy text) || (length (trim text) =? 0) = false).
  { destruct text as [|c r]; [now destruct Hb|].
    destruct (trim (c :: r)); [now destruct Hb|reflexivity]. }
  unfold chunkAt in *.
  progress_cases; cbn -[trim Nat.eqb truthy]; rewrite Hov;
    cbn -[trim Nat.eqb truthy]; rewrite Hc;
    cbn -[trim Nat.eqb truthy]; rewrite Ht; cbn;
    repeat split; first [reflexivity|assumption].
Qed.

(** Past the last chunk the session ends. *)
Lemma speakChunkChain_finishes w i st :
  (chunkCount st <= i)%Z ->
  speakChunkChain w i (sessionId st) st = finishSession st.
Proof.
  intro H. unfold speakChunkChain. rewrite Z.eqb_refl. cbn [negb].
  now replace (chunkCount st <=? i)%Z with true by (symmetry; apply Z.leb_le; lia).
Qed.

(** *** Pause, then resume *)

Lemma pauseSpeech_effect w st :
  let st' := pauseSpeech w st in
  isPaused st' = true /\ isPlaying st' = false /\
  currentChunkIndex st' = currentChunkIndex st /\
  SameSession st' st /\
  overrideFirstChunk st' = overrideFirstChunk st /\
  utterances (log st') = utterances (log st).
Proof.
  unfold pauseSpeech.
  progress_cases; destruct (android w), (pauseThrows w); cbn;
    repeat split; reflexivity.
Qed.

Lemma chunkCount_pos_truthy st :
  (0 < chunkCount st)%Z -> (chunkCount st =? 0)%Z = false.
Proof. intro H. apply Z.eqb_neq. lia. Qed.

Lemma resumeSpeech_effect w1 w2 st k text :
  isInitiatingPlayback st = false ->
  currentText st <> [] ->
  (0 <= k < chunkCount st)%Z ->
  currentChunkIndex st = k ->
  overrideFirstChunk st = None ->
  chunkAt st k = Some text ->
  trim text <> [] ->
  let st' := run w2 (resumeSpeech w1 st) in
  currentChunkIndex st' = k /\ isPlaying st' = true /\ isPaused st' = false /\
  sessionId st' = sessionId st /\ chunks st' = chunks st /\
  isInitiatingPlayback st' = false /\
  (if android w2 || resumeRejects w2
   then utterances (log st') = (text, k, sessionId st) :: utterances (log st)
   else utterances (log st') = utterances (log st) /\ In EvResume (log st')).
Proof.
  intros Hf Ht Hk Hi Hov Hc Hb. unfold resumeSpeech.
  rewrite Hf. apply truthy_true in Ht. rewrite Ht.
  rewrite chunkCount_pos_truthy by lia. cbn [negb orb]. cbv zeta.
  unfold awaitStop. cbn [run].
  set (st2 := set_isPlaying true
                (set_isPaused false
                   (emit EvStop (set_isInitiatingPlayback true st)))).
  assert (Manual : forall sx,
    SameSession sx st2 -> chunkCount sx = chunkCount st ->
    chunkAt sx k = Some text -> overrideFirstChunk sx = None ->
    utterances (log sx) = utterances (log st) ->
    let st' := set_isInitiatingPlayback false
                 (ensurePlaybackPromise
                    (speakChunkChain w2 (currentChunkIndex (set_isInitiatingPlayback true st))
                       (sessionId sx) sx)) in
    currentChunkIndex st' = k /\ isPlaying st' = true /\ isPaused st' = false /\
    sessionId st' = sessionId st /\ chunks st' = chunks st /\
    isInitiatingPlayback st' = false /\
    utterances (log st') = (text, k, sessionId st) :: utterances (log st)).
  { intros sx Hs Hn Hcx Hox Hux.
    replace (currentChunkIndex (set_isInitiatingPlayback true st)) with k
      by (symmetry; exact Hi).
    destruct (speakChunkChain_speaks w2 k sx text) as
      (A1 & A2 & A3 & A4 & A5 & A6 & A7 & A8 & A9 & A10); auto.
    { now rewrite Hn. }
    destruct A4 as [B1 B2 B3 B4 B5]. destruct Hs as [C1 C2 C3 C4 C5].
    unfold ensurePlaybackPromise.
    destruct (playbackPromise (speakChunkChain w2 k (sessionId sx) sx)); cbn;
      rewrite ?A1, ?A2, ?A3, ?B2, ?B3, ?A10, ?C2, ?C3, ?Hux; repeat split;
      reflexivity. }
  destruct (android w2) eqn:Ea; cbn [negb orb].
  - apply (Manual st2); subst st2; try (constructor; reflexivity); auto.
  - cbn [run]. destruct (resumeRejects w2) eqn:Er.
    + apply (Manual (emit EvResume st2)); subst st2;
        try (constructor; reflexivity); auto.
    + cbn [run]. subst st2. unfold ensurePlaybackPromise.
      progress_cases; cbn; destruct (playbackPromise st); cbn;
        repeat split; auto.
Qed.


(** *** [seekToChunk] *)

Lemma seekToChunk_rejects w i st :
  currentText st = [] \/ chunks st = [] \/ (i < 0)%Z \/ (chunkCount st <= i)%Z ->
  seekToChunk w i st = Return st.
Proof.
  intro H. unfold seekToChunk.
  destruct (negb (truthy (currentText st)) || (chunkCount st =? 0)%Z) eqn:E1;
    [reflexivity|].
  destruct ((i <? 0)%Z || (chunkCount st <=? i)%Z) eqn:E2; [reflexivity|].
  exfalso. apply orb_false_iff in E1, E2.
  destruct E1 as [A B], E2 as [C D].
  apply negb_false_iff, truthy_true in A.
  apply Z.eqb_neq in B. apply Z.ltb_ge in C. apply Z.leb_gt in D.
  destruct H as [H|[H|[H|H]]]; try lia; try congruence.
  unfold chunkCount in B. rewrite H in B. now apply B.
Qed.

Lemma seekToChunk_accepts w w' i st :
  currentText st <> [] -> (0 <= i < chunkCount st)%Z ->
  let st' := run w' (seekToChunk w i st) in
  currentChunkIndex st' = i /\
  sessionId st' = (sessionId st + 1)%Z /\
  isPaused st' = false /\
  chunks st' = chunks st /\ currentText st' = currentText st /\
  In EvStop (log st') /\
  (isPlaying st || isPaused st = false ->
     isPlaying st' = false /\ utterances (log st') = utterances (log st)) /\
  (isPlaying st || isPaused st = true ->
     forall text,
       overrideFirstChunk st = None -> chunkAt st i = Some text ->
       trim text <> [] ->
       isPlaying st' = true /\
       utterances (log st') = (text, i, sessionId st + 1)%Z :: utterances (log st)).
Proof.
  intros Ht Hi. unfold seekToChunk.
  apply truthy_true in Ht. rewrite Ht.
  rewrite chunkCount_pos_truthy by lia. cbn [negb orb].
  replace (i <? 0)%Z with false by (symmetry; apply Z.ltb_ge; lia).
  replace (chunkCount st <=? i)%Z with false by (symmetry; apply Z.leb_gt; lia).
  cbn [orb]. cbv zeta. unfold awaitStop. cbn [run].
  destruct (isPlaying st || isPaused st) eqn:Was; cbn [run].
  - set (mid := ensurePlaybackPromise _).
    assert (Hm : sessionId mid = (sessionId st + 1)%Z /\ chunks mid = chunks st
                 /\ currentText mid = currentText st
                 /\ overrideFirstChunk mid = overrideFirstChunk st
                 /\ utterances (log mid) = utterances (log st)
                 /\ In EvStop (log mid)).
    { subst mid. unfold ensurePlaybackPromise. progress_cases;
        destruct (playbackPromise _); cbn; repeat split; auto. }
    destruct Hm as (M1 & M2 & M3 & M4 & M5 & M6).
    assert (Hcount : chunkCount mid = chunkCount st).
    { unfold chunkCount. now rewrite M2. }
    replace (sessionId (updateProgress
               (set_sessionId (sessionId (emit EvStop st) + 1)
                  (set_isPaused false
                     (set_currentChunkIndex i (emit EvStop st))))))
      with (sessionId mid).
    2:{ rewrite M1. progress_cases; reflexivity. }
    assert (Hidx : currentChunkIndex (speakChunkChain w' i (sessionId mid) mid) = i
                   /\ isPaused (speakChunkChain w' i (sessionId mid) mid) = false
                   /\ In EvStop (log (speakChunkChain w' i (sessionId mid) mid))).
    { unfold speakChunkChain. rewrite Z.eqb_refl. cbn [negb].
      replace (chunkCount mid <=? i)%Z with false
        by (symmetry; apply Z.leb_gt; lia).
      cbv zeta. progress_cases;
        repeat match goal with
               | |- context [if ?b then _ else _] => destruct b
               end; cbn; repeat split; auto. }
    destruct Hidx as (I1 & I2 & I3).
    repeat split; auto.
    + now rewrite sessionId_speakChunkChain.
    + unfold speakChunkChain. rewrite Z.eqb_refl. cbn [negb].
      replace (chunkCount mid <=? i)%Z with false
        by (symmetry; apply Z.leb_gt; lia).
      cbv zeta. rewrite <- M2. progress_cases;
        repeat match goal with
               | |- context [if ?b then _ else _] => destruct b
               end; reflexivity.
    + unfold speakChunkChain. rewrite Z.eqb_refl. cbn [negb].
      replace (chunkCount mid <=? i)%Z with false
        by (symmetry; apply Z.leb_gt; lia).
      cbv zeta. rewrite <- M3. progress_cases;
        repeat match goal with
               | |- context [if ?b then _ else _] => destruct b
               end; reflexivity.
    + discriminate.
    + discriminate.
    + destruct (speakChunkChain_speaks w' i mid text) as (A1 & A2 & _);
        auto; try lia.
      * congruence.
      * unfold chunkAt in *. now rewrite M2.
    + destruct (speakChunkChain_speaks w' i mid text)
        as (_ & _ & _ & _ & _ & _ & _ & _ & _ & A10); auto; try lia.
      * congruence.
      * unfold chunkAt in *. now rewrite M2.
      * rewrite A10, M1, M5. reflexivity.
  - apply orb_false_iff in Was. destruct Was as [Wp _].
    progress_cases; cbn; repeat split; auto; discriminate.
Qed.

(** The chain never touches the text, the chunks, the session id, the
    preferences or the re-entrancy flag. *)
Lemma speakChunkChain_frame w i sid st :
  SameSession (speakChunkChain w i sid st) st.
Proof.
  unfold speakChunkChain, finishSession, resolvePlayback.
  destruct (negb (sid =? sessionId st)%Z); [constructor; reflexivity|].
  destruct (chunkCount st <=? i)%Z; cbv zeta; progress_cases;
    repeat match goal with
           | |- context [if ?b then _ else _] => destruct b
           end; constructor; reflexivity.
Qed.


(** *** Words *)

Lemma splitWsFrom_pieces s : forall b,
  splitWsFrom b s <> [] /\
  Forall (Forall (fun c => isWhiteSpace c = false)) (splitWsFrom b s).
Proof.
  induction s as [|c r IH]; intro b; simpl.
  - split; [discriminate|]. repeat constructor.
  - destruct (isWhiteSpace c) eqn:E.
    + destruct b; [apply IH|]. split; [discriminate|].
      constructor; [constructor|apply IH].
    + destruct (IH false) as [A B].
      destruct (splitWsFrom false r) as [|p rest]; [congruence|].
      simpl. split; [discriminate|]. inversion B; subst.
      constructor; auto.
Qed.






(** *** [setPreferences] *)

Section Estimate.

Variable wordsSpokenOf : Z -> Q -> Floored.

Lemma estimateOffset_frame w st :
  SameSession (estimateOffset wordsSpokenOf w st) st /\
  isPlaying (estimateOffset wordsSpokenOf w st) = isPlaying st /\
  isPaused (estimateOffset wordsSpokenOf w st) = isPaused st /\
  log (estimateOffset wordsSpokenOf w st) = log st.
Proof.
  unfold estimateOffset.
  repeat match goal with
         | |- context [match ?p with Some _ => _ | None => _ end] => destruct p
         | |- context [if ?b then _ else _] => destruct b
         end; cbn; repeat split; reflexivity.
Qed.


Lemma chunkAt_in_range st k text :
  chunkAt st k = Some text -> (0 <= k < chunkCount st)%Z.
Proof.
  unfold chunkAt, chunkCount. destruct (k <? 0)%Z eqn:E; [discriminate|].
  apply Z.ltb_ge in E. intro H.
  assert (Z.to_nat k < length (chunks st)).
  { apply nth_error_Some. congruence. }
  lia.
Qed.

Lemma setPreferences_active w w' prefs st :
  isPlaying st || isPaused st = true ->
  run w' (setPreferences wordsSpokenOf w prefs st) =
  let st1 := estimateOffset wordsSpokenOf w (set_currentPreferences prefs st) in
  let st2 := emit EvStop (set_sessionId (sessionId st + 1) st1) in
  speakChunkChain w' (currentChunkIndex st2) (sessionId st + 1)
    (ensurePlaybackPromise st2).
Proof.
  intro H. unfold setPreferences. cbv zeta.
  replace (negb (isPlaying (set_currentPreferences prefs st)) &&
           negb (isPaused (set_currentPreferences prefs st))) with false.
  2:{ cbn. apply orb_true_iff in H. destruct H as [-> | ->]; cbn;
      now rewrite ?andb_false_r. }
  unfold awaitStop. cbn [run].
  destruct (estimateOffset_frame w (set_currentPreferences prefs st))
    as ([_ _ S _ _] & _).
  cbn in S. rewrite S. reflexivity.
Qed.

Lemma setPreferences_idle w prefs st :
  isPlaying st || isPaused st = false ->
  setPreferences wordsSpokenOf w prefs st =
  Return (set_currentPreferences prefs st).
Proof.
  intro H. apply orb_false_iff in H. destruct H as [A B].
  unfold setPreferences. cbv zeta. cbn. now rewrite A, B.
Qed.

End Estimate.

(** *** The index invariant of calls run to their end *)

Create HintDb wf.

Lemma wf_of st st' :
  currentChunkIndex st' = currentChunkIndex st ->
  chunks st' = chunks st -> log st' = log st ->
  wellFormed st -> wellFormed st'.
Proof.
  unfold wellFormed, indexInRange, chunkCount. intros -> -> ->. tauto.
Qed.

Lemma wf_set_isPlaying b st : wellFormed st -> wellFormed (set_isPlaying b st).
Proof. now apply wf_of. Qed.
Lemma wf_set_isPaused b st : wellFormed st -> wellFormed (set_isPaused b st).
Proof. now apply wf_of. Qed.
Lemma wf_set_sessionId i st : wellFormed st -> wellFormed (set_sessionId i st).
Proof. now apply wf_of. Qed.
Lemma wf_set_playbackPromise b st :
  wellFormed st -> wellFormed (set_playbackPromise b st).
Proof. now apply wf_of. Qed.
Lemma wf_set_currentPreferences p st :
  wellFormed st -> wellFormed (set_currentPreferences p st).
Proof. now apply wf_of. Qed.
Lemma wf_set_progressCallback b st :
  wellFormed st -> wellFormed (set_progressCallback b st).
Proof. now apply wf_of. Qed.
Lemma wf_set_chunkStart t p st : wellFormed st -> wellFormed (set_chunkStart t p st).
Proof. now apply wf_of. Qed.
Lemma wf_set_overrideFirstChunk o st :
  wellFormed st -> wellFormed (set_overrideFirstChunk o st).
Proof. now apply wf_of. Qed.
Lemma wf_set_isInitiatingPlayback b st :
  wellFormed st -> wellFormed (set_isInitiatingPlayback b st).
Proof. now apply wf_of. Qed.

Lemma wf_emit e st : eventOk e -> wellFormed st -> wellFormed (emit e st).
Proof.
  intros He [Hi Hl]. split; [exact Hi|]. cbn. now constructor.
Qed.

Lemma wf_replacePreferences p st :
  wellFormed st -> wellFormed (replacePreferences p st).
Proof. destruct p; [apply wf_set_currentPreferences|auto]. Qed.

Lemma wf_ensurePlaybackPromise st :
  wellFormed st -> wellFormed (ensurePlaybackPromise st).
Proof.
  unfold ensurePlaybackPromise. destruct (playbackPromise st);
    [auto|apply wf_set_playbackPromise].
Qed.

Lemma wf_resolvePlayback st : wellFormed st -> wellFormed (resolvePlayback st).
Proof.
  unfold resolvePlayback. destruct (playbackPromise st); [|auto].
  intro H. apply wf_emit; [exact I|]. now apply wf_set_playbackPromise.
Qed.

(** The report of [updateProgress] is within bounds when the index is. *)
Lemma wf_updateProgress st : wellFormed st -> wellFormed (updateProgress st).
Proof.
  intro H. unfold updateProgress.
  destruct (progressCallback st && (0 <? chunkCount st)%Z) eqn:E; [|exact H].
  apply andb_true_iff in E. destruct E as [_ E]. apply Z.ltb_lt in E.
  apply wf_emit; [|exact H]. destruct H as [[H0 H1] _].
  assert (Hn : chunks st <> []).
  { intro N. unfold chunkCount in E. rewrite N in E. cbn in E. lia. }
  specialize (H1 Hn). unfold eventOk, progressOk, progressFraction.
  split; [lia|]. unfold Qle. cbn [Qnum Qden].
  rewrite Z2Pos.id by exact E. lia.
Qed.

(** Loading chunks and going back to their first. *)
Lemma wf_load t cs st :
  wellFormed st -> wellFormed (set_currentChunkIndex 0 (set_text t cs st)).
Proof.
  intros [_ Hl]. split; [|exact Hl]. split; cbn; [lia|].
  unfold chunkCount. cbn. destruct cs; [congruence|]. cbn [length]. lia.
Qed.

Lemma wf_set_currentChunkIndex i st :
  (0 <= i)%Z -> (chunks st <> [] -> (i < chunkCount st)%Z) ->
  wellFormed st -> wellFormed (set_currentChunkIndex i st).
Proof. intros H0 H1 [_ Hl]. split; [|exact Hl]. split; cbn; auto. Qed.

Lemma wf_rewind st : wellFormed st -> wellFormed (set_currentChunkIndex 0 st).
Proof.
  intro H. apply wf_set_currentChunkIndex; [lia| |exact H].
  unfold chunkCount. destruct (chunks st); [congruence|]. cbn [length]. lia.
Qed.

#[local] Hint Resolve wf_set_isPlaying wf_set_isPaused wf_set_sessionId
  wf_set_playbackPromise wf_set_currentPreferences wf_set_progressCallback
  wf_set_chunkStart wf_set_overrideFirstChunk wf_set_isInitiatingPlayback
  wf_replacePreferences wf_ensurePlaybackPromise wf_resolvePlayback
  wf_updateProgress wf_load wf_rewind : wf.

Lemma wf_finishSession st : wellFormed st -> wellFormed (finishSession st).
Proof. unfold finishSession. auto 10 with wf. Qed.

Lemma wf_stop st : wellFormed st -> wellFormed (emit EvStop st).
Proof. apply wf_emit. exact I. Qed.

#[local] Hint Resolve wf_finishSession wf_stop : wf.

Lemma wf_speakChunkChain w i sid st :
  (0 <= i)%Z -> wellFormed st -> wellFormed (speakChunkChain w i sid st).
Proof.
  intros Hi H. unfold speakChunkChain.
  destruct (negb (sid =? sessionId st)%Z); [exact H|].
  destruct (chunkCount st <=? i)%Z eqn:E; [auto with wf|].
  apply Z.leb_gt in E. cbv zeta.
  assert (H1 : wellFormed
                 (updateProgress
                    (set_isPaused false
                       (set_isPlaying true (set_currentChunkIndex i st))))).
  { apply wf_updateProgress, wf_set_isPaused, wf_set_isPlaying.
    apply wf_set_currentChunkIndex; auto. }
  repeat match goal with
         | |- context [if ?b then _ else _] => destruct b
         end; auto with wf.
  all: apply wf_emit; [exact Hi|auto with wf].
Qed.

Lemma wf_onDone w i sid st :
  (0 <= i)%Z -> wellFormed st -> wellFormed (onDone w i sid st).
Proof.
  intros Hi H. unfold onDone.
  destruct (negb (sid =? sessionId st)%Z); [exact H|].
  destruct (isPaused st); [exact H|]. cbv zeta.
  destruct (i + 1 <? chunkCount (set_chunkStart None None st))%Z.
  - apply wf_speakChunkChain; [lia|auto with wf].
  - auto with wf.
Qed.

Lemma wf_onStopped sid st : wellFormed st -> wellFormed (onStopped sid st).
Proof.
  intro H. unfold onStopped.
  destruct (negb (sid =? sessionId st)%Z); [exact H|]. cbv zeta.
  destruct (negb _); auto 10 with wf.
Qed.

Lemma wf_onError sid st : wellFormed st -> wellFormed (onError sid st).
Proof.
  intro H. unfold onError.
  destruct (negb (sid =? sessionId st)%Z); [exact H|]. auto 10 with wf.
Qed.

Lemma wf_startChain w w' st :
  wellFormed st -> wellFormed (run w' (startChain w st)).
Proof.
  intro H. unfold startChain. cbn [run].
  apply wf_set_isInitiatingPlayback, wf_speakChunkChain; [lia|auto with wf].
Qed.

Lemma wf_resumeSpeech w w' st :
  wellFormed st -> wellFormed (run w' (resumeSpeech w st)).
Proof.
  intro H. unfold resumeSpeech.
  destruct (isInitiatingPlayback st); [exact H|].
  destruct (negb (truthy (currentText st)) || (chunkCount st =? 0)%Z);
    [exact H|].
  cbv zeta. unfold awaitStop. cbn [run].
  assert (Hk : (0 <= currentChunkIndex (set_isInitiatingPlayback true st))%Z)
    by (cbn; apply H).
  destruct (negb (android w')); cbn [run].
  - destruct (resumeRejects w'); cbn [run].
    + apply wf_set_isInitiatingPlayback, wf_ensurePlaybackPromise.
      apply wf_speakChunkChain; [exact Hk|].
      apply wf_emit; [exact I|auto 10 with wf].
    + apply wf_set_isInitiatingPlayback, wf_ensurePlaybackPromise.
      apply wf_updateProgress. apply wf_emit; [exact I|auto 10 with wf].
  - apply wf_set_isInitiatingPlayback, wf_ensurePlaybackPromise.
    apply wf_speakChunkChain; [exact Hk|auto 10 with wf].
Qed.

Lemma wf_speakText w w' text p st :
  wellFormed st -> wellFormed (run w' (speakText w text p st)).
Proof.
  intro H. unfold speakText.
  destruct (isInitiatingPlayback st); [exact H|]. cbv zeta.
  destruct (isPaused (set_isInitiatingPlayback true st) &&
            eqb (currentText (set_isInitiatingPlayback true st)) text).
  - rewrite resumeSpeech_guarded by reflexivity. cbn [awaitTask run].
    auto with wf.
  - destruct (eqb (currentText (set_isInitiatingPlayback true st)) text &&
              (0 <? chunkCount (set_isInitiatingPlayback true st))%Z).
    + match goal with
      | |- context [if ?b then _ else _] => destruct b
      end; unfold awaitStop; cbn [run]; apply wf_startChain; auto 10 with wf.
    + match goal with
      | |- context [if ?b then _ else _] => destruct b
      end; unfold awaitStop; cbn [run]; apply wf_startChain; auto 10 with wf.
Qed.

Lemma wf_pauseSpeech w st : wellFormed st -> wellFormed (pauseSpeech w st).
Proof.
  intro H. unfold pauseSpeech. apply wf_updateProgress.
  destruct (negb (android w)); [destruct (pauseThrows w)|];
    repeat (apply wf_emit; [exact I|]); auto with wf.
Qed.

Lemma wf_restartSpeech w w' text p st :
  wellFormed st -> wellFormed (run w' (restartSpeech w text p st)).
Proof.
  intro H. unfold restartSpeech.
  destruct (isInitiatingPlayback st); [exact H|]. cbv zeta.
  unfold awaitStop. cbn [run]. apply wf_startChain. auto 10 with wf.
Qed.

Lemma wf_seekToChunk w w' i st :
  wellFormed st -> wellFormed (run w' (seekToChunk w i st)).
Proof.
  intro H. unfold seekToChunk.
  destruct (negb (truthy (currentText st)) || (chunkCount st =? 0)%Z);
    [exact H|].
  destruct ((i <? 0)%Z || (chunkCount st <=? i)%Z) eqn:E; [exact H|].
  apply orb_false_iff in E. destruct E as [E1 E2].
  apply Z.ltb_ge in E1. apply Z.leb_gt in E2.
  cbv zeta. unfold awaitStop. cbn [run].
  assert (Hs : wellFormed
                 (updateProgress
                    (set_sessionId (sessionId (emit EvStop st) + 1)
                       (set_isPaused false
                          (set_currentChunkIndex i (emit EvStop st)))))).
  { apply wf_updateProgress, wf_set_sessionId, wf_set_isPaused.
    apply wf_set_currentChunkIndex; auto with wf. }
  destruct (isPlaying st || isPaused st); cbn [run]; [|exact Hs].
  apply wf_speakChunkChain; auto with wf.
Qed.

Section Estimate.

Variable wordsSpokenOf : Z -> Q -> Floored.

Lemma wf_estimateOffset w st :
  wellFormed st -> wellFormed (estimateOffset wordsSpokenOf w st).
Proof.
  intro H. unfold estimateOffset.
  destruct (chunkStartTime st) as [t0|]; [|exact H].
  destruct (chunkStartPrefs st) as [sp|]; [|exact H].
  destruct (negb (t0 =? 0)%Z && optTruthy (chunkAt st (currentChunkIndex st)))
    eqn:E; [|exact H].
  apply andb_true_iff in E. destruct E as [_ E].
  destruct (chunkAt st (currentChunkIndex st)) as [text|] eqn:C;
    [|discriminate].
  apply chunkAt_in_range in C. cbv zeta.
  repeat match goal with
         | |- context [if ?b then _ else _] => destruct b
         end; auto with wf.
  apply wf_set_currentChunkIndex; [lia|lia|exact H].
Qed.

Lemma wf_setPreferences w w' p st :
  wellFormed st -> wellFormed (run w' (setPreferences wordsSpokenOf w p st)).
Proof.
  intro H. unfold setPreferences. cbv zeta.
  destruct (negb _ && negb _); [cbn [run]; auto with wf|].
  unfold awaitStop. cbn [run].
  assert (H1 : wellFormed
                 (estimateOffset wordsSpokenOf w (set_currentPreferences p st)))
    by (apply wf_estimateOffset; auto with wf).
  apply wf_speakChunkChain; [|auto 10 with wf].
  cbn. apply H1.
Qed.

(** A callback that exists was registered with an utterance of the log. *)
Lemma registered_index i sid st :
  wellFormed st -> registered i sid st = true -> (0 <= i)%Z.
Proof.
  intros [_ Hl] H. unfold registered in H.
  apply existsb_exists in H. destruct H as (e & Hin & He).
  rewrite Forall_forall in Hl. specialize (Hl e Hin).
  destruct e; try discriminate. cbn in He, Hl.
  apply andb_true_iff in He. destruct He as [He _].
  apply Z.eqb_eq in He. lia.
Qed.

Lemma exec_wellFormed w w' c st :
  wellFormed st -> enabled c st = true ->
  wellFormed (exec wordsSpokenOf w w' c st).
Proof.
  intros H He. destruct c; cbn [exec enabled] in *.
  - now apply wf_speakText.
  - now apply wf_pauseSpeech.
  - now apply wf_resumeSpeech.
  - now apply wf_restartSpeech.
  - now apply wf_seekToChunk.
  - now apply wf_setPreferences.
  - auto with wf.
  - apply wf_onDone; [|exact H]. eapply registered_index; eauto.
  - now apply wf_onStopped.
  - now apply wf_onError.
Qed.

Lemma initial_wellFormed : wellFormed initialState.
Proof. split; [split; cbn; [lia|congruence]|constructor]. Qed.

Lemma reachable_wellFormed st :
  Reachable wordsSpokenOf st -> wellFormed st.
Proof.
  induction 1 as [|st w w' c _ IH He];
    [exact initial_wellFormed|now apply exec_wellFormed].
Qed.

End Estimate.

Example story_chunks :
  map (@length _) (chunks playing1) = [501; 501; 501] /\
  currentChunkIndex playing1 = 1%Z /\ isPlaying playing1 = true /\
  sessionId playing1 = 1%Z /\
  map (fun u => snd (fst u)) (utterances (log playing1)) = [1; 0]%Z.
Proof. vm_compute. repeat split; reflexivity. Qed.

(** C1, as the code has it.  The session [paused1] is paused at chunk 1
    of 3 with the text [story] loaded.  [speakText(story)] sets the
    re-entrancy flag and calls [resumeSpeech], which finds the flag set
    and returns at once: the chunks and the index are kept, but the
    session stays paused, nothing is spoken, and the state is what it
    was. *)
Theorem speakText_on_paused_session_changes_nothing :
  isPaused paused1 = true /\
  currentText paused1 = story /\
  currentChunkIndex paused1 = 1%Z /\
  isInitiatingPlayback paused1 = false /\
  let st' := run (androidAt 8000) (speakText (androidAt 8000) story None paused1) in
  st' = paused1 /\ isPlaying st' = false /\ isPaused st' = true /\
  utterances (log st') = utterances (log paused1).
Proof.
  assert (E : run (androidAt 8000)
                (speakText (androidAt 8000) story None paused1) = paused1).
  { apply speakText_paused_same_text; vm_compute; reflexivity. }
  cbv zeta. rewrite E. vm_compute. repeat split; reflexivity.
Qed.

(** C2 fails on a sentence that is hard-split: for a word of 601 code
    units followed by a short sentence, the chunks joined with spaces, the
    chunks put end to end, and the words of the chunks all differ from
    the normalized text and its words. *)
Lemma round_trip_fails_on_hard_split :
  normalize (join [SPACE] (buildChunks longWord)) <> normalize longWord /\
  normalize (concat (buildChunks longWord)) <> normalize longWord /\
  flat_map words (buildChunks longWord) <> words longWord.
Proof.
  repeat split; intro H; apply (f_equal (@length _)) in H;
    vm_compute in H; discriminate.
Qed.

(** C2, amended.  For every text the chunks put end to end hold the code
    units of the text that are not white space, in order, none lost and
    none repeated; and when no sentence of the normalized text is longer
    than [MAX_CHUNK_LEN], the chunks joined with single spaces are the
    normalized text. *)
Theorem chunks_round_trip text :
  ink (concat (buildChunks text)) = ink text /\
  (Forall (fun s => length s <= MAX_CHUNK_LEN)
          (splitSentences (normalize text)) ->
   join [SPACE] (buildChunks text) = normalize text).
Proof.
  split; [apply buildChunks_ink|]. intro H. now apply buildChunks_join.
Qed.

Lemma chunks_round_trip_witness :
  Forall (fun s => length s <= MAX_CHUNK_LEN)
         (splitSentences (normalize story)) /\
  join [SPACE] (buildChunks story) = normalize story.
Proof.
  assert (H : Forall (fun s => length s <= MAX_CHUNK_LEN)
                (splitSentences (normalize story))).
  { apply Forall_forall. intros s Hs.
    assert (B : forallb (fun s => length s <=? MAX_CHUNK_LEN)
                  (splitSentences (normalize story)) = true)
      by (vm_compute; reflexivity).
    rewrite forallb_forall in B. apply Nat.leb_le. now apply B. }
  split; [exact H|]. apply (proj2 (chunks_round_trip story) H).
Defined.

(** C6.  The limit is 600; every chunk of every text is at most that
    long; and a text whose normal form is one sentence of 1500 code units
    with no [.], [!] or [?] is cut into three slices, of 600, 600 and 300
    code units. *)
Theorem chunks_within_limit :
  MAX_CHUNK_LEN = 600 /\
  (forall text,
     Forall (fun c => length c <= MAX_CHUNK_LEN) (buildChunks text)) /\
  (forall text,
     length (normalize text) = 1500 ->
     Forall (fun c => isTerminator c = false) (normalize text) ->
     buildChunks text =
       [slice 0 600 (normalize text); slice 600 1200 (normalize text);
        slice 1200 1800 (normalize text)] /\
     map (@length _) (buildChunks text) = [600; 600; 300]).
Proof.
  split; [reflexivity|]. split.
  - intro text. eapply Forall_impl; [|apply buildChunks_bounded].
    cbv beta. tauto.
  - intros text Hlen Hterm.
    assert (E : buildChunks text =
                [slice 0 600 (normalize text); slice 600 1200 (normalize text);
                 slice 1200 1800 (normalize text)]).
    { rewrite buildChunks_single_long; [|rewrite Hlen; apply Nat.ltb_lt; reflexivity|exact Hterm].
      apply hardSlices_three; rewrite Hlen;
        [apply Nat.ltb_lt|apply Nat.leb_le]; reflexivity. }
    split; [exact E|]. rewrite E. cbn [map]. unfold slice.
    rewrite !length_firstn, !length_skipn, Hlen. reflexivity.
Qed.

Lemma chunks_within_limit_witness :
  length (normalize (repeat 97%N 1500)) = 1500 /\
  Forall (fun c => isTerminator c = false) (normalize (repeat 97%N 1500)) /\
  map (@length _) (buildChunks (repeat 97%N 1500)) = [600; 600; 300].
Proof.
  assert (L : length (normalize (repeat 97%N 1500)) = 1500)
    by (vm_compute; reflexivity).
  assert (T : Forall (fun c => isTerminator c = false)
                (normalize (repeat 97%N 1500))).
  { apply Forall_forall. intros c Hc.
    assert (B : forallb (fun c => negb (isTerminator c))
                  (normalize (repeat 97%N 1500)) = true)
      by (vm_compute; reflexivity).
    rewrite forallb_forall in B. apply negb_true_iff. now apply B. }
  split; [exact L|]. split; [exact T|].
  destruct chunks_within_limit as (_ & _ & H).
  apply (H (repeat 97%N 1500) L T).
Defined.

(** C9, as the code has it.  The slices of an over-long sentence are
    pushed without [trim]: for 599 letters, a space and 10 letters, the
    first chunk is the 599 letters and the space, which ends in white
    space. *)
Theorem hard_slice_keeps_edge_space :
  buildChunks spaceAtCut = [repeat 97%N 599 ++ [SPACE]; repeat 98%N 10] /\
  trim (repeat 97%N 599 ++ [SPACE]) <> repeat 97%N 599 ++ [SPACE].
Proof.
  split; [vm_compute; reflexivity|].
  intro H. apply (f_equal (@length _)) in H. vm_compute in H. discriminate.
Qed.

(** When the engine reports the stop of a paused session, only the
    [isPlaying] flag and the chunk-start snapshot change. *)
Lemma onStopped_paused st :
  isPaused st = true ->
  onStopped (sessionId st) st =
  set_chunkStart None None (set_isPlaying false st).
Proof.
  intro H. unfold onStopped. rewrite Z.eqb_refl. cbn [negb]. cbv zeta.
  replace (isPaused (set_chunkStart None None (set_isPlaying false st)))
    with true by (symmetry; exact H).
  reflexivity.
Qed.

(** At most one utterance per call of the chain. *)
Lemma speakChunkChain_one_utterance w i sid st :
  length (utterances (log (speakChunkChain w i sid st)))
  <= S (length (utterances (log st))).
Proof.
  unfold speakChunkChain, finishSession, resolvePlayback.
  destruct (negb (sid =? sessionId st)%Z); [lia|].
  destruct (chunkCount st <=? i)%Z; cbv zeta; progress_cases;
    repeat match goal with
           | |- context [if ?b then _ else _] => destruct b
           end; cbn; lia.
Qed.

(** Resuming from a state that agrees with [st] on the session and on
    the position. *)
Lemma resumeSpeech_from w1 w2 st mid k text :
  isInitiatingPlayback mid = false ->
  currentText mid <> [] ->
  chunks mid = chunks st ->
  sessionId mid = sessionId st ->
  currentChunkIndex mid = k ->
  overrideFirstChunk mid = None ->
  utterances (log mid) = utterances (log st) ->
  (0 <= k < chunkCount st)%Z ->
  chunkAt st k = Some text ->
  trim text <> [] ->
  let st' := run w2 (resumeSpeech w1 mid) in
  currentChunkIndex st' = k /\
  isPlaying st' = true /\ isPaused st' = false /\
  sessionId st' = sessionId st /\ chunks st' = chunks st /\
  (if android w2 || resumeRejects w2
   then utterances (log st') = (text, k, sessionId st) :: utterances (log st)
   else utterances (log st') = utterances (log st) /\ In EvResume (log st')).
Proof.
  intros Hf Ht Hch Hs Hi Ho Hu Hk Hc Hb.
  assert (Hk' : (0 <= k < chunkCount mid)%Z)
    by (unfold chunkCount in *; now rewrite Hch).
  assert (Hc' : chunkAt mid k = Some text)
    by (unfold chunkAt in *; now rewrite Hch).
  destruct (resumeSpeech_effect w1 w2 mid k text Hf Ht Hk' Hi Ho Hc' Hb)
    as (R1 & R2 & R3 & R4 & R5 & _ & R7).
  cbv zeta. rewrite <- Hs, <- Hch, <- Hu. auto 10.
Qed.

(** C3, amended.  For a session at chunk [k] whose chunk is [text],
    [pauseSpeech] pauses and leaves [currentChunkIndex] at [k]; then
    [resumeSpeech], whether or not the engine has reported the stop in
    between, leaves the index at [k] and the session id as it was and
    makes the session play.  On Android, or when the engine's [resume]
    rejects, it restarts the chain at [k]: the one new utterance is chunk
    [k].  Otherwise it calls the engine's [resume] and speaks nothing
    itself. *)
Theorem pause_resume_keeps_position w0 w1 w2 st k text :
  isInitiatingPlayback st = false ->
  currentText st <> [] ->
  (0 <= k < chunkCount st)%Z ->
  currentChunkIndex st = k ->
  overrideFirstChunk st = None ->
  chunkAt st k = Some text ->
  trim text <> [] ->
  let paused := pauseSpeech w0 st in
  isPaused paused = true /\ isPlaying paused = false /\
  currentChunkIndex paused = k /\
  forall mid,
    mid = paused \/ mid = onStopped (sessionId st) paused ->
    let st' := run w2 (resumeSpeech w1 mid) in
    currentChunkIndex st' = k /\
    isPlaying st' = true /\ isPaused st' = false /\
    sessionId st' = sessionId st /\ chunks st' = chunks st /\
    (if android w2 || resumeRejects w2
     then utterances (log st') = (text, k, sessionId st) :: utterances (log st)
     else utterances (log st') = utterances (log st) /\ In EvResume (log st')).
Proof.
  intros Hf Ht Hk Hi Hov Hc Hb. cbv zeta.
  destruct (pauseSpeech_effect w0 st)
    as (P1 & P2 & P3 & [Q1 Q2 Q3 Q4 Q5] & P5 & P6).
  split; [exact P1|]. split; [exact P2|]. split; [congruence|].
  intros mid [->| ->].
  - apply (resumeSpeech_from w1 w2 st); congruence.
  - replace (onStopped (sessionId st) (pauseSpeech w0 st))
      with (set_chunkStart None None (set_isPlaying false (pauseSpeech w0 st)))
      by (rewrite <- Q3; symmetry; now apply onStopped_paused).
    apply (resumeSpeech_from w1 w2 st); cbn; congruence.
Qed.

Lemma pause_resume_keeps_position_witness :
  let st' := run (androidAt 9000)
               (resumeSpeech (androidAt 9000) (pauseSpeech (androidAt 6000) playing1)) in
  isInitiatingPlayback playing1 = false /\
  currentText playing1 <> [] /\
  (0 <= 1 < chunkCount playing1)%Z /\
  currentChunkIndex playing1 = 1%Z /\
  overrideFirstChunk playing1 = None /\
  chunkAt playing1 1 = Some (repeat 98%N 500 ++ str ".") /\
  trim (repeat 98%N 500 ++ str ".") <> [] /\
  currentChunkIndex st' = 1%Z /\
  utterances (log st') =
    (repeat 98%N 500 ++ str ".", 1%Z, 1%Z) :: utterances (log playing1).
Proof.
  assert (H1 : isInitiatingPlayback playing1 = false) by (vm_compute; reflexivity).
  assert (H2 : currentText playing1 <> []) by (vm_compute; discriminate).
  assert (H3 : (0 <= 1 < chunkCount playing1)%Z) by (vm_compute; split; congruence).
  assert (H4 : currentChunkIndex playing1 = 1%Z) by (vm_compute; reflexivity).
  assert (H5 : overrideFirstChunk playing1 = None) by (vm_compute; reflexivity).
  assert (H6 : chunkAt playing1 1 = Some (repeat 98%N 500 ++ str "."))
    by (vm_compute; reflexivity).
  assert (H7 : trim (repeat 98%N 500 ++ str ".") <> [])
    by (vm_compute; discriminate).
  cbv zeta.
  split; [exact H1|]. split; [exact H2|]. split; [exact H3|].
  split; [exact H4|]. split; [exact H5|]. split; [exact H6|].
  split; [exact H7|].
  destruct (pause_resume_keeps_position (androidAt 6000) (androidAt 9000)
              (androidAt 9000) playing1 1 (repeat 98%N 500 ++ str ".")
              H1 H2 H3 H4 H5 H6 H7) as (_ & _ & _ & R).
  destruct (R _ (or_introl eq_refl)) as (A & _ & _ & _ & _ & B).
  split; [exact A|exact B].
Defined.

(** C3 fails off Android when the engine's [resume] succeeds: from chunk
    1 of 3, pause then resume keeps the index at 1 but hands no utterance
    to the engine, so the chain is not restarted. *)
Lemma engine_resume_starts_no_chain :
  let st' := run (iosAt 9000)
               (resumeSpeech (iosAt 9000) (pauseSpeech (iosAt 6000) playing1)) in
  isPlaying playing1 = true /\ currentChunkIndex playing1 = 1%Z /\
  chunkCount playing1 = 3%Z /\
  currentChunkIndex st' = 1%Z /\
  utterances (log st') = utterances (log playing1) /\
  ~ (exists text,
        utterances (log st') = (text, 1%Z, 1%Z) :: utterances (log playing1)).
Proof.
  cbv zeta.
  assert (E : utterances (log (run (iosAt 9000)
                 (resumeSpeech (iosAt 9000) (pauseSpeech (iosAt 6000) playing1))))
              = utterances (log playing1)) by (vm_compute; reflexivity).
  repeat split; try (vm_compute; reflexivity); try exact E.
  intros [text H]. rewrite E in H. apply (f_equal (@length _)) in H.
  cbn [length] in H. lia.
Qed.

(** C4.  A callback, or a call of the chain, whose session id is not the
    current one leaves the state as it is.  In particular, once
    [restartSpeech] has been entered, during its [await] as well as after
    it has finished, the [onDone] of the session it replaced changes
    nothing. *)
Theorem stale_callback_ignored :
  (forall w startIndex sid st,
     sid <> sessionId st ->
     onDone w startIndex sid st = st /\
     onStopped sid st = st /\
     onError sid st = st /\
     speakChunkChain w startIndex sid st = st) /\
  (forall w w' w'' text prefs startIndex st,
     isInitiatingPlayback st = false ->
     let mid := suspendedAt (restartSpeech w text prefs st) in
     let st' := run w' (restartSpeech w text prefs st) in
     sessionId st' = (sessionId st + 1)%Z /\
     onDone w'' startIndex (sessionId st) mid = mid /\
     onDone w'' startIndex (sessionId st) st' = st').
Proof.
  split.
  - intros w i sid st H. repeat split.
    + now apply onDone_stale.
    + now apply onStopped_stale.
    + now apply onError_stale.
    + now apply speakChunkChain_stale.
  - intros w w' w'' text prefs i st Hf. cbv zeta.
    destruct (restartSpeech_bumps w w' text prefs st Hf) as [A B].
    split; [exact B|]. split; apply onDone_stale; lia.
Qed.

Lemma stale_callback_ignored_witness :
  let st2 := run (androidAt 7000)
               (restartSpeech (androidAt 7000) story None playing0) in
  1%Z <> sessionId st2 /\
  onDone (androidAt 8000) 0 1 st2 = st2 /\
  currentChunkIndex (onDone (androidAt 8000) 0 1 st2) = 0%Z.
Proof.
  cbv zeta.
  assert (H : 1%Z <> sessionId (run (androidAt 7000)
                       (restartSpeech (androidAt 7000) story None playing0)))
    by (vm_compute; discriminate).
  split; [exact H|].
  destruct (proj1 stale_callback_ignored (androidAt 8000) 0%Z 1%Z _ H)
    as (A & _).
  split; [exact A|]. rewrite A. vm_compute. reflexivity.
Defined.


(** C8.  Entered while the re-entrancy flag is set, [speakText],
    [resumeSpeech] and [restartSpeech] finish at once with the state, log
    included, unchanged.  The flag is set while [restartSpeech] is
    suspended at its [await], and resuming it hands at most one utterance
    to the engine. *)
Theorem reentrant_call_ignored :
  (forall w text prefs st,
     isInitiatingPlayback st = true ->
     speakText w text prefs st = Return st /\
     resumeSpeech w st = Return st /\
     restartSpeech w text prefs st = Return st) /\
  (forall w w' text prefs st,
     isInitiatingPlayback st = false ->
     exists mid k,
       restartSpeech w text prefs st = Await mid k /\
       isInitiatingPlayback mid = true /\
       length (utterances (log (run w' (k w' mid))))
       <= S (length (utterances (log st)))).
Proof.
  split.
  - intros w text prefs st H. repeat split.
    + now apply speakText_guarded.
    + now apply resumeSpeech_guarded.
    + now apply restartSpeech_guarded.
  - intros w w' text prefs st H. unfold restartSpeech. rewrite H. cbv zeta.
    unfold awaitStop. eexists _, _. split; [reflexivity|].
    split; [destruct prefs; reflexivity|].
    unfold startChain. cbn [run].
    etransitivity; [apply speakChunkChain_one_utterance|].
    unfold ensurePlaybackPromise, replacePreferences.
    destruct prefs; cbn; destruct (playbackPromise st); cbn; lia.
Qed.

Lemma reentrant_call_ignored_witness :
  isInitiatingPlayback restarting = true /\
  speakText (androidAt 7001) story None restarting = Return restarting /\
  resumeSpeech (androidAt 7001) restarting = Return restarting /\
  restartSpeech (androidAt 7001) story None restarting = Return restarting.
Proof.
  assert (H : isInitiatingPlayback restarting = true) by (vm_compute; reflexivity).
  split; [exact H|].
  exact (proj1 reentrant_call_ignored (androidAt 7001) story None restarting H).
Defined.

(** X22.  As long as each call is run to its end before the next call or
    callback starts, so that nothing touches the controller while a call
    is suspended at an [await], every call keeps the state well formed;
    so in every state reached that way [currentChunkIndex] is not
    negative, it is below the number of chunks when there are chunks, and
    every value handed to the progress callback has
    [1 <= currentChunk <= totalChunks] and a progress between 0 and 1. *)
Theorem index_invariant (wordsSpokenOf : Z -> Q -> Floored) :
  (forall w w' c st,
     wellFormed st -> enabled c st = true ->
     wellFormed (exec wordsSpokenOf w w' c st)) /\
  (forall st,
     Reachable wordsSpokenOf st ->
     (0 <= currentChunkIndex st)%Z /\
     (chunks st <> [] -> (currentChunkIndex st < chunkCount st)%Z) /\
     (forall c t p,
        In (EvProgress c t p) (log st) ->
        (1 <= c <= t)%Z /\ (0 <= p)%Q /\ (p <= 1)%Q)).
Proof.
  split; [apply exec_wellFormed|].
  intros st H. apply reachable_wellFormed in H.
  destruct H as [[H0 H1] Hl]. split; [exact H0|]. split; [exact H1|].
  intros c t p Hin. rewrite Forall_forall in Hl. exact (Hl _ Hin).
Qed.

Lemma playing1_reachable : Reachable wordsSpoken playing1.
Proof.
  unfold playing1, playing0, listening.
  repeat (apply reachCall; [|vm_compute; reflexivity]).
  apply reachInitial.
Defined.

Lemma index_invariant_witness :
  Reachable wordsSpoken playing1 /\
  (0 <= currentChunkIndex playing1)%Z /\
  (chunks playing1 <> [] -> (currentChunkIndex playing1 < chunkCount playing1)%Z) /\
  (forall c t p,
     In (EvProgress c t p) (log playing1) ->
     (1 <= c <= t)%Z /\ (0 <= p)%Q /\ (p <= 1)%Q).
Proof.
  split; [exact playing1_reachable|].
  exact (proj2 (index_invariant wordsSpoken) playing1 playing1_reachable).
Defined.

Lemma finished_reachable : Reachable wordsSpoken finished.
Proof.
  unfold finished, playing1, playing0, listening.
  repeat (apply reachCall; [|vm_compute; reflexivity]).
  apply reachInitial.
Qed.

(** C10 fails when a call is resumed after another call has run.
    [seekToChunk] checks its index before [await Speech.stop()] and
    stores it after.  On the story heard to its end (idle, three chunks),
    [seekToChunk(2)] is accepted and suspended; [speakText("Hi.")], called
    before it is resumed, loads a text of one chunk; the resumed
    [seekToChunk] then sets [currentChunkIndex] to 2 with one chunk
    loaded, and hands the progress callback chunk 3 of 1 with progress
    3. *)
Theorem stale_seek_breaks_index_invariant :
  let w := androidAt 9500 in
  let seek := seekToChunk w 2 finished in
  let between := run w (speakText w hi None (suspendedAt seek)) in
  let st' := run w (resume w seek between) in
  (Reachable wordsSpoken finished /\ wellFormed finished /\
   isPlaying finished || isPaused finished = false /\
   isInitiatingPlayback finished = false /\
   chunkCount finished = 3%Z) /\
  (exists k, seek = Await (emit EvStop finished) k) /\
  (wellFormed between /\ chunks between = [hi] /\
   currentChunkIndex between = 0%Z) /\
  chunks st' = [hi] /\ currentChunkIndex st' = 2%Z /\
  ~ indexInRange st' /\
  hd_error (log st') = Some (EvProgress 3 1 (3 # 1)) /\
  ~ progressOk 3 1 (3 # 1).
Proof.
  cbv zeta.
  assert (R : Reachable wordsSpoken finished) by exact finished_reachable.
  assert (W : wellFormed finished)
    by (apply (reachable_wellFormed wordsSpoken); exact R).
  assert (E : exists k, seekToChunk (androidAt 9500) 2 finished
                        = Await (emit EvStop finished) k).
  { unfold seekToChunk.
    assert (G1 : negb (truthy (currentText finished))
                 || (chunkCount finished =? 0)%Z = false)
      by (vm_compute; reflexivity).
    assert (G2 : (2 <? 0)%Z || (chunkCount finished <=? 2)%Z = false)
      by (vm_compute; reflexivity).
    rewrite G1, G2. cbv zeta. unfold awaitStop. eexists. reflexivity. }
  split; [|split; [exact E|split; [|split; [|split; [|split; [|split]]]]]].
  - split; [exact R|]. split; [exact W|].
    repeat split; vm_compute; reflexivity.
  - split; [|split; vm_compute; reflexivity].
    destruct E as [k ->]. cbn [suspendedAt].
    apply wf_speakText, wf_stop, W.
  - vm_compute. reflexivity.
  - vm_compute. reflexivity.
  - intros [_ H].
    assert (C : chunkCount
                  (run (androidAt 9500)
                     (resume (androidAt 9500)
                        (seekToChunk (androidAt 9500) 2 finished)
                        (run (androidAt 9500)
                           (speakText (androidAt 9500) hi None
                              (suspendedAt
                                 (seekToChunk (androidAt 9500) 2 finished))))))
                = 1%Z) by (vm_compute; reflexivity).
    assert (I : currentChunkIndex
                  (run (androidAt 9500)
                     (resume (androidAt 9500)
                        (seekToChunk (androidAt 9500) 2 finished)
                        (run (androidAt 9500)
                           (speakText (androidAt 9500) hi None
                              (suspendedAt
                                 (seekToChunk (androidAt 9500) 2 finished))))))
                = 2%Z) by (vm_compute; reflexivity).
    rewrite C, I in H.
    assert (2 < 1)%Z; [|lia]. apply H. vm_compute. discriminate.
  - vm_compute. reflexivity.
  - unfold progressOk. intros [[_ H] _]. lia.
Qed.

(* ===================================================================== *)
(** * Further properties *)
(* ===================================================================== *)

(* ===================================================================== *)
(** ** More on the chunker *)
(* ===================================================================== *)

Lemma ink_nil_blank s : ink s = [] -> Forall (fun c => isWhiteSpace c = true) s.
Proof.
  induction s as [|c r IH]; simpl; [constructor|].
  destruct (isWhiteSpace c) eqn:E; simpl; [|discriminate].
  intro H. constructor; auto.
Qed.

Lemma blank_ink_nil s : Forall (fun c => isWhiteSpace c = true) s -> ink s = [].
Proof. induction 1 as [|c r Hc _ IH]; simpl; [reflexivity|]. now rewrite Hc. Qed.

Lemma ink_trim_nonnil s : ink s <> [] -> trim s <> [].
Proof. intros H E. apply H. rewrite <- ink_trim, E. reflexivity. Qed.

Lemma tidy_ink s : tidy s = true -> ink s <> [].
Proof.
  intro H. apply tidy_inv in H. destruct H as (A & B & _).
  destruct s as [|c r]; [congruence|]. simpl in B. simpl. rewrite B. discriminate.
Qed.

(** *** Sparse strings and their pieces *)

Lemma startsWs_head_piece p r :
  startsWs r = false ->
  startsWs (hd [] (splitSentencesFrom p false r)) = false.
Proof.
  destruct r as [|d r']; [reflexivity|]. simpl. intro E. rewrite E.
  pose proof (splitSentencesFrom_nonnil (isTerminator d) false r') as N.
  destruct (splitSentencesFrom (isTerminator d) false r'); [congruence|].
  simpl. exact E.
Qed.

Lemma sparse_cons c h :
  sparse (c :: h) =
  (if isWhiteSpace c then (c =? SPACE)%N && negb (startsWs h) else true)
  && sparse h.
Proof. reflexivity. Qed.

Lemma splitSentencesFrom_sparse s : forall p,
  sparse s = true ->
  Forall (fun x => sparse x = true) (splitSentencesFrom p false s).
Proof.
  induction s as [|c r IH]; intros p HS; [repeat constructor|].
  assert (HSr : sparse r = true) by (eapply sparse_tail; eauto).
  rewrite sparse_cons in HS. apply andb_true_iff in HS. destruct HS as [HS _].
  simpl. destruct (isWhiteSpace c) eqn:E.
  - apply andb_true_iff in HS. destruct HS as [Hc Hr].
    apply negb_true_iff in Hr. destruct p.
    + rewrite (splitSentencesFrom_restart false true r Hr).
      constructor; [reflexivity|now apply IH].
    + pose proof (IH false HSr) as F.
      pose proof (startsWs_head_piece false r Hr) as Hh.
      destruct (splitSentencesFrom false false r) as [|h t];
        [repeat constructor; simpl; now rewrite E, Hc|].
      inversion F; subst. simpl. constructor; [|assumption].
      rewrite sparse_cons, E, Hc. simpl in Hh. rewrite Hh. assumption.
  - pose proof (IH (isTerminator c) HSr) as F.
    destruct (splitSentencesFrom (isTerminator c) false r) as [|h t];
      [repeat constructor; simpl; now rewrite E|].
    inversion F; subst. simpl. constructor; [|assumption].
    rewrite sparse_cons, E. assumption.
Qed.

Lemma sentences_sparse text :
  Forall (fun s => sparse s = true) (splitSentences (normalize text)).
Proof.
  apply splitSentencesFrom_sparse. apply normalize_shape.
Qed.

Lemma sparse_skipn i : forall s, sparse s = true -> sparse (skipn i s) = true.
Proof.
  induction i as [|i IH]; intros s H; [exact H|].
  destruct s as [|c r]; [reflexivity|]. simpl. apply IH.
  eapply sparse_tail; eauto.
Qed.

Lemma endsWs_skipn i : forall s,
  i < length s -> endsWs (skipn i s) = endsWs s.
Proof.
  induction i as [|i IH]; intros s H; [reflexivity|].
  destruct s as [|c r]; [simpl in H; lia|]. simpl in H.
  cbn [skipn]. rewrite IH by lia. symmetry. apply endsWs_cons.
  intro E. subst. simpl in H. lia.
Qed.

(** Two code units of a sparse string that does not end in white space
    are never both white space. *)
Lemma sparse_window_ink t n :
  sparse t = true -> endsWs t = false -> t <> [] -> 2 <= n ->
  ink (firstn n t) <> [].
Proof.
  intros HS HE Hne Hn.
  destruct n as [|[|n]]; try lia.
  destruct t as [|c [|d r]]; [congruence| |].
  - simpl in HE. simpl. rewrite HE. discriminate.
  - rewrite sparse_cons in HS. cbn [firstn ink filter].
    destruct (isWhiteSpace c) eqn:E; cbn [negb]; [|discriminate].
    apply andb_true_iff in HS. destruct HS as [HS _].
    apply andb_true_iff in HS. destruct HS as [_ HS].
    apply negb_true_iff in HS. simpl in HS. rewrite HS. discriminate.
Qed.

Lemma MAX_CHUNK_LEN_two : 2 <= MAX_CHUNK_LEN.
Proof. apply Nat.leb_le. reflexivity. Qed.

Lemma sliceLoop_ink s : forall fuel i,
  sparse s = true -> endsWs s = false ->
  Forall (fun c => ink c <> []) (sliceLoop fuel i s).
Proof.
  induction fuel as [|f IH]; intros i HS HE; simpl; [constructor|].
  destruct (i <? length s) eqn:E; [|constructor].
  apply Nat.ltb_lt in E. constructor; [|now apply IH].
  unfold slice. apply sparse_window_ink.
  - now apply sparse_skipn.
  - now rewrite endsWs_skipn.
  - intro N. apply (f_equal (@length _)) in N.
    rewrite length_skipn in N. cbn [length] in N. lia.
  - pose proof MAX_CHUNK_LEN_two. lia.
Qed.

Lemma chunkStep_ink_nonnil acc s :
  loopOk acc -> Forall (fun c => ink c <> []) (fst acc) ->
  tidy s = true -> sparse s = true ->
  Forall (fun c => ink c <> []) (fst (chunkStep acc s)).
Proof.
  destruct acc as [out buf]. unfold loopOk. cbn [fst snd].
  intros (_ & Hb & _) Ho Hs HS. unfold chunkStep.
  assert (Hout1 : Forall (fun c => ink c <> [])
                    (if truthy buf then out ++ [trim buf] else out)).
  { destruct (truthy buf) eqn:T; [|exact Ho].
    apply Forall_app. split; [exact Ho|]. constructor; [|constructor].
    destruct Hb as [->|Hb]; [discriminate|].
    rewrite ink_trim. now apply tidy_ink. }
  destruct (MAX_CHUNK_LEN <? length (trim (buf ++ SPACE :: s)));
    [|exact Ho].
  destruct (MAX_CHUNK_LEN <? length s); cbn [fst]; [|exact Hout1].
  apply Forall_app. split; [exact Hout1|].
  apply sliceLoop_ink; [exact HS|]. apply tidy_inv in Hs. tauto.
Qed.

Lemma chunkLoop_ink_nonnil sentences : forall acc,
  loopOk acc -> Forall (fun c => ink c <> []) (fst acc) ->
  Forall (fun s => tidy s = true) sentences ->
  Forall (fun s => sparse s = true) sentences ->
  Forall (fun c => ink c <> []) (fst (fold_left chunkStep sentences acc)).
Proof.
  induction sentences as [|s rest IH]; intros acc Ha Hi Ht Hs; simpl;
    [exact Hi|].
  inversion Ht; subst. inversion Hs; subst.
  apply IH; auto; [now apply chunkStep_ok|now apply chunkStep_ink_nonnil].
Qed.

Lemma buildChunks_ink_nonnil text :
  Forall (fun c => ink c <> []) (buildChunks text).
Proof.
  unfold buildChunks. cbv zeta.
  destruct (truthy (normalize text)) eqn:T; cbn [negb]; [|constructor].
  apply truthy_true in T.
  assert (A : loopOk ([], [])).
  { unfold loopOk. cbn [fst snd length]. repeat split; auto. lia. }
  pose proof (chunkLoop_ok _ _ A (sentences_tidy text T)) as H.
  pose proof (chunkLoop_ink_nonnil _ _ A (Forall_nil _)
                (sentences_tidy text T) (sentences_sparse text)) as G.
  destruct (fold_left chunkStep (splitSentences (normalize text)) ([], []))
    as [out buf].
  destruct H as (_ & Hb & _). cbn [fst snd] in *.
  destruct (truthy buf) eqn:Tb; [|exact G].
  apply Forall_app. split; [exact G|]. constructor; [|constructor].
  destruct Hb as [->|Hb]; [discriminate|].
  rewrite ink_trim. now apply tidy_ink.
Qed.

Lemma buildChunks_trim_nonnil text :
  Forall (fun c => trim c <> []) (buildChunks text).
Proof.
  eapply Forall_impl; [|apply buildChunks_ink_nonnil].
  intros c H. now apply ink_trim_nonnil.
Qed.

Lemma buildChunks_nil_blank text :
  buildChunks text = [] -> Forall (fun c => isWhiteSpace c = true) text.
Proof.
  intro H. apply ink_nil_blank. rewrite <- buildChunks_ink, H. reflexivity.
Qed.

(** X1.  Every chunk of every text is non-empty and holds a code unit
    that is not white space: trimmed, it is not empty, so the check of
    [speakChunkChain] for an empty utterance never stops the chain on a
    chunk. *)
Theorem chunks_never_blank text :
  Forall (fun c => c <> [] /\ trim c <> [] /\
                   exists u, In u c /\ isWhiteSpace u = false)
         (buildChunks text).
Proof.
  eapply Forall_impl; [|apply buildChunks_ink_nonnil].
  intros c H. split; [|split].
  - intro E. subst. now apply H.
  - now apply ink_trim_nonnil.
  - destruct (ink c) as [|u r] eqn:E; [congruence|].
    assert (I : In u (ink c)) by (rewrite E; now left).
    unfold ink in I. apply filter_In in I. destruct I as [I1 I2].
    exists u. split; [exact I1|]. now apply negb_true_iff.
Qed.

(** X2.  [buildChunks] returns no chunk exactly when the text is empty or
    all white space. *)
Theorem no_chunks_iff_blank text :
  buildChunks text = [] <-> Forall (fun c => isWhiteSpace c = true) text.
Proof.
  split; [apply buildChunks_nil_blank|apply buildChunks_blank].
Qed.

(** *** Normalizing twice *)

Lemma collapseWs_sparse s :
  sparse s = true ->
  collapseWs false s = s /\ (startsWs s = false -> collapseWs true s = s).
Proof.
  induction s as [|c r IH]; intro HS; [split; reflexivity|].
  assert (HSr : sparse r = true) by (eapply sparse_tail; eauto).
  destruct (IH HSr) as [A B].
  rewrite sparse_cons in HS. apply andb_true_iff in HS. destruct HS as [HS _].
  simpl. destruct (isWhiteSpace c) eqn:E.
  - apply andb_true_iff in HS. destruct HS as [Hc Hr].
    apply N.eqb_eq in Hc. apply negb_true_iff in Hr.
    split; [|discriminate]. rewrite (B Hr). now subst c.
  - rewrite A. split; reflexivity.
Qed.

Lemma normalize_fixed n :
  sparse n = true -> startsWs n = false -> endsWs n = false -> normalize n = n.
Proof.
  intros A B C. unfold normalize.
  rewrite (proj1 (collapseWs_sparse n A)). now apply trim_id.
Qed.

(** X3.  Normalizing white space twice is normalizing once, the chunks
    of the normalized text are the chunks of the text, and two texts with
    the same normal form have the same chunks. *)
Theorem chunks_of_normal_form text :
  normalize (normalize text) = normalize text /\
  buildChunks (normalize text) = buildChunks text /\
  (forall other, normalize other = normalize text ->
                 buildChunks other = buildChunks text).
Proof.
  assert (E : normalize (normalize text) = normalize text).
  { destruct (normalize_shape text) as (A & B & C). now apply normalize_fixed. }
  split; [exact E|]. split.
  - unfold buildChunks. now rewrite E.
  - intros other H. unfold buildChunks. now rewrite H.
Qed.

(** *** A text that fits in one chunk *)

Lemma join_length_app sep a b :
  length (join sep a) <= length (join sep (a ++ b)).
Proof.
  induction a as [|p a IH]; [cbn [join length]; lia|].
  destruct a as [|q a].
  - cbn [app]. destruct b as [|d b]; [cbn; lia|].
    rewrite (join_cons sep p (d :: b)) by discriminate.
    cbn [join]. rewrite length_app. lia.
  - change ((p :: q :: a) ++ b) with (p :: ((q :: a) ++ b)).
    rewrite (join_cons sep p (q :: a)) by discriminate.
    rewrite (join_cons sep p ((q :: a) ++ b)) by discriminate.
    rewrite !length_app. lia.
Qed.

Lemma join_tidy_all ws :
  ws <> [] -> Forall (fun s => tidy s = true) ws ->
  tidy (join [SPACE] ws) = true.
Proof.
  induction ws as [|p rest IH]; [congruence|]. intros _ H.
  inversion H; subst. destruct rest as [|q rest'].
  - assumption.
  - rewrite join_cons by discriminate. cbn [app].
    apply tidy_glue; [assumption|]. apply IH; [discriminate|assumption].
Qed.

(** While everything read so far fits, nothing is pushed and the buffer
    holds the sentences joined. *)
Lemma chunkLoop_fits rest : forall seen,
  Forall (fun s => tidy s = true) seen ->
  Forall (fun s => tidy s = true) rest ->
  length (join [SPACE] (seen ++ rest)) <= MAX_CHUNK_LEN ->
  fold_left chunkStep rest ([], join [SPACE] seen)
  = ([], join [SPACE] (seen ++ rest)).
Proof.
  induction rest as [|s rest IH]; intros seen Hseen Hrest Hlen.
  - now rewrite app_nil_r.
  - inversion Hrest; subst. cbn [fold_left].
    assert (Hpre : length (join [SPACE] (seen ++ [s])) <= MAX_CHUNK_LEN).
    { etransitivity; [apply (join_length_app [SPACE] (seen ++ [s]) rest)|].
      now rewrite <- app_assoc. }
    assert (Step : chunkStep ([], join [SPACE] seen) s
                   = ([], join [SPACE] (seen ++ [s]))).
    { unfold chunkStep. destruct seen as [|p seen'].
      - cbn [join app truthy] in *. rewrite trim_space_tidy by assumption.
        apply Nat.ltb_ge in Hpre. now rewrite Hpre.
      - pose proof (join_tidy_all (p :: seen') ltac:(discriminate) Hseen) as T.
        assert (Tr : truthy (join [SPACE] (p :: seen')) = true).
        { apply tidy_inv in T. now apply truthy_true. }
        rewrite Tr.
        rewrite (join_snoc [SPACE] (p :: seen') s) in * by discriminate.
        cbn [app] in *.
        rewrite (trim_tidy _ (tidy_glue _ _ T H1)).
        apply Nat.ltb_ge in Hpre. rewrite Hpre.
        now rewrite <- app_assoc. }
    rewrite Step.
    replace (seen ++ s :: rest) with ((seen ++ [s]) ++ rest)
      by (now rewrite <- app_assoc).
    apply IH; auto.
    + apply Forall_app. split; [assumption|now constructor].
    + now rewrite <- app_assoc.
Qed.

(** X4.  A text that is not blank and whose normal form is at most
    [MAX_CHUNK_LEN] long gives one chunk, the normal form itself, however
    many sentences it has. *)
Theorem short_text_one_chunk text :
  normalize text <> [] ->
  length (normalize text) <= MAX_CHUNK_LEN ->
  buildChunks text = [normalize text].
Proof.
  intros Hne Hlen. unfold buildChunks. cbv zeta.
  rewrite (proj2 (truthy_true _) Hne). cbn [negb].
  destruct (normalize_shape text) as (A & B & C).
  pose proof (join_splitSentencesFrom (normalize text) false A C) as J.
  fold (splitSentences (normalize text)) in J.
  pose proof (chunkLoop_fits (splitSentences (normalize text)) []
                (Forall_nil _) (sentences_tidy text Hne)) as F.
  cbn [app join] in F. rewrite J in F. rewrite (F Hlen).
  rewrite (proj2 (truthy_true _) Hne). cbn [app].
  now rewrite (trim_id _ B C).
Qed.

Lemma short_text_one_chunk_witness :
  normalize (str "  Once upon   a time. The end!  ") <> [] /\
  length (normalize (str "  Once upon   a time. The end!  ")) <= MAX_CHUNK_LEN /\
  buildChunks (str "  Once upon   a time. The end!  ")
  = [str "Once upon a time. The end!"].
Proof.
  assert (H1 : normalize (str "  Once upon   a time. The end!  ") <> [])
    by (vm_compute; discriminate).
  assert (H2 : length (normalize (str "  Once upon   a time. The end!  "))
               <= MAX_CHUNK_LEN) by (apply Nat.leb_le; vm_compute; reflexivity).
  split; [exact H1|]. split; [exact H2|].
  rewrite (short_text_one_chunk _ H1 H2). vm_compute. reflexivity.
Defined.

(** *** How many slices *)

Lemma sliceLoop_count s : forall fuel i,
  length s - i <= fuel ->
  length (sliceLoop fuel i s)
  = (length s - i + (MAX_CHUNK_LEN - 1)) / MAX_CHUNK_LEN.
Proof.
  pose proof MAX_CHUNK_LEN_pos as HM.
  induction fuel as [|f IH]; intros i H.
  - replace (length s - i) with 0 by lia. cbn [sliceLoop length plus].
    symmetry. apply Nat.div_small. lia.
  - cbn [sliceLoop]. destruct (i <? length s) eqn:E.
    + apply Nat.ltb_lt in E. cbn [length]. rewrite IH by lia.
      destruct (le_lt_dec MAX_CHUNK_LEN (length s - i)) as [G|G].
      * replace (length s - i + (MAX_CHUNK_LEN - 1))
          with (length s - (i + MAX_CHUNK_LEN) + (MAX_CHUNK_LEN - 1)
                + 1 * MAX_CHUNK_LEN) by lia.
        rewrite Nat.div_add by lia. lia.
      * replace (length s - (i + MAX_CHUNK_LEN)) with 0 by lia.
        replace (length s - i + (MAX_CHUNK_LEN - 1))
          with (length s - i - 1 + 1 * MAX_CHUNK_LEN) by lia.
        rewrite Nat.div_add by lia.
        rewrite !Nat.div_small by lia. reflexivity.
    + apply Nat.ltb_ge in E. replace (length s - i) with 0 by lia.
      cbn [length plus]. symmetry. apply Nat.div_small. lia.
Qed.

(** X5.  A text whose normal form is one sentence longer than the limit,
    with no [.], [!] or [?], gives ceil(length / limit) chunks, which put
    end to end are the normal form. *)
Theorem long_sentence_slices text :
  MAX_CHUNK_LEN < length (normalize text) ->
  Forall (fun c => isTerminator c = false) (normalize text) ->
  length (buildChunks text)
  = (length (normalize text) + (MAX_CHUNK_LEN - 1)) / MAX_CHUNK_LEN /\
  concat (buildChunks text) = normalize text.
Proof.
  intros Hlen Hterm. rewrite (buildChunks_single_long _ Hlen Hterm).
  split; [|apply hardSlices_concat].
  unfold hardSlices. rewrite sliceLoop_count by lia. now rewrite Nat.sub_0_r.
Qed.

Lemma long_sentence_slices_witness :
  MAX_CHUNK_LEN < length (normalize (repeat 120%N 1201)) /\
  Forall (fun c => isTerminator c = false) (normalize (repeat 120%N 1201)) /\
  length (buildChunks (repeat 120%N 1201)) = 3.
Proof.
  assert (H1 : MAX_CHUNK_LEN < length (normalize (repeat 120%N 1201)))
    by (apply Nat.ltb_lt; vm_compute; reflexivity).
  assert (H2 : Forall (fun c => isTerminator c = false)
                 (normalize (repeat 120%N 1201))).
  { apply Forall_forall. intros c Hc.
    assert (B : forallb (fun c => negb (isTerminator c))
                  (normalize (repeat 120%N 1201)) = true)
      by (vm_compute; reflexivity).
    rewrite forallb_forall in B. apply negb_true_iff. now apply B. }
  split; [exact H1|]. split; [exact H2|].
  rewrite (proj1 (long_sentence_slices _ H1 H2)). vm_compute. reflexivity.
Defined.

(** X6.  When no sentence of the normalized text is longer than the
    limit, every chunk is non-empty and has no white space at its start
    or end: [trim] leaves it as it is. *)
Theorem chunks_trimmed_without_long_sentence text :
  Forall (fun s => length s <= MAX_CHUNK_LEN)
         (splitSentences (normalize text)) ->
  Forall (fun c => c <> [] /\ trim c = c /\
                   startsWs c = false /\ endsWs c = false)
         (buildChunks text).
Proof.
  intro H. eapply Forall_impl; [|apply (proj2 (buildChunks_join text H))].
  intros c T. split; [|split; [now apply trim_tidy|]];
    apply tidy_inv in T; tauto.
Qed.

Lemma chunks_trimmed_without_long_sentence_witness :
  Forall (fun s => length s <= MAX_CHUNK_LEN)
         (splitSentences (normalize story)) /\
  Forall (fun c => c <> [] /\ trim c = c /\
                   startsWs c = false /\ endsWs c = false)
         (buildChunks story).
Proof.
  assert (H : Forall (fun s => length s <= MAX_CHUNK_LEN)
                (splitSentences (normalize story))).
  { apply Forall_forall. intros s Hs.
    assert (B : forallb (fun s => length s <=? MAX_CHUNK_LEN)
                  (splitSentences (normalize story)) = true)
      by (vm_compute; reflexivity).
    rewrite forallb_forall in B. apply Nat.leb_le. now apply B. }
  split; [exact H|]. exact (chunks_trimmed_without_long_sentence story H).
Defined.

(* ===================================================================== *)
(** ** Seeking and live preference changes *)
(* ===================================================================== *)

(** The words of a string hold its code units that are not white space. *)
Lemma concat_splitWsFrom s : forall b, concat (splitWsFrom b s) = ink s.
Proof.
  induction s as [|c r IH]; intro b; [reflexivity|].
  cbn [splitWsFrom]. unfold ink in *. cbn [filter].
  destruct (isWhiteSpace c); cbn [negb].
  - destruct b; [apply IH|]. cbn [concat app]. apply IH.
  - rewrite concat_consHead by apply splitWsFrom_pieces. now rewrite IH.
Qed.

Lemma concat_filter_truthy l : concat (filter truthy l) = concat l.
Proof.
  induction l as [|p r IH]; [reflexivity|]. cbn [filter].
  destruct p; cbn; [exact IH|now rewrite IH].
Qed.

Lemma words_nonnil s : ink s <> [] -> words s <> [].
Proof.
  intros H E. apply H.
  rewrite <- (concat_splitWsFrom s false), <- concat_filter_truthy.
  fold (words s). now rewrite E.
Qed.

(** [chunks[i]] for an index that is not negative. *)
Lemma chunkAt_nth st i :
  (0 <= i)%Z -> chunkAt st i = nth_error (chunks st) (Z.to_nat i).
Proof.
  intro H. unfold chunkAt.
  now replace (i <? 0)%Z with false by (symmetry; apply Z.ltb_ge; lia).
Qed.

Lemma chunk_exists st i :
  (0 <= i < chunkCount st)%Z ->
  exists text, nth_error (chunks st) (Z.to_nat i) = Some text.
Proof.
  intro H. unfold chunkCount in H.
  destruct (nth_error (chunks st) (Z.to_nat i)) eqn:E; [eauto|].
  apply nth_error_None in E. lia.
Qed.

(** A chunk made by [buildChunks] has something to say. *)
Lemma chunk_not_blank st n text :
  chunks st = buildChunks (currentText st) ->
  nth_error (chunks st) n = Some text ->
  trim text <> [] /\ words text <> [].
Proof.
  intros C E. apply nth_error_In in E. rewrite C in E.
  pose proof (buildChunks_ink_nonnil (currentText st)) as N.
  rewrite Forall_forall in N. specialize (N _ E).
  split; [now apply ink_trim_nonnil|now apply words_nonnil].
Qed.

(** C7.  [seekToChunk] with no text loaded, no chunks, or an index out of
    range finishes at once with the state unchanged.  With a valid index
    it sets [currentChunkIndex] to it and increments [sessionId]; if the
    session was neither playing nor paused nothing is spoken; if it was
    playing or paused the chain is restarted there: the session plays and
    the utterance handed to the engine is the chunk [chunks[index]],
    under the new session id. *)
Theorem seekToChunk_contract w w' i st :
  (currentText st = [] \/ chunks st = [] \/ (i < 0)%Z \/ (chunkCount st <= i)%Z ->
     seekToChunk w i st = Return st) /\
  (currentText st <> [] -> (0 <= i < chunkCount st)%Z ->
     let st' := run w' (seekToChunk w i st) in
     currentChunkIndex st' = i /\
     sessionId st' = (sessionId st + 1)%Z /\
     (isPlaying st || isPaused st = false ->
        isPlaying st' = false /\ isPaused st' = false /\
        utterances (log st') = utterances (log st)) /\
     (isPlaying st || isPaused st = true ->
        chunks st = buildChunks (currentText st) ->
        overrideFirstChunk st = None ->
        isPlaying st' = true /\ isPaused st' = false /\
        exists text,
          nth_error (chunks st) (Z.to_nat i) = Some text /\
          utterances (log st') =
            (text, i, (sessionId st + 1)%Z) :: utterances (log st))).
Proof.
  split; [apply seekToChunk_rejects|].
  intros Ht Hi. cbv zeta.
  destruct (seekToChunk_accepts w w' i st Ht Hi)
    as (A & B & C & _ & _ & _ & D & E).
  split; [exact A|]. split; [exact B|]. split.
  - intro H. destruct (D H). auto.
  - intros H Hc Ho.
    destruct (chunk_exists st i Hi) as [text Hn].
    destruct (chunk_not_blank st _ text Hc Hn) as [Hb _].
    assert (Hat : chunkAt st i = Some text)
      by (rewrite chunkAt_nth by lia; exact Hn).
    destruct (E H text Ho Hat Hb) as [E1 E2].
    split; [exact E1|]. split; [exact C|]. exists text. split; assumption.
Qed.

(** Seeking to the third chunk of the story: on the playing session the
    third chunk is spoken under session 2; on the session that has
    finished the index moves and nothing is spoken; index 3 and index -1
    are refused. *)
Lemma seekToChunk_contract_witness :
  let w := androidAt 9500 in
  let third := repeat 99%N 500 ++ str "." in
  let playingSeek := run w (seekToChunk w 2 playing1) in
  let idleSeek := run w (seekToChunk w 2 finished) in
  (chunkCount playing1 = 3%Z /\
   seekToChunk w 3 playing1 = Return playing1 /\
   seekToChunk w (-1) playing1 = Return playing1) /\
  (isPlaying playing1 || isPaused playing1 = true /\
   chunks playing1 = buildChunks (currentText playing1) /\
   overrideFirstChunk playing1 = None /\
   sessionId playing1 = 1%Z /\
   currentChunkIndex playingSeek = 2%Z /\ sessionId playingSeek = 2%Z /\
   isPlaying playingSeek = true /\
   utterances (log playingSeek) = (third, 2%Z, 2%Z) :: utterances (log playing1)) /\
  (isPlaying finished || isPaused finished = false /\
   currentText finished <> [] /\ chunkCount finished = 3%Z /\
   currentChunkIndex finished = 0%Z /\ sessionId finished = 1%Z /\
   currentChunkIndex idleSeek = 2%Z /\ sessionId idleSeek = 2%Z /\
   isPlaying idleSeek = false /\
   utterances (log idleSeek) = utterances (log finished)).
Proof.
  cbv zeta.
  assert (N1 : chunkCount playing1 = 3%Z) by (vm_compute; reflexivity).
  assert (T1 : currentText playing1 <> []) by (vm_compute; discriminate).
  assert (R1 : (0 <= 2 < chunkCount playing1)%Z) by (rewrite N1; lia).
  assert (P1 : isPlaying playing1 || isPaused playing1 = true)
    by (vm_compute; reflexivity).
  assert (C1 : chunks playing1 = buildChunks (currentText playing1))
    by (vm_compute; reflexivity).
  assert (O1 : overrideFirstChunk playing1 = None) by (vm_compute; reflexivity).
  assert (S1 : sessionId playing1 = 1%Z) by (vm_compute; reflexivity).
  assert (P2 : isPlaying finished || isPaused finished = false)
    by (vm_compute; reflexivity).
  assert (T2 : currentText finished <> []) by (vm_compute; discriminate).
  assert (N2 : chunkCount finished = 3%Z) by (vm_compute; reflexivity).
  assert (R2 : (0 <= 2 < chunkCount finished)%Z) by (rewrite N2; lia).
  assert (I2 : currentChunkIndex finished = 0%Z) by (vm_compute; reflexivity).
  assert (S2 : sessionId finished = 1%Z) by (vm_compute; reflexivity).
  split; [|split].
  - split; [exact N1|]. split.
    + apply (proj1 (seekToChunk_contract (androidAt 9500) (androidAt 9500)
                      3 playing1)).
      right; right; right. rewrite N1. lia.
    + apply (proj1 (seekToChunk_contract (androidAt 9500) (androidAt 9500)
                      (-1) playing1)).
      right; right; left. lia.
  - destruct (proj2 (seekToChunk_contract (androidAt 9500) (androidAt 9500)
                       2 playing1) T1 R1) as (A & B & _ & D).
    destruct (D P1 C1 O1) as (D1 & _ & text & D2 & D3).
    assert (E : nth_error (chunks playing1) (Z.to_nat 2)
                = Some (repeat 99%N 500 ++ str "."))
      by (vm_compute; reflexivity).
    rewrite E in D2. injection D2 as <-.
    split; [exact P1|]. split; [exact C1|]. split; [exact O1|].
    split; [exact S1|]. split; [exact A|].
    split; [rewrite B, S1; reflexivity|]. split; [exact D1|].
    rewrite D3, S1. reflexivity.
  - destruct (proj2 (seekToChunk_contract (androidAt 9500) (androidAt 9500)
                       2 finished) T2 R2) as (A & B & D & _).
    destruct (D P2) as (D1 & _ & D3).
    split; [exact P2|]. split; [exact T2|]. split; [exact N2|].
    split; [exact I2|]. split; [exact S2|]. split; [exact A|].
    split; [rewrite B, S2; reflexivity|]. split; [exact D1|exact D3].
Defined.

Section Estimate.

Variable wordsSpokenOf : Z -> Q -> Floored.




End Estimate.


(** The estimate is the double-precision one: for 16400 ms at rate 2.5 it
    is 122 words, where the formula on the exact values gives 123. *)
Example wordsSpoken_in_doubles :
  wordsSpoken 16400 (5 # 2) = Finite 122 /\
  specWordsSpoken 16400 (5 # 2) = 123%Z /\
  wordsSpoken 1670 1 = Finite 5 /\
  specWordsSpoken 1670 1 = 5%Z /\
  wordsSpoken 0 (5 # 2) = Finite 0.
Proof. repeat split; vm_compute; reflexivity. Qed.

(** At every tenth of a second of the first minute of a chunk, for rates
    from 0.5 to 2.5, the estimate is finite and is the value of the
    formula floor(elapsed-seconds x 3 x rate) or, through the rounding of
    the doubles, one below it. *)
Lemma wordsSpoken_near_spec usedRate tenths :
  In usedRate speechRates -> tenths <= 600 ->
  exists n,
    wordsSpoken (100 * Z.of_nat tenths) usedRate = Finite n /\
    (specWordsSpoken (100 * Z.of_nat tenths) usedRate - 1 <= n
     <= specWordsSpoken (100 * Z.of_nat tenths) usedRate)%Z.
Proof.
  intros Hr Ht.
  assert (All : forallb
                  (fun r =>
                     forallb (fun k => nearSpec (100 * Z.of_nat k) r)
                       (seq 0 601))
                  speechRates = true) by (vm_compute; reflexivity).
  rewrite forallb_forall in All. specialize (All _ Hr).
  rewrite forallb_forall in All.
  assert (Hin : In tenths (seq 0 601)) by (apply in_seq; lia).
  specialize (All _ Hin). unfold nearSpec in All.
  destruct (wordsSpoken (100 * Z.of_nat tenths) usedRate) as [n| | |];
    try discriminate.
  apply andb_true_iff in All. destruct All as [A B].
  apply Z.leb_le in A, B. exists n. split; [reflexivity|lia].
Qed.


(* ===================================================================== *)
(** ** Invariants of the session *)
(* ===================================================================== *)

Lemma tagOk_mono a b e : (a <= b)%Z -> tagOk a e -> tagOk b e.
Proof. destruct e; cbn; auto. intros H [A B]. split; [lia|exact B]. Qed.

Lemma ready_of st st' :
  currentText st' = currentText st -> chunks st' = chunks st ->
  (sessionId st <= sessionId st')%Z -> log st' = log st ->
  ready st -> ready st'.
Proof.
  unfold ready. intros -> -> Hs -> [A B]. split; [exact A|].
  eapply Forall_impl; [|exact B]. intro e. now apply tagOk_mono.
Qed.

Lemma ready_emit e st : tagOk (sessionId st) e -> ready st -> ready (emit e st).
Proof. intros He [A B]. split; [exact A|]. cbn. now constructor. Qed.

Lemma ready_updateProgress st : ready st -> ready (updateProgress st).
Proof.
  intro H. destruct (updateProgress_cases st) as [->|(c & t & p & ->)];
    [exact H|]. now apply ready_emit.
Qed.

Lemma ready_ensure st : ready st -> ready (ensurePlaybackPromise st).
Proof.
  unfold ensurePlaybackPromise. destruct (playbackPromise st); [auto|].
  apply ready_of; cbn; auto; lia.
Qed.

Lemma ready_resolve st : ready st -> ready (resolvePlayback st).
Proof.
  unfold resolvePlayback. destruct (playbackPromise st); [|auto].
  intro H. apply ready_emit; [exact I|].
  revert H. apply ready_of; cbn; auto; lia.
Qed.

Lemma ready_finish st : ready st -> ready (finishSession st).
Proof.
  intro H. unfold finishSession. apply ready_resolve, ready_updateProgress.
  revert H. apply ready_of; cbn; auto; lia.
Qed.

(** The fields of a finished session. *)
Lemma finishSession_fields st :
  let st' := finishSession st in
  isPlaying st' = false /\ isPaused st' = false /\
  currentChunkIndex st' = 0%Z /\
  overrideFirstChunk st' = overrideFirstChunk st /\
  playbackPromise st' = false /\
  utterances (log st') = utterances (log st) /\
  SameSession st' st.
Proof.
  unfold finishSession, resolvePlayback. progress_cases;
    match goal with
    | |- context [if ?b then _ else _] => destruct b eqn:P
    end; cbn in *; repeat split; auto.
Qed.

(** The chain, called for the current session at an index that is not
    negative, with no override pending or one that it will consume. *)
Lemma chain_settles w i st :
  (0 <= i)%Z -> ready st ->
  overrideFirstChunk st = None \/
    (optTruthy (overrideFirstChunk st) = true /\ (i < chunkCount st)%Z) ->
  let st' := speakChunkChain w i (sessionId st) st in
  overrideFirstChunk st' = None /\
  isPlaying st' && isPaused st' = false /\
  (chunks st' = [] -> currentChunkIndex st' = 0%Z) /\
  ready st'.
Proof.
  intros Hi Hr Ho. cbv zeta.
  destruct (speakChunkChain_frame w i (sessionId st) st) as [F1 F2 F3 F4 F5].
  assert (Hready : ready (speakChunkChain w i (sessionId st) st)).
  { unfold speakChunkChain. rewrite Z.eqb_refl. cbn [negb].
    destruct (chunkCount st <=? i)%Z; [now apply ready_finish|]. cbv zeta.
    assert (R1 : ready (updateProgress
                          (set_isPaused false
                             (set_isPlaying true (set_currentChunkIndex i st))))).
    { apply ready_updateProgress. revert Hr. apply ready_of; cbn; auto; lia. }
    set (st1 := updateProgress _) in *.
    assert (Hs1 : sessionId st1 = sessionId st).
    { subst st1. progress_cases; reflexivity. }
    set (useOverride := optTruthy (overrideFirstChunk st1)
                        && (i =? currentChunkIndex st1)%Z).
    set (t := if useOverride then orEmpty (overrideFirstChunk st1)
              else orEmpty (chunkAt st1 i)).
    assert (R2 : ready (if useOverride then set_overrideFirstChunk None st1
                        else st1)).
    { destruct useOverride; [|exact R1].
      revert R1. apply ready_of; cbn; auto; lia. }
    destruct (negb (truthy t) || (length (trim t) =? 0)) eqn:B; [exact R2|].
    apply orb_false_iff in B. destruct B as [_ B]. apply Nat.eqb_neq in B.
    apply ready_emit.
    - cbn. split.
      + destruct useOverride; cbn; rewrite Hs1; lia.
      + intro N. rewrite N in B. now apply B.
    - revert R2. apply ready_of; destruct useOverride; cbn; auto; lia. }
  split; [|split; [|split; [|exact Hready]]].
  - unfold speakChunkChain. rewrite Z.eqb_refl. cbn [negb].
    destruct (chunkCount st <=? i)%Z eqn:E.
    + destruct (finishSession_fields st) as (_ & _ & _ & O & _).
      rewrite O. destruct Ho as [Ho|[_ Ho]]; [exact Ho|].
      apply Z.leb_le in E. lia.
    + cbv zeta. progress_cases; cbn; rewrite Z.eqb_refl, andb_true_r;
        destruct (optTruthy (overrideFirstChunk st)) eqn:T;
        repeat match goal with
               | |- context [if ?b then _ else _] => destruct b
               end; cbn; auto;
        destruct Ho as [Ho|[Ho _]]; congruence.
  - unfold speakChunkChain. rewrite Z.eqb_refl. cbn [negb].
    destruct (chunkCount st <=? i)%Z eqn:E.
    + destruct (finishSession_fields st) as (A & _). now rewrite A.
    + cbv zeta. progress_cases;
        repeat match goal with
               | |- context [if ?b then _ else _] => destruct b
               end; reflexivity.
  - rewrite F2. intro N.
    rewrite speakChunkChain_finishes
      by (unfold chunkCount; rewrite N; cbn [length]; lia).
    apply finishSession_fields.
Qed.

Lemma settled_of st st' :
  isInitiatingPlayback st' = isInitiatingPlayback st ->
  overrideFirstChunk st' = overrideFirstChunk st ->
  isPlaying st' && isPaused st' = false ->
  currentChunkIndex st' = currentChunkIndex st ->
  currentText st' = currentText st -> chunks st' = chunks st ->
  (sessionId st <= sessionId st')%Z -> log st' = log st ->
  settled st -> settled st'.
Proof.
  intros E1 E2 E3 E4 E5 E6 E7 E8 (A & B & C & D & R).
  repeat split; try congruence.
  - rewrite E6, E4. exact D.
  - apply (ready_of st); auto.
  - apply (ready_of st); auto.
Qed.

Lemma settled_emit e st :
  tagOk (sessionId st) e -> settled st -> settled (emit e st).
Proof.
  intros He (A & B & C & D & R). repeat split; auto; now apply ready_emit.
Qed.

Lemma settled_updateProgress st : settled st -> settled (updateProgress st).
Proof.
  intro H. destruct (updateProgress_cases st) as [->|(c & t & p & ->)];
    [exact H|]. now apply settled_emit.
Qed.

Lemma settled_ensure st : settled st -> settled (ensurePlaybackPromise st).
Proof.
  unfold ensurePlaybackPromise. destruct (playbackPromise st); [auto|].
  intro H. pose proof H as (_ & _ & C & _).
  revert H. apply settled_of; cbn; auto; lia.
Qed.

Lemma settled_resolve st : settled st -> settled (resolvePlayback st).
Proof.
  unfold resolvePlayback. destruct (playbackPromise st); [|auto].
  intro H. apply settled_emit; [exact I|]. pose proof H as (_ & _ & C & _).
  revert H. apply settled_of; cbn; auto; lia.
Qed.

(** From what the chain leaves, once the flag is cleared. *)
Lemma settled_after y :
  overrideFirstChunk y = None ->
  isPlaying y && isPaused y = false ->
  (chunks y = [] -> currentChunkIndex y = 0%Z) ->
  ready y ->
  settled (set_isInitiatingPlayback false y).
Proof.
  intros A B C R. repeat split; auto;
    apply (ready_of y); cbn; auto; lia.
Qed.

Lemma startChain_settles w w' x :
  ready x -> overrideFirstChunk x = None ->
  settled (run w' (startChain w x)).
Proof.
  intros R O. unfold startChain. cbn [run].
  assert (S : sessionId x = sessionId (ensurePlaybackPromise x)).
  { unfold ensurePlaybackPromise. now destruct (playbackPromise x). }
  rewrite S.
  destruct (chain_settles w 0 (ensurePlaybackPromise x)) as (A & B & C & D);
    [lia|now apply ready_ensure| |].
  - left. unfold ensurePlaybackPromise. now destruct (playbackPromise x).
  - now apply settled_after.
Qed.

Lemma settled_finish st :
  overrideFirstChunk st = None -> isInitiatingPlayback st = false ->
  ready st -> settled (finishSession st).
Proof.
  intros O F R.
  destruct (finishSession_fields st) as (A & B & C & D & _ & _ & [S1 S2 S3 S4 S5]).
  repeat split; try congruence.
  - now rewrite A.
  - apply ready_finish, R.
  - apply ready_finish, R.
Qed.

Lemma settled_speakText w w' text p st :
  settled st -> settled (run w' (speakText w text p st)).
Proof.
  intros H. pose proof H as (F & O & PP & D & R).
  unfold speakText. rewrite F. cbv zeta.
  destruct (isPaused (set_isInitiatingPlayback true st) &&
            eqb (currentText (set_isInitiatingPlayback true st)) text) eqn:Del.
  - rewrite resumeSpeech_guarded by reflexivity. cbn [awaitTask run].
    now rewrite flag_round_trip.
  - destruct (eqb (currentText (set_isInitiatingPlayback true st)) text &&
              (0 <? chunkCount (set_isInitiatingPlayback true st))%Z).
    + match goal with
      | |- context [if ?b then _ else _] => destruct b
      end; unfold awaitStop; cbn [run]; apply startChain_settles;
        try (destruct p; reflexivity || exact O);
        try apply ready_emit; try exact I;
        (revert R; apply ready_of; destruct p; cbn; auto; lia).
    + assert (Rn : forall q,
                ready (replacePreferences q
                         (set_sessionId (sessionId (set_isInitiatingPlayback true st) + 1)
                            (set_isPaused false
                               (set_currentChunkIndex 0
                                  (set_text text (buildChunks text)
                                     (set_isInitiatingPlayback true st))))))).
      { intro q. destruct R as [_ R]. split; [destruct q; reflexivity|].
        destruct q; cbn; (eapply Forall_impl; [|exact R]);
          intro e; apply tagOk_mono; lia. }
      match goal with
      | |- context [if ?b then _ else _] => destruct b
      end; unfold awaitStop; cbn [run]; apply startChain_settles;
        try (destruct p; reflexivity || exact O);
        try apply ready_emit; try exact I; apply Rn.
Qed.

Lemma settled_restartSpeech w w' text p st :
  settled st -> settled (run w' (restartSpeech w text p st)).
Proof.
  intros H. pose proof H as (F & O & PP & D & R).
  unfold restartSpeech. rewrite F. cbv zeta.
  unfold awaitStop. cbn [run]. apply startChain_settles.
  - apply ready_emit; [exact I|]. destruct R as [_ R].
    split; [destruct p; reflexivity|].
    destruct p; cbn; (eapply Forall_impl; [|exact R]);
      intro e; apply tagOk_mono; lia.
  - destruct p; exact O.
Qed.

Lemma settled_pauseSpeech w st : settled st -> settled (pauseSpeech w st).
Proof.
  intro H. unfold pauseSpeech. apply settled_updateProgress.
  destruct (negb (android w)); [destruct (pauseThrows w)|];
    repeat (apply settled_emit; [exact I|]);
    (revert H; apply settled_of; cbn; auto; lia).
Qed.

Lemma settled_resumeSpeech w w' st :
  wellFormed st -> settled st -> settled (run w' (resumeSpeech w st)).
Proof.
  intros [[W0 _] _] H. pose proof H as (F & O & PP & D & R).
  unfold resumeSpeech. rewrite F.
  destruct (negb (truthy (currentText st)) || (chunkCount st =? 0)%Z) eqn:E;
    [exact H|].
  cbv zeta. unfold awaitStop. cbn [run].
  assert (Man : forall x,
    ready x -> overrideFirstChunk x = None ->
    settled (set_isInitiatingPlayback false
               (ensurePlaybackPromise
                  (speakChunkChain w'
                     (currentChunkIndex (set_isInitiatingPlayback true st))
                     (sessionId x) x)))).
  { intros x Rx Ox.
    destruct (chain_settles w' (currentChunkIndex st) x) as (A & B & C & G);
      auto.
    change (currentChunkIndex (set_isInitiatingPlayback true st))
      with (currentChunkIndex st).
    set (y := speakChunkChain w' (currentChunkIndex st) (sessionId x) x) in *.
    apply settled_after.
    - unfold ensurePlaybackPromise. now destruct (playbackPromise y).
    - unfold ensurePlaybackPromise. now destruct (playbackPromise y).
    - unfold ensurePlaybackPromise. now destruct (playbackPromise y).
    - now apply ready_ensure. }
  assert (R2 : ready (set_isPlaying true
                        (set_isPaused false
                           (emit EvStop (set_isInitiatingPlayback true st))))).
  { cut (ready (emit EvStop st)); [apply ready_of; cbn; auto; lia|].
    now apply ready_emit. }
  destruct (negb (android w')); cbn [run].
  - destruct (resumeRejects w'); cbn [run].
    + apply Man; [|exact O]. now apply ready_emit.
    + apply settled_after.
      * unfold ensurePlaybackPromise. progress_cases;
          match goal with
          | |- context [if ?b then _ else _] => destruct b
          end; exact O.
      * unfold ensurePlaybackPromise. progress_cases;
          match goal with
          | |- context [if ?b then _ else _] => destruct b
          end; reflexivity.
      * unfold ensurePlaybackPromise. progress_cases;
          match goal with
          | |- context [if ?b then _ else _] => destruct b
          end; exact D.
      * apply ready_ensure, ready_updateProgress, ready_emit; [exact I|exact R2].
  - apply Man; [exact R2|exact O].
Qed.

Lemma settled_seekToChunk w w' i st :
  settled st -> settled (run w' (seekToChunk w i st)).
Proof.
  intros H. pose proof H as (F & O & PP & D & R).
  unfold seekToChunk.
  destruct (negb (truthy (currentText st)) || (chunkCount st =? 0)%Z);
    [exact H|].
  destruct ((i <? 0)%Z || (chunkCount st <=? i)%Z) eqn:E; [exact H|].
  apply orb_false_iff in E. destruct E as [E1 E2].
  apply Z.ltb_ge in E1. apply Z.leb_gt in E2.
  assert (Hne : chunks st <> []).
  { intro N. unfold chunkCount in E2. rewrite N in E2. cbn in E2. lia. }
  cbv zeta. unfold awaitStop. cbn [run].
  set (x := updateProgress _).
  assert (Rx : ready x).
  { subst x. apply ready_updateProgress.
    cut (ready (emit EvStop st)); [apply ready_of; cbn; auto; lia|].
    now apply ready_emit. }
  assert (Fx : isInitiatingPlayback x = false /\ overrideFirstChunk x = None
               /\ isPaused x = false /\ chunks x = chunks st).
  { subst x. progress_cases; cbn; auto. }
  destruct Fx as (Fx1 & Fx2 & Fx3 & Fx4).
  destruct (isPlaying st || isPaused st); cbn [run].
  - assert (S : sessionId x = sessionId (ensurePlaybackPromise x)).
    { unfold ensurePlaybackPromise. now destruct (playbackPromise x). }
    rewrite S.
    destruct (chain_settles w' i (ensurePlaybackPromise x)) as (A & B & C & G);
      [lia|now apply ready_ensure| |].
    + left. unfold ensurePlaybackPromise. now destruct (playbackPromise x).
    + destruct (speakChunkChain_frame w' i
                  (sessionId (ensurePlaybackPromise x)) (ensurePlaybackPromise x))
        as [_ _ _ _ G5].
      repeat split; auto; try apply G.
      rewrite G5. unfold ensurePlaybackPromise. now destruct (playbackPromise x).
  - repeat split; auto; try apply Rx.
    + rewrite Fx3. apply andb_false_r.
    + rewrite Fx4. congruence.
Qed.

Lemma settled_onDone w i sid st :
  (0 <= i)%Z -> settled st -> settled (onDone w i sid st).
Proof.
  intros Hi H. pose proof H as (F & O & PP & D & R).
  unfold onDone. destruct (sid =? sessionId st)%Z eqn:E; cbn [negb]; [|exact H].
  apply Z.eqb_eq in E. subst sid.
  destruct (isPaused st); [exact H|]. cbv zeta.
  assert (R1 : ready (set_chunkStart None None st))
    by (revert R; apply ready_of; cbn; auto; lia).
  destruct (i + 1 <? chunkCount (set_chunkStart None None st))%Z.
  - change (sessionId st) with (sessionId (set_chunkStart None None st)).
    destruct (chain_settles w (i + 1) (set_chunkStart None None st))
      as (A & B & C & G); [lia|exact R1|now left|].
    destruct (speakChunkChain_frame w (i + 1)
                (sessionId (set_chunkStart None None st))
                (set_chunkStart None None st)) as [_ _ _ _ G5].
    repeat split; auto; try apply G. now rewrite G5.
  - now apply settled_finish.
Qed.

Lemma settled_onStopped sid st : settled st -> settled (onStopped sid st).
Proof.
  intros H. unfold onStopped.
  destruct (negb (sid =? sessionId st)%Z); [exact H|]. cbv zeta.
  assert (S1 : settled (set_chunkStart None None (set_isPlaying false st)))
    by (revert H; apply settled_of; cbn; auto; lia).
  destruct (negb _); [|exact S1].
  now apply settled_resolve, settled_updateProgress.
Qed.

Lemma settled_onError sid st : settled st -> settled (onError sid st).
Proof.
  intros H. unfold onError.
  destruct (negb (sid =? sessionId st)%Z); [exact H|].
  apply settled_resolve, settled_updateProgress.
  revert H. apply settled_of; cbn; auto; lia.
Qed.

Section Estimate.

Variable wordsSpokenOf : Z -> Q -> Floored.

Lemma estimateOffset_override w st :
  overrideFirstChunk st = None ->
  let st1 := estimateOffset wordsSpokenOf w st in
  overrideFirstChunk st1 = None \/
  (optTruthy (overrideFirstChunk st1) = true /\
   (currentChunkIndex st1 < chunkCount st1)%Z).
Proof.
  intro O. cbv zeta. unfold estimateOffset.
  destruct (chunkStartTime st) as [t0|]; [|now left].
  destruct (chunkStartPrefs st) as [sp|]; [|now left].
  destruct (negb (t0 =? 0)%Z && optTruthy (chunkAt st (currentChunkIndex st)))
    eqn:E; [|now left].
  apply andb_true_iff in E. destruct E as [_ E].
  destruct (chunkAt st (currentChunkIndex st)) as [text|] eqn:C;
    [|discriminate].
  apply chunkAt_in_range in C. cbv zeta.
  destruct (flooredGe _ _); [now left|].
  destruct (flooredPositive _); [|now left].
  destruct (0 <? length _) eqn:L; [|now left].
  right. cbn. split; [|apply C].
  apply Nat.ltb_lt in L.
  destruct (trim _); [cbn in L; lia|reflexivity].
Qed.

Lemma settled_setPreferences w w' p st :
  wellFormed st -> settled st ->
  settled (run w' (setPreferences wordsSpokenOf w p st)).
Proof.
  intros W H. pose proof H as (F & O & PP & D & R).
  destruct (isPlaying st || isPaused st) eqn:Act.
  - rewrite setPreferences_active by exact Act. cbv zeta.
    set (st1 := estimateOffset wordsSpokenOf w (set_currentPreferences p st)).
    destruct (estimateOffset_frame wordsSpokenOf w (set_currentPreferences p st))
      as ([F1 F2 F3 F4 F5] & F6 & F7 & F8).
    fold st1 in F1, F2, F3, F4, F5, F6, F7, F8.
    assert (W1 : wellFormed st1).
    { apply wf_estimateOffset. revert W. apply wf_of; reflexivity. }
    pose proof (estimateOffset_override w (set_currentPreferences p st) O) as Ov.
    cbv zeta in Ov. fold st1 in Ov.
    set (st2 := emit EvStop (set_sessionId (sessionId st + 1) st1)).
    assert (R2 : ready (ensurePlaybackPromise st2)).
    { apply ready_ensure. subst st2. apply ready_emit; [exact I|].
      destruct R as [Ra Rb]. split.
      - cbn. rewrite F2, F1. exact Ra.
      - cbn. rewrite F8. cbn. eapply Forall_impl; [|exact Rb].
        intro e. apply tagOk_mono. lia. }
    assert (S2 : sessionId (ensurePlaybackPromise st2) = (sessionId st + 1)%Z).
    { unfold ensurePlaybackPromise. now destruct (playbackPromise st2). }
    rewrite <- S2.
    destruct (chain_settles w' (currentChunkIndex st2) (ensurePlaybackPromise st2))
      as (A & B & C & G).
    + subst st2. cbn. apply W1.
    + exact R2.
    + unfold ensurePlaybackPromise, chunkCount.
      destruct (playbackPromise st2); subst st2; cbn; exact Ov.
    + destruct (speakChunkChain_frame w' (currentChunkIndex st2)
                  (sessionId (ensurePlaybackPromise st2))
                  (ensurePlaybackPromise st2)) as [_ _ _ _ G5].
      repeat split; auto; try apply G.
      rewrite G5. unfold ensurePlaybackPromise.
      cbn in F5. destruct (playbackPromise st2); subst st2; cbn; congruence.
  - rewrite setPreferences_idle by exact Act. cbn [run].
    revert H. apply settled_of; cbn; auto; lia.
Qed.

Lemma exec_settled w w' c st :
  wellFormed st -> settled st -> enabled c st = true ->
  settled (exec wordsSpokenOf w w' c st).
Proof.
  intros W H He. destruct c; cbn [exec enabled] in *.
  - now apply settled_speakText.
  - now apply settled_pauseSpeech.
  - now apply settled_resumeSpeech.
  - now apply settled_restartSpeech.
  - now apply settled_seekToChunk.
  - now apply settled_setPreferences.
  - pose proof H as (_ & _ & C & _).
    revert H. apply settled_of; cbn; auto; lia.
  - apply settled_onDone; [|exact H]. eapply registered_index; eauto.
  - now apply settled_onStopped.
  - now apply settled_onError.
Qed.

Lemma initial_settled : settled initialState.
Proof. repeat split; cbn; auto. Qed.

Lemma reachable_settled st :
  Reachable wordsSpokenOf st -> wellFormed st /\ settled st.
Proof.
  induction 1 as [|st w w' c _ [IW IS] He].
  - split; [exact initial_wellFormed|exact initial_settled].
  - split; [now apply exec_wellFormed|now apply exec_settled].
Qed.

End Estimate.

(** X7.  In every reachable state the re-entrancy flag is clear and no
    override is pending: each call that sets the flag clears it before it
    ends, and an override that [setPreferences] computes is consumed by
    the chain it starts. *)
Theorem flag_and_override_clear (wordsSpokenOf : Z -> Q -> Floored) st :
  Reachable wordsSpokenOf st ->
  isInitiatingPlayback st = false /\ overrideFirstChunk st = None.
Proof.
  intro H. apply reachable_settled in H. destruct H as [_ (A & B & _)]. auto.
Qed.

Lemma flag_and_override_clear_witness :
  Reachable wordsSpoken playing1 /\
  isInitiatingPlayback playing1 = false /\ overrideFirstChunk playing1 = None.
Proof.
  split; [exact playing1_reachable|].
  exact (flag_and_override_clear wordsSpoken playing1 playing1_reachable).
Defined.

(** X8.  In no reachable state do [isSpeechPlaying] and [isSpeechPaused]
    both answer true. *)
Theorem playing_excludes_paused (wordsSpokenOf : Z -> Q -> Floored) st :
  Reachable wordsSpokenOf st ->
  ~ (isSpeechPlaying st = true /\ isSpeechPaused st = true).
Proof.
  intro H. apply reachable_settled in H. destruct H as [_ (_ & _ & C & _)].
  unfold isSpeechPlaying, isSpeechPaused. intros [A B].
  rewrite A, B in C. discriminate.
Qed.

Lemma playing_excludes_paused_witness :
  Reachable wordsSpoken playing1 /\
  ~ (isSpeechPlaying playing1 = true /\ isSpeechPaused playing1 = true).
Proof.
  split; [exact playing1_reachable|].
  exact (playing_excludes_paused wordsSpoken playing1 playing1_reachable).
Defined.

(** X9.  In every reachable state the chunks are [buildChunks] of the
    loaded text; so each is within the limit and not blank, and there are
    none exactly when the loaded text is empty or white space. *)
Theorem chunks_follow_text (wordsSpokenOf : Z -> Q -> Floored) st :
  Reachable wordsSpokenOf st ->
  chunks st = buildChunks (currentText st) /\
  Forall (fun c => length c <= MAX_CHUNK_LEN /\ trim c <> []) (chunks st) /\
  (chunks st = [] <->
   Forall (fun c => isWhiteSpace c = true) (currentText st)).
Proof.
  intro H. apply reachable_settled in H.
  destruct H as [_ (_ & _ & _ & _ & E & _)]. split; [exact E|]. rewrite E.
  split; [|split; [apply buildChunks_nil_blank|apply buildChunks_blank]].
  apply Forall_forall. intros c Hc.
  pose proof (buildChunks_bounded (currentText st)) as B.
  pose proof (buildChunks_trim_nonnil (currentText st)) as N.
  rewrite Forall_forall in B, N.
  destruct (B c Hc) as [_ B1]. pose proof (N c Hc) as N1. auto.
Qed.

Lemma chunks_follow_text_witness :
  Reachable wordsSpoken playing1 /\
  chunks playing1 = buildChunks (currentText playing1).
Proof.
  split; [exact playing1_reachable|].
  exact (proj1 (chunks_follow_text wordsSpoken playing1 playing1_reachable)).
Defined.

(** X10.  Every utterance handed to the engine so far carries a session id
    that is at most the current one, a chunk index that is not negative,
    and a text that is not empty and not blank. *)
Theorem utterances_well_tagged (wordsSpokenOf : Z -> Q -> Floored) st :
  Reachable wordsSpokenOf st ->
  forall text v r i sid,
    In (EvSpeak text v r i sid) (log st) ->
    (sid <= sessionId st)%Z /\ (0 <= i)%Z /\ text <> [] /\ trim text <> [].
Proof.
  intros H text v r i sid Hin. apply reachable_settled in H.
  destruct H as [[_ W] (_ & _ & _ & _ & _ & T)].
  rewrite Forall_forall in W, T.
  specialize (W _ Hin). specialize (T _ Hin). cbn in W, T.
  destruct T as [T1 T2]. repeat split; auto.
  intro N. subst. now apply T2.
Qed.

Lemma utterances_well_tagged_witness :
  Reachable wordsSpoken playing1 /\
  forall text v r i sid,
    In (EvSpeak text v r i sid) (log playing1) ->
    (sid <= sessionId playing1)%Z /\ (0 <= i)%Z /\ text <> [] /\ trim text <> [].
Proof.
  split; [exact playing1_reachable|].
  exact (utterances_well_tagged wordsSpoken playing1 playing1_reachable).
Defined.

(** X11.  [getCurrentProgress] in a state reached by calls each run to
    its end before the next one starts: with no chunks it answers chunk 1
    of 0 with progress 0 (the current chunk is then above the total);
    with chunks, [1 <= currentChunk <= totalChunks] and the progress is
    above 0 and at most 1.  A call resumed after another call has run is
    not covered: there the index can pass the number of chunks. *)
Theorem getCurrentProgress_bounds (wordsSpokenOf : Z -> Q -> Floored) st :
  Reachable wordsSpokenOf st ->
  let p := getCurrentProgress st in
  (chunks st = [] ->
     currentChunk p = 1%Z /\ totalChunks p = 0%Z /\ progress p = 0%Q) /\
  (chunks st <> [] ->
     (1 <= currentChunk p <= totalChunks p)%Z /\
     (0 < progress p)%Q /\ (progress p <= 1)%Q).
Proof.
  intro H. apply reachable_settled in H.
  destruct H as [[[W0 W1] _] (_ & _ & _ & D & _)].
  cbv zeta. unfold getCurrentProgress. cbn [currentChunk totalChunks progress].
  split; intro N.
  - rewrite (D N). unfold chunkCount. rewrite N. cbn. auto.
  - specialize (W1 N).
    replace (0 <? chunkCount st)%Z with true by (symmetry; apply Z.ltb_lt; lia).
    split; [lia|]. unfold progressFraction, Qlt, Qle. cbn [Qnum Qden].
    rewrite Z2Pos.id by lia. lia.
Qed.

Lemma getCurrentProgress_bounds_witness :
  Reachable wordsSpoken playing1 /\
  chunks playing1 <> [] /\
  (1 <= currentChunk (getCurrentProgress playing1)
     <= totalChunks (getCurrentProgress playing1))%Z /\
  (0 < progress (getCurrentProgress playing1))%Q /\
  (progress (getCurrentProgress playing1) <= 1)%Q.
Proof.
  split; [exact playing1_reachable|].
  assert (N : chunks playing1 <> []) by (vm_compute; discriminate).
  split; [exact N|].
  exact (proj2 (getCurrentProgress_bounds wordsSpoken playing1
                  playing1_reachable) N).
Defined.

(** *** What one call does to the session id and to the engine *)

Lemma quiet_refl st : quiet st st.
Proof. split; reflexivity. Qed.

Lemma quiet_trans a b c : quiet a b -> quiet b c -> quiet a c.
Proof. intros [A1 A2] [B1 B2]. split; congruence. Qed.

Lemma quiet_updateProgress st : quiet st (updateProgress st).
Proof. progress_cases; split; reflexivity. Qed.

Lemma quiet_ensure st : quiet st (ensurePlaybackPromise st).
Proof.
  unfold ensurePlaybackPromise. destruct (playbackPromise st); split; reflexivity.
Qed.

Lemma quiet_resolve st : quiet st (resolvePlayback st).
Proof.
  unfold resolvePlayback. destruct (playbackPromise st); split; reflexivity.
Qed.

Lemma quiet_finish st : quiet st (finishSession st).
Proof.
  destruct (finishSession_fields st) as (_ & _ & _ & _ & _ & U & [_ _ S _ _]).
  split; assumption.
Qed.

Lemma quiet_oneMore a b : quiet a b -> oneMore a b.
Proof. intros [A B]. split; [exact A|]. unfold spoken. rewrite B. lia. Qed.

Lemma oneMore_chain w i sid st : oneMore st (speakChunkChain w i sid st).
Proof.
  split; [apply sessionId_speakChunkChain|]. unfold spoken.
  split; [|apply speakChunkChain_one_utterance].
  unfold speakChunkChain, finishSession, resolvePlayback.
  destruct (negb (sid =? sessionId st)%Z); [lia|].
  destruct (chunkCount st <=? i)%Z; cbv zeta; progress_cases;
    repeat match goal with
           | |- context [if ?b then _ else _] => destruct b
           end; cbn; lia.
Qed.

Lemma quiet_then_oneMore a b c : quiet a b -> oneMore b c -> oneMore a c.
Proof.
  intros [A1 A2] [B1 B2]. unfold oneMore, spoken in *. split; [congruence|].
  rewrite <- A2. exact B2.
Qed.

Lemma oneMore_then_quiet a b c : oneMore a b -> quiet b c -> oneMore a c.
Proof.
  intros [A1 A2] [B1 B2]. unfold oneMore, spoken in *. split; [congruence|].
  rewrite B2. exact A2.
Qed.

Lemma oneMore_callStep a b : oneMore a b -> callStep a b.
Proof. intros [A B]. split; [lia|exact B]. Qed.

(** After the session id has gone up by one with nothing spoken. *)
Lemma bumped_callStep a b c :
  sessionId b = (sessionId a + 1)%Z ->
  utterances (log b) = utterances (log a) ->
  oneMore b c -> callStep a c.
Proof.
  intros S U [C1 C2]. unfold callStep, spoken in *. split; [lia|]. now rewrite <- U.
Qed.

Lemma startChain_oneMore w w' x :
  oneMore x (run w' (startChain w x)).
Proof.
  unfold startChain. cbn [run].
  eapply quiet_then_oneMore; [apply quiet_ensure|].
  eapply oneMore_then_quiet; [apply oneMore_chain|]. split; reflexivity.
Qed.

Lemma callStep_speakText w w' text p st :
  callStep st (run w' (speakText w text p st)).
Proof.
  unfold speakText.
  destruct (isInitiatingPlayback st) eqn:F;
    [apply oneMore_callStep, quiet_oneMore, quiet_refl|]. cbv zeta.
  destruct (isPaused (set_isInitiatingPlayback true st) &&
            eqb (currentText (set_isInitiatingPlayback true st)) text).
  - rewrite resumeSpeech_guarded by reflexivity. cbn [awaitTask run].
    rewrite flag_round_trip by exact F.
    apply oneMore_callStep, quiet_oneMore, quiet_refl.
  - destruct (eqb (currentText (set_isInitiatingPlayback true st)) text &&
              (0 <? chunkCount (set_isInitiatingPlayback true st))%Z);
      match goal with
      | |- context [if ?b then _ else _] => destruct b
      end; unfold awaitStop; cbn [run];
      (eapply bumped_callStep; [| |apply startChain_oneMore]);
      destruct p; reflexivity.
Qed.

Lemma callStep_restartSpeech w w' text p st :
  callStep st (run w' (restartSpeech w text p st)).
Proof.
  unfold restartSpeech.
  destruct (isInitiatingPlayback st) eqn:F;
    [apply oneMore_callStep, quiet_oneMore, quiet_refl|]. cbv zeta.
  unfold awaitStop. cbn [run].
  (eapply bumped_callStep; [| |apply startChain_oneMore]);
    destruct p; reflexivity.
Qed.

Lemma callStep_resumeSpeech w w' st :
  callStep st (run w' (resumeSpeech w st)).
Proof.
  apply oneMore_callStep. unfold resumeSpeech.
  destruct (isInitiatingPlayback st); [apply quiet_oneMore, quiet_refl|].
  destruct (negb (truthy (currentText st)) || (chunkCount st =? 0)%Z);
    [apply quiet_oneMore, quiet_refl|].
  cbv zeta. unfold awaitStop. cbn [run].
  assert (Man : forall x k, quiet st x ->
    oneMore st (set_isInitiatingPlayback false
                  (ensurePlaybackPromise (speakChunkChain w' k (sessionId x) x)))).
  { intros x k Q. eapply quiet_then_oneMore; [exact Q|].
    eapply oneMore_then_quiet; [apply oneMore_chain|].
    eapply quiet_trans; [apply quiet_ensure|]. split; reflexivity. }
  destruct (negb (android w')); cbn [run].
  - destruct (resumeRejects w'); cbn [run].
    + apply Man. split; reflexivity.
    + apply quiet_oneMore.
      match goal with
      | |- context [updateProgress ?y] => set (x := y)
      end.
      apply quiet_trans with x; [split; reflexivity|].
      apply quiet_trans with (updateProgress x); [apply quiet_updateProgress|].
      apply quiet_trans with (ensurePlaybackPromise (updateProgress x));
        [apply quiet_ensure|split; reflexivity].
  - apply Man. split; reflexivity.
Qed.

Lemma callStep_pauseSpeech w st : callStep st (pauseSpeech w st).
Proof.
  apply oneMore_callStep, quiet_oneMore. unfold pauseSpeech.
  eapply quiet_trans; [|apply quiet_updateProgress].
  destruct (negb (android w)); [destruct (pauseThrows w)|]; split; reflexivity.
Qed.

Lemma callStep_seekToChunk w w' i st :
  callStep st (run w' (seekToChunk w i st)).
Proof.
  unfold seekToChunk.
  destruct (negb (truthy (currentText st)) || (chunkCount st =? 0)%Z);
    [apply oneMore_callStep, quiet_oneMore, quiet_refl|].
  destruct ((i <? 0)%Z || (chunkCount st <=? i)%Z);
    [apply oneMore_callStep, quiet_oneMore, quiet_refl|].
  cbv zeta. unfold awaitStop. cbn [run].
  set (x := updateProgress _).
  assert (X : sessionId x = (sessionId st + 1)%Z /\
              utterances (log x) = utterances (log st)).
  { subst x. progress_cases; split; reflexivity. }
  destruct X as [X1 X2].
  destruct (isPlaying st || isPaused st); cbn [run].
  - eapply bumped_callStep; [exact X1|exact X2|].
    eapply quiet_then_oneMore; [apply quiet_ensure|apply oneMore_chain].
  - eapply bumped_callStep; [exact X1|exact X2|].
    apply quiet_oneMore, quiet_refl.
Qed.

Lemma callStep_onDone w i sid st : callStep st (onDone w i sid st).
Proof.
  apply oneMore_callStep. unfold onDone.
  destruct (negb (sid =? sessionId st)%Z); [apply quiet_oneMore, quiet_refl|].
  destruct (isPaused st); [apply quiet_oneMore, quiet_refl|]. cbv zeta.
  destruct (i + 1 <? chunkCount (set_chunkStart None None st))%Z.
  - eapply quiet_then_oneMore; [|apply oneMore_chain]. split; reflexivity.
  - apply quiet_oneMore. eapply quiet_trans; [|apply quiet_finish].
    split; reflexivity.
Qed.

Lemma callStep_onStopped sid st : callStep st (onStopped sid st).
Proof.
  apply oneMore_callStep, quiet_oneMore. unfold onStopped.
  destruct (negb (sid =? sessionId st)%Z); [apply quiet_refl|]. cbv zeta.
  destruct (negb _); [|split; reflexivity].
  eapply quiet_trans; [|apply quiet_resolve].
  eapply quiet_trans; [|apply quiet_updateProgress]. split; reflexivity.
Qed.

Lemma callStep_onError sid st : callStep st (onError sid st).
Proof.
  apply oneMore_callStep, quiet_oneMore. unfold onError.
  destruct (negb (sid =? sessionId st)%Z); [apply quiet_refl|].
  eapply quiet_trans; [|apply quiet_resolve].
  eapply quiet_trans; [|apply quiet_updateProgress]. split; reflexivity.
Qed.

Section Estimate.

Variable wordsSpokenOf : Z -> Q -> Floored.

Lemma callStep_setPreferences w w' p st :
  callStep st (run w' (setPreferences wordsSpokenOf w p st)).
Proof.
  destruct (isPlaying st || isPaused st) eqn:Act.
  - rewrite setPreferences_active by exact Act. cbv zeta.
    destruct (estimateOffset_frame wordsSpokenOf w (set_currentPreferences p st))
      as ([_ _ F3 _ _] & _ & _ & F8).
    set (st1 := estimateOffset wordsSpokenOf w (set_currentPreferences p st)) in *.
    set (st2 := emit EvStop (set_sessionId (sessionId st + 1) st1)).
    replace (sessionId st + 1)%Z with (sessionId (ensurePlaybackPromise st2))
      at 2 by (unfold ensurePlaybackPromise; now destruct (playbackPromise st2)).
    eapply (bumped_callStep st (ensurePlaybackPromise st2));
      [| |apply oneMore_chain].
    + unfold ensurePlaybackPromise. now destruct (playbackPromise st2).
    + unfold ensurePlaybackPromise.
      destruct (playbackPromise st2); subst st2; cbn; now rewrite F8.
  - rewrite setPreferences_idle by exact Act. cbn [run].
    apply oneMore_callStep, quiet_oneMore. split; reflexivity.
Qed.

(** X12.  Whatever the state, one call of the controller or one callback
    of the engine leaves the session id as it is or one higher, never
    lower, and hands at most one utterance to the engine. *)
Theorem call_bumps_and_speaks_at_most_once w w' c st :
  let st' := exec wordsSpokenOf w w' c st in
  (sessionId st <= sessionId st' <= sessionId st + 1)%Z /\
  spoken st <= spoken st' <= S (spoken st).
Proof.
  cbv zeta. change (callStep st (exec wordsSpokenOf w w' c st)).
  destruct c; cbn [exec].
  - apply callStep_speakText.
  - apply callStep_pauseSpeech.
  - apply callStep_resumeSpeech.
  - apply callStep_restartSpeech.
  - apply callStep_seekToChunk.
  - apply callStep_setPreferences.
  - apply oneMore_callStep, quiet_oneMore. split; reflexivity.
  - apply callStep_onDone.
  - apply callStep_onStopped.
  - apply callStep_onError.
Qed.

End Estimate.

(* ===================================================================== *)
(** ** Starting, advancing, ending *)
(* ===================================================================== *)

(** The event of the utterance, under the conditions of
    [speakChunkChain_speaks]. *)
Lemma speakChunkChain_event w i st text :
  (0 <= i < chunkCount st)%Z ->
  overrideFirstChunk st = None ->
  chunkAt st i = Some text ->
  trim text <> [] ->
  hd_error (log (speakChunkChain w i (sessionId st) st)) =
  Some (EvSpeak text (voiceOption (currentPreferences st))
          (rateOrDefault (currentPreferences st)) i (sessionId st)).
Proof.
  intros Hi Hov Hc Hb. unfold speakChunkChain.
  rewrite Z.eqb_refl. cbn [negb].
  replace (chunkCount st <=? i)%Z with false by (symmetry; apply Z.leb_gt; lia).
  cbv zeta.
  assert (Ht : negb (truthy text) || (length (trim text) =? 0) = false).
  { destruct text as [|c r]; [now destruct Hb|].
    destruct (trim (c :: r)); [now destruct Hb|reflexivity]. }
  unfold chunkAt in *.
  progress_cases; cbn -[trim Nat.eqb truthy]; rewrite Hov;
    cbn -[trim Nat.eqb truthy]; rewrite Hc;
    cbn -[trim Nat.eqb truthy]; rewrite Ht; reflexivity.
Qed.

Lemma chunkAt_first x c rest : chunks x = c :: rest -> chunkAt x 0 = Some c.
Proof. unfold chunkAt. intros ->. reflexivity. Qed.

Lemma startChain_fresh w w' text p st x :
  overrideFirstChunk x = None ->
  currentText x = text -> chunks x = buildChunks text ->
  sessionId x = (sessionId st + 1)%Z ->
  currentPreferences x = preferencesAfter p st ->
  utterances (log x) = utterances (log st) ->
  startedFromTop text p st (run w' (startChain w x)).
Proof.
  intros O T C S P U. unfold startChain. cbn [run].
  set (y := ensurePlaybackPromise x).
  assert (Y : overrideFirstChunk y = None /\ currentText y = text /\
              chunks y = buildChunks text /\ sessionId y = (sessionId st + 1)%Z /\
              currentPreferences y = preferencesAfter p st /\
              utterances (log y) = utterances (log st) /\
              playbackPromise y = true /\ sessionId x = sessionId y).
  { subst y. unfold ensurePlaybackPromise.
    destruct (playbackPromise x) eqn:E; cbn; repeat split; auto. }
  destruct Y as (Y1 & Y2 & Y3 & Y4 & Y5 & Y6 & Y7 & Y8). rewrite Y8.
  destruct (speakChunkChain_frame w 0 (sessionId y) y) as [F1 F2 F3 F4 F5].
  unfold startedFromTop.
  destruct (buildChunks text) as [|first rest] eqn:B.
  - assert (E : speakChunkChain w 0 (sessionId y) y = finishSession y).
    { apply speakChunkChain_finishes. unfold chunkCount. rewrite Y3. cbn. lia. }
    destruct (finishSession_fields y) as (A1 & A2 & A3 & A4 & A5 & A6 & _).
    rewrite <- E in A1, A2, A3, A4, A5, A6.
    set (z := speakChunkChain w 0 (sessionId y) y) in *. clearbody z.
    cbn. repeat split; congruence.
  - assert (Hb : trim first <> []).
    { pose proof (buildChunks_trim_nonnil text) as N. rewrite B in N.
      inversion N; subst. assumption. }
    assert (Hr : (0 <= 0 < chunkCount y)%Z)
      by (unfold chunkCount; rewrite Y3; cbn [length]; lia).
    destruct (speakChunkChain_speaks w 0 y first Hr Y1
                (chunkAt_first y _ _ Y3) Hb)
      as (A1 & A2 & A3 & _ & A5 & _ & _ & A8 & _ & A10).
    pose proof (speakChunkChain_event w 0 y first Hr Y1
                  (chunkAt_first y _ _ Y3) Hb) as Ev.
    set (z := speakChunkChain w 0 (sessionId y) y) in *. clearbody z.
    rewrite Y5, Y4 in Ev.
    cbn. repeat split; congruence.
Qed.

(** X13.  [restartSpeech(text, preferences)], entered with the flag clear
    and no override pending: the text is loaded and chunked afresh, the
    index is 0, the session id one higher, the preferences replaced when
    given, the flag clear again.  With no chunk (blank text) the session
    is idle at once, its promise resolved, nothing spoken; otherwise it
    plays and the last engine call is the utterance of the first chunk
    with the voice and rate of the preferences now in force. *)
Theorem restart_starts_from_top w w' text p st :
  isInitiatingPlayback st = false ->
  overrideFirstChunk st = None ->
  startedFromTop text p st (run w' (restartSpeech w text p st)).
Proof.
  intros F O. unfold restartSpeech. rewrite F. cbv zeta.
  unfold awaitStop. cbn [run].
  apply startChain_fresh; destruct p; cbn; auto.
Qed.

Lemma speakText_fresh w w' text p st :
  isInitiatingPlayback st = false ->
  overrideFirstChunk st = None ->
  chunks st = buildChunks (currentText st) ->
  isPaused st && eqb (currentText st) text = false ->
  startedFromTop text p st (run w' (speakText w text p st)).
Proof.
  intros F O C N. unfold speakText. rewrite F. cbv zeta.
  replace (isPaused (set_isInitiatingPlayback true st) &&
           eqb (currentText (set_isInitiatingPlayback true st)) text)
    with false by (symmetry; exact N).
  destruct (eqb (currentText (set_isInitiatingPlayback true st)) text &&
            (0 <? chunkCount (set_isInitiatingPlayback true st))%Z) eqn:Same.
  - apply andb_true_iff in Same. destruct Same as [Same _].
    apply eqb_eq in Same. cbn in Same.
    match goal with
    | |- context [if ?b then _ else _] => destruct b
    end; unfold awaitStop; cbn [run]; apply startChain_fresh;
      destruct p; cbn; auto; congruence.
  - match goal with
    | |- context [if ?b then _ else _] => destruct b
    end; unfold awaitStop; cbn [run]; apply startChain_fresh;
      destruct p; cbn; auto.
Qed.

(** X14.  [speakText(text, preferences)] does the same whenever it does
    not find the session paused on that very text, in a state whose
    chunks are those of its text: a new text, or the same text again,
    starts from chunk 0 under a new session id. *)
Theorem speakText_starts_from_top w w' text p st :
  isInitiatingPlayback st = false ->
  overrideFirstChunk st = None ->
  chunks st = buildChunks (currentText st) ->
  isPaused st = false \/ currentText st <> text ->
  startedFromTop text p st (run w' (speakText w text p st)).
Proof.
  intros F O C N. apply speakText_fresh; auto.
  destruct N as [-> | N]; [reflexivity|].
  apply andb_false_iff. right. unfold eqb.
  destruct (list_eq_dec N.eq_dec (currentText st) text); congruence.
Qed.

Lemma onDone_next w k st next :
  isPaused st = false -> overrideFirstChunk st = None ->
  (0 <= k)%Z -> chunkAt st (k + 1) = Some next -> trim next <> [] ->
  let st' := onDone w k (sessionId st) st in
  currentChunkIndex st' = (k + 1)%Z /\
  isPlaying st' = true /\ isPaused st' = false /\
  overrideFirstChunk st' = None /\
  sessionId st' = sessionId st /\ chunks st' = chunks st /\
  utterances (log st') = (next, (k + 1)%Z, sessionId st) :: utterances (log st).
Proof.
  intros P O K C B. cbv zeta. unfold onDone.
  rewrite Z.eqb_refl, P. cbn [negb]. cbv zeta.
  pose proof (chunkAt_in_range _ _ _ C) as R.
  replace (k + 1 <? chunkCount (set_chunkStart None None st))%Z with true
    by (symmetry; apply Z.ltb_lt; exact (proj2 R)).
  assert (R' : (0 <= k + 1 < chunkCount (set_chunkStart None None st))%Z)
    by (split; [lia|exact (proj2 R)]).
  pose proof (speakChunkChain_speaks w (k + 1) (set_chunkStart None None st)
                next R' O C B)
    as (A1 & A2 & A3 & [_ S2 S3 _ _] & A5 & _ & _ & _ & _ & A10).
  repeat split; assumption.
Qed.

Lemma onDone_last w k st :
  isPaused st = false -> (chunkCount st <= k + 1)%Z ->
  let st' := onDone w k (sessionId st) st in
  ended st' /\
  overrideFirstChunk st' = overrideFirstChunk st /\
  sessionId st' = sessionId st /\ chunks st' = chunks st /\
  utterances (log st') = utterances (log st).
Proof.
  intros P K. cbv zeta. unfold onDone.
  rewrite Z.eqb_refl, P. cbn [negb]. cbv zeta.
  replace (k + 1 <? chunkCount (set_chunkStart None None st))%Z with false
    by (symmetry; apply Z.ltb_ge; exact K).
  destruct (finishSession_fields (set_chunkStart None None st))
    as (A1 & A2 & A3 & A4 & A5 & A6 & [_ S2 S3 _ _]).
  unfold ended. repeat split; auto.
Qed.

(** X15.  The [onDone] of the current session for chunk [k]: while the
    session is paused it changes nothing; otherwise, if chunk [k + 1]
    exists it becomes the current chunk and is spoken, and if chunk [k]
    was the last the session ends: idle, index 0, promise resolved,
    nothing more spoken. *)
Theorem onDone_advances_or_ends w k st :
  (0 <= k)%Z ->
  (isPaused st = true -> onDone w k (sessionId st) st = st) /\
  (isPaused st = false -> overrideFirstChunk st = None ->
   forall next,
     chunkAt st (k + 1) = Some next -> trim next <> [] ->
     let st' := onDone w k (sessionId st) st in
     currentChunkIndex st' = (k + 1)%Z /\ isPlaying st' = true /\
     utterances (log st') =
       (next, (k + 1)%Z, sessionId st) :: utterances (log st)) /\
  (isPaused st = false -> (chunkCount st <= k + 1)%Z ->
   let st' := onDone w k (sessionId st) st in
   ended st' /\ utterances (log st') = utterances (log st)).
Proof.
  intro K. split; [|split].
  - intro P. unfold onDone. now rewrite Z.eqb_refl, P.
  - intros P O next C B.
    destruct (onDone_next w k st next P O K C B) as (A & B' & _ & _ & _ & _ & U).
    auto.
  - intros P L. destruct (onDone_last w k st P L) as (A & _ & _ & _ & U). auto.
Qed.

Lemma onDone_advances_or_ends_witness :
  (0 <= 1)%Z /\ isPaused playing1 = false /\
  overrideFirstChunk playing1 = None /\
  chunkAt playing1 (1 + 1) = Some (repeat 99%N 500 ++ str ".") /\
  trim (repeat 99%N 500 ++ str ".") <> [] /\
  currentChunkIndex (onDone (androidAt 9000) 1 (sessionId playing1) playing1)
  = (1 + 1)%Z.
Proof.
  assert (H0 : (0 <= 1)%Z) by lia.
  assert (H1 : isPaused playing1 = false) by (vm_compute; reflexivity).
  assert (H2 : overrideFirstChunk playing1 = None) by (vm_compute; reflexivity).
  assert (H3 : chunkAt playing1 (1 + 1) = Some (repeat 99%N 500 ++ str "."))
    by (vm_compute; reflexivity).
  assert (H4 : trim (repeat 99%N 500 ++ str ".") <> [])
    by (vm_compute; discriminate).
  split; [exact H0|]. split; [exact H1|]. split; [exact H2|].
  split; [exact H3|]. split; [exact H4|].
  destruct (onDone_advances_or_ends (androidAt 9000) 1 playing1 H0)
    as (_ & A & _).
  exact (proj1 (A H1 H2 _ H3 H4)).
Defined.

(** *** Playing through *)

Lemma numbered_skipn sid cs : forall k c,
  nth_error cs k = Some c ->
  numbered sid k (skipn k cs)
  = (c, Z.of_nat k, sid) :: numbered sid (S k) (skipn (S k) cs).
Proof.
  intros k c H.
  assert (E : skipn k cs = c :: skipn (S k) cs).
  { revert k H. induction cs as [|d cs IH]; intros [|k] H; cbn in H;
      try discriminate.
    - now inversion H.
    - cbn [skipn]. now apply IH. }
  rewrite E. reflexivity.
Qed.

Lemma narrate_from w sid : forall n k st,
  sessionId st = sid -> isPaused st = false ->
  overrideFirstChunk st = None ->
  Forall (fun c => trim c <> []) (chunks st) ->
  k + n = length (chunks st) -> 0 < n ->
  let st' := narrate w sid k n st in
  ended st' /\ chunks st' = chunks st /\ sessionId st' = sid /\
  utterances (log st')
  = rev (numbered sid (S k) (skipn (S k) (chunks st))) ++ utterances (log st).
Proof.
  induction n as [|n IH]; intros k st S P O B L N; [lia|].
  cbv zeta. cbn [narrate]. subst sid.
  destruct n as [|n].
  - cbn [narrate].
    destruct (onDone_last w (Z.of_nat k) st P) as (A1 & _ & A3 & A4 & A5).
    { unfold chunkCount. lia. }
    repeat split; try apply A1; auto.
    rewrite skipn_all2 by lia. cbn. exact A5.
  - destruct (nth_error (chunks st) (S k)) as [next|] eqn:Nx.
    2:{ apply nth_error_None in Nx. lia. }
    assert (Hb : trim next <> []).
    { rewrite Forall_forall in B. apply B. eapply nth_error_In; eauto. }
    assert (C : chunkAt st (Z.of_nat k + 1) = Some next).
    { unfold chunkAt.
      replace (Z.of_nat k + 1 <? 0)%Z with false
        by (symmetry; apply Z.ltb_ge; lia).
      replace (Z.to_nat (Z.of_nat k + 1)) with (S k) by lia. exact Nx. }
    destruct (onDone_next w (Z.of_nat k) st next P O ltac:(lia) C Hb)
      as (_ & _ & A3 & A4 & A5 & A6 & A7).
    set (st1 := onDone w (Z.of_nat k) (sessionId st) st) in *.
    assert (B1 : Forall (fun c => trim c <> []) (chunks st1))
      by (now rewrite A6).
    assert (L1 : S k + S n = length (chunks st1)) by (rewrite A6; lia).
    destruct (IH (S k) st1 A5 A3 A4 B1 L1 ltac:(lia)) as (E & E2 & E3 & E4).
    split; [exact E|]. split; [congruence|]. split; [exact E3|].
    rewrite E4, A6, A7.
    rewrite (numbered_skipn (sessionId st) (chunks st) (S k) next Nx).
    cbn [rev]. rewrite <- app_assoc. cbn [app].
    replace (Z.of_nat k + 1)%Z with (Z.of_nat (S k)) by lia. reflexivity.
Qed.

(** X16.  After [restartSpeech(text)], when the engine reports each
    utterance done in turn, the utterances handed to the engine are the
    chunks of the text, each once, in order, under the new session id,
    and the session has ended. *)
Theorem play_through w w' w'' text p st :
  isInitiatingPlayback st = false ->
  overrideFirstChunk st = None ->
  let started := run w' (restartSpeech w text p st) in
  let st' := narrate w'' (sessionId st + 1) 0
               (length (buildChunks text)) started in
  ended st' /\
  utterances (log st')
  = rev (numbered (sessionId st + 1) 0 (buildChunks text))
    ++ utterances (log st).
Proof.
  intros F O. cbv zeta.
  assert (T : startedFromTop text p st (run w' (restartSpeech w text p st))).
  { unfold restartSpeech. rewrite F. cbv zeta. unfold awaitStop. cbn [run].
    apply startChain_fresh; destruct p; cbn; auto. }
  destruct T as (T1 & T2 & T3 & T4 & T5 & T6 & T7 & T8 & T9).
  set (started := run w' (restartSpeech w text p st)) in *.
  destruct (buildChunks text) as [|first rest] eqn:B.
  - cbn [length narrate numbered rev app].
    destruct T9 as (A & A' & U). unfold ended. auto.
  - destruct T9 as (A & A' & U & _).
    assert (Nb : Forall (fun c => trim c <> []) (chunks started)).
    { rewrite T2. pose proof (buildChunks_trim_nonnil text) as N.
      rewrite B in N. exact N. }
    destruct (narrate_from w'' (sessionId st + 1) (length (first :: rest)) 0
                started T3 T5 T7 Nb) as (E & _ & _ & E4).
    + now rewrite T2.
    + cbn [length]. lia.
    + split; [exact E|]. rewrite E4, T2, U.
      cbn [skipn numbered rev]. rewrite <- app_assoc. reflexivity.
Qed.

Lemma play_through_witness :
  let started := run (androidAt 1000)
                   (restartSpeech (androidAt 1000) story None initialState) in
  let st' := narrate (androidAt 2000) 1 0 3 started in
  isInitiatingPlayback initialState = false /\
  overrideFirstChunk initialState = None /\
  map (fun u => snd (fst u)) (utterances (log st')) = [2; 1; 0]%Z /\
  isPlaying st' = false.
Proof.
  assert (H1 : isInitiatingPlayback initialState = false) by reflexivity.
  assert (H2 : overrideFirstChunk initialState = None) by reflexivity.
  cbv zeta. split; [exact H1|]. split; [exact H2|].
  pose proof (play_through (androidAt 1000) (androidAt 1000) (androidAt 2000)
                story None initialState H1 H2) as [E U].
  cbv zeta in E, U.
  replace (length (buildChunks story)) with 3 in E, U
    by (vm_compute; reflexivity).
  change (sessionId initialState + 1)%Z with 1%Z in E, U.
  split; [|apply E]. rewrite U. vm_compute. reflexivity.
Defined.

Lemma restart_starts_from_top_witness :
  isInitiatingPlayback paused1 = false /\
  overrideFirstChunk paused1 = None /\
  startedFromTop story (Some slower) paused1
    (run (androidAt 9000) (restartSpeech (androidAt 9000) story (Some slower) paused1)).
Proof.
  assert (H1 : isInitiatingPlayback paused1 = false) by (vm_compute; reflexivity).
  assert (H2 : overrideFirstChunk paused1 = None) by (vm_compute; reflexivity).
  split; [exact H1|]. split; [exact H2|].
  exact (restart_starts_from_top (androidAt 9000) (androidAt 9000) story
           (Some slower) paused1 H1 H2).
Defined.

Lemma speakText_starts_from_top_witness :
  isInitiatingPlayback paused1 = false /\
  overrideFirstChunk paused1 = None /\
  chunks paused1 = buildChunks (currentText paused1) /\
  (isPaused paused1 = false \/ currentText paused1 <> tenWords) /\
  startedFromTop tenWords None paused1
    (run (androidAt 9000) (speakText (androidAt 9000) tenWords None paused1)).
Proof.
  assert (H1 : isInitiatingPlayback paused1 = false) by (vm_compute; reflexivity).
  assert (H2 : overrideFirstChunk paused1 = None) by (vm_compute; reflexivity).
  assert (H3 : chunks paused1 = buildChunks (currentText paused1))
    by (vm_compute; reflexivity).
  assert (H4 : isPaused paused1 = false \/ currentText paused1 <> tenWords).
  { right. intro E. apply (f_equal (@length _)) in E. vm_compute in E.
    discriminate. }
  split; [exact H1|]. split; [exact H2|]. split; [exact H3|].
  split; [exact H4|].
  exact (speakText_starts_from_top (androidAt 9000) (androidAt 9000) tenWords
           None paused1 H1 H2 H3 H4).
Defined.

(** X17.  [setPreferences] on an idle session only replaces the
    preferences, with no engine call.  On a playing or paused session
    with no chunk-start snapshot (the engine has reported the chunk
    stopped) it makes the session play: the current chunk is spoken again
    in full, under a new session id, with the new voice and rate. *)
Theorem setPreferences_idle_or_without_snapshot
  (wordsSpokenOf : Z -> Q -> Floored) w w' p st :
  (isPlaying st || isPaused st = false ->
   setPreferences wordsSpokenOf w p st
   = Return (set_currentPreferences p st)) /\
  (isPlaying st || isPaused st = true ->
   chunkStartTime st = None ->
   overrideFirstChunk st = None ->
   forall text,
     chunkAt st (currentChunkIndex st) = Some text -> trim text <> [] ->
     let st' := run w' (setPreferences wordsSpokenOf w p st) in
     currentChunkIndex st' = currentChunkIndex st /\
     isPlaying st' = true /\ isPaused st' = false /\
     sessionId st' = (sessionId st + 1)%Z /\
     currentPreferences st' = p /\
     hd_error (log st') =
       Some (EvSpeak text (voiceOption p) (rateOrDefault p)
               (currentChunkIndex st) (sessionId st + 1))).
Proof.
  split; [apply setPreferences_idle|].
  intros Act T O text C B. cbv zeta.
  rewrite setPreferences_active by exact Act. cbv zeta.
  assert (E : estimateOffset wordsSpokenOf w (set_currentPreferences p st)
              = set_currentPreferences p st).
  { unfold estimateOffset. cbn. now rewrite T. }
  rewrite E.
  set (mid := ensurePlaybackPromise
                (emit EvStop
                   (set_sessionId (sessionId st + 1)
                      (set_currentPreferences p st)))).
  assert (M : sessionId mid = (sessionId st + 1)%Z /\
              chunks mid = chunks st /\ overrideFirstChunk mid = None /\
              currentPreferences mid = p).
  { subst mid. unfold ensurePlaybackPromise.
    destruct (playbackPromise _); cbn; auto. }
  destruct M as (M1 & M2 & M3 & M4).
  cbn [currentChunkIndex emit set_sessionId set_currentPreferences].
  rewrite <- M1.
  assert (C' : chunkAt mid (currentChunkIndex st) = Some text)
    by (unfold chunkAt in *; now rewrite M2).
  pose proof (chunkAt_in_range _ _ _ C') as R.
  destruct (speakChunkChain_speaks w' _ mid text R M3 C' B)
    as (A1 & A2 & A3 & [_ _ S3 S4 _] & _).
  rewrite (speakChunkChain_event w' _ mid text R M3 C' B), M4.
  repeat split; congruence.
Qed.

Lemma setPreferences_idle_or_without_snapshot_witness :
  let st' := run (androidAt 9000)
               (setPreferences wordsSpoken (androidAt 9000) slower stopped1) in
  isPlaying stopped1 || isPaused stopped1 = true /\
  chunkStartTime stopped1 = None /\
  overrideFirstChunk stopped1 = None /\
  chunkAt stopped1 (currentChunkIndex stopped1)
  = Some (repeat 98%N 500 ++ str ".") /\
  trim (repeat 98%N 500 ++ str ".") <> [] /\
  isPlaying st' = true /\
  hd_error (log st') =
    Some (EvSpeak (repeat 98%N 500 ++ str ".")
            (Some (str "en-us-x-sfg-local")) (3 # 4)%Q 1 2).
Proof.
  assert (H1 : isPlaying stopped1 || isPaused stopped1 = true)
    by (vm_compute; reflexivity).
  assert (H2 : chunkStartTime stopped1 = None) by (vm_compute; reflexivity).
  assert (H3 : overrideFirstChunk stopped1 = None) by (vm_compute; reflexivity).
  assert (H4 : chunkAt stopped1 (currentChunkIndex stopped1)
               = Some (repeat 98%N 500 ++ str ".")) by (vm_compute; reflexivity).
  assert (H5 : trim (repeat 98%N 500 ++ str ".") <> [])
    by (vm_compute; discriminate).
  cbv zeta. split; [exact H1|]. split; [exact H2|]. split; [exact H3|].
  split; [exact H4|]. split; [exact H5|].
  destruct (proj2 (setPreferences_idle_or_without_snapshot wordsSpoken
                     (androidAt 9000) (androidAt 9000) slower stopped1)
              H1 H2 H3 _ H4 H5) as (_ & A & _ & _ & _ & Ev).
  split; [exact A|]. rewrite Ev. vm_compute. reflexivity.
Defined.

(** X18.  [handlePlay] of the story screen.  When the controller is
    paused it calls [resumeSpeech]: the index and the session id are
    kept, the session plays, and on Android (or when the engine's
    [resume] rejects) the current chunk is spoken.  When neither the
    screen nor the controller is paused it calls [speakText] with the
    screen's preferences, which starts from chunk 0. *)
Theorem handlePlay_resumes_or_starts w w' uiPaused content prefs st :
  isInitiatingPlayback st = false ->
  overrideFirstChunk st = None ->
  (isSpeechPaused st = true ->
   currentText st <> [] ->
   forall text,
     chunkAt st (currentChunkIndex st) = Some text -> trim text <> [] ->
     let st' := run w' (handlePlay w uiPaused content prefs st) in
     currentChunkIndex st' = currentChunkIndex st /\
     isPlaying st' = true /\ isPaused st' = false /\
     sessionId st' = sessionId st /\
     (if android w' || resumeRejects w'
      then utterances (log st') =
             (text, currentChunkIndex st, sessionId st) :: utterances (log st)
      else utterances (log st') = utterances (log st) /\
           In EvResume (log st'))) /\
  (isSpeechPaused st = false -> uiPaused = false ->
   chunks st = buildChunks (currentText st) ->
   startedFromTop content (Some prefs) st
     (run w' (handlePlay w uiPaused content prefs st))).
Proof.
  intros F O. split.
  - intros P T text C B. cbv zeta. unfold handlePlay. cbv zeta.
    rewrite P, orb_true_r.
    pose proof (chunkAt_in_range _ _ _ C) as R.
    destruct (resumeSpeech_from w w' st st (currentChunkIndex st) text)
      as (A1 & A2 & A3 & A4 & _ & A6); auto.
  - intros P U C. unfold handlePlay. cbv zeta. rewrite P, U. cbn [orb].
    apply speakText_fresh; auto.
    unfold isSpeechPaused in P. now rewrite P.
Qed.

Lemma handlePlay_resumes_or_starts_witness :
  let st' := run (androidAt 9000)
               (handlePlay (androidAt 9000) false story slower paused1) in
  isInitiatingPlayback paused1 = false /\
  overrideFirstChunk paused1 = None /\
  isSpeechPaused paused1 = true /\ currentText paused1 <> [] /\
  chunkAt paused1 (currentChunkIndex paused1)
  = Some (repeat 98%N 500 ++ str ".") /\
  trim (repeat 98%N 500 ++ str ".") <> [] /\
  currentChunkIndex st' = 1%Z /\ isPlaying st' = true.
Proof.
  assert (H1 : isInitiatingPlayback paused1 = false) by (vm_compute; reflexivity).
  assert (H2 : overrideFirstChunk paused1 = None) by (vm_compute; reflexivity).
  assert (H3 : isSpeechPaused paused1 = true) by (vm_compute; reflexivity).
  assert (H4 : currentText paused1 <> []) by (vm_compute; discriminate).
  assert (H5 : chunkAt paused1 (currentChunkIndex paused1)
               = Some (repeat 98%N 500 ++ str ".")) by (vm_compute; reflexivity).
  assert (H6 : trim (repeat 98%N 500 ++ str ".") <> [])
    by (vm_compute; discriminate).
  cbv zeta. split; [exact H1|]. split; [exact H2|]. split; [exact H3|].
  split; [exact H4|]. split; [exact H5|]. split; [exact H6|].
  destruct (proj1 (handlePlay_resumes_or_starts (androidAt 9000) (androidAt 9000)
                     false story slower paused1 H1 H2) H3 H4 _ H5 H6)
    as (A & B & _).
  split; [|exact B]. rewrite A. vm_compute. reflexivity.
Defined.

(* ===================================================================== *)
(** ** Choosing voices *)
(* ===================================================================== *)

Import VoiceMapping.

Lemma startsWith_refl s : startsWith s s = true.
Proof. induction s as [|c s IH]; [reflexivity|]. cbn. now rewrite N.eqb_refl. Qed.

Lemma eqb_startsWith a b : eqb a b = true -> startsWith a b = true.
Proof. intro H. apply eqb_eq in H. subst. apply startsWith_refl. Qed.

Lemma find_none_weaker {A} (f g : A -> bool) l :
  (forall x, f x = true -> g x = true) ->
  find g l = None -> find f l = None.
Proof.
  intros Hfg Hg. induction l as [|x l IH]; [reflexivity|].
  cbn in *. destruct (g x) eqn:G; [discriminate|].
  destruct (f x) eqn:F; [|now apply IH].
  rewrite (Hfg x F) in G. discriminate.
Qed.

(** X19.  [chooseDefaultVoice] answers [undefined] exactly when no voice
    has a language tag starting with the target; otherwise it answers the
    identifier of such a voice, a female one if there is any, and one
    whose tag is the target itself if a female voice has that tag. *)
Theorem chooseDefaultVoice_picks mapped targetLang :
  (chooseDefaultVoice mapped targetLang = None <->
   forall m, In m mapped -> startsWith (languageTag m) targetLang = false) /\
  (forall id,
     chooseDefaultVoice mapped targetLang = Some id ->
     exists m,
       In m mapped /\ identifier m = id /\
       startsWith (languageTag m) targetLang = true /\
       ((exists f, In f mapped /\ VoiceMapping.gender f = female /\
                   startsWith (languageTag f) targetLang = true) ->
        VoiceMapping.gender m = female) /\
       ((exists f, In f mapped /\ VoiceMapping.gender f = female /\
                   languageTag f = targetLang) ->
        languageTag m = targetLang)).
Proof.
  unfold chooseDefaultVoice.
  set (fExact := fun m => eqb (languageTag m) targetLang
                          && genderEqb (VoiceMapping.gender m) female).
  set (fPrim := fun m => startsWith (languageTag m) targetLang
                         && genderEqb (VoiceMapping.gender m) female).
  set (fAny := fun m => startsWith (languageTag m) targetLang).
  assert (Gf : forall g, genderEqb g female = true <-> g = female)
    by (intros []; cbn; split; congruence).
  split.
  - split.
    + intros H m Hin.
      destruct (find fExact mapped) eqn:E1; [discriminate|].
      destruct (find fPrim mapped) eqn:E2; [discriminate|].
      destruct (find fAny mapped) eqn:E3; [discriminate|].
      exact (find_none _ _ E3 m Hin).
    + intro H.
      assert (E3 : find fAny mapped = None).
      { destruct (find fAny mapped) as [m|] eqn:E; [|reflexivity].
        apply find_some in E. destruct E as [Hin Hm].
        unfold fAny in Hm. rewrite (H m Hin) in Hm. discriminate. }
      rewrite (find_none_weaker fExact fAny mapped), 
              (find_none_weaker fPrim fAny mapped), E3; auto.
      * intros x Hx. unfold fPrim in Hx. apply andb_true_iff in Hx. apply Hx.
      * intros x Hx. unfold fExact in Hx. apply andb_true_iff in Hx.
        apply eqb_startsWith. apply Hx.
  - intros id H.
    destruct (find fExact mapped) as [m|] eqn:E1.
    { inversion H; subst. apply find_some in E1. destruct E1 as [Hin Hm].
      unfold fExact in Hm. apply andb_true_iff in Hm. destruct Hm as [A B].
      exists m. repeat split; auto.
      - now apply eqb_startsWith.
      - intros _. now apply Gf.
      - intros _. now apply eqb_eq. }
    destruct (find fPrim mapped) as [m|] eqn:E2.
    { inversion H; subst. apply find_some in E2. destruct E2 as [Hin Hm].
      unfold fPrim in Hm. apply andb_true_iff in Hm. destruct Hm as [A B].
      exists m. repeat split; auto.
      - intros _. now apply Gf.
      - intros (f & Hf & Gn & Tg). exfalso.
        pose proof (find_none _ _ E1 f Hf) as X. unfold fExact in X.
        rewrite Gn, Tg, eqb_refl in X. discriminate. }
    destruct (find fAny mapped) as [m|] eqn:E3; [|discriminate].
    inversion H; subst. apply find_some in E3. destruct E3 as [Hin Hm].
    exists m. repeat split; auto.
    + intros (f & Hf & Gn & Tg). exfalso.
      pose proof (find_none _ _ E2 f Hf) as X. unfold fPrim in X.
      rewrite Gn, Tg in X. discriminate.
    + intros (f & Hf & Gn & Tg). exfalso.
      pose proof (find_none _ _ E1 f Hf) as X. unfold fExact in X.
      rewrite Gn, Tg, eqb_refl in X. discriminate.
Qed.

(* ===================================================================== *)
(** ** The fallback over models *)
(* ===================================================================== *)

Import OpenRouter.

Lemma tryModels_returns call models : forall lastErr story,
  snd (tryModels call models lastErr) = Returned story ->
  exists before m after,
    models = before ++ m :: after /\
    Forall (fun x => failed (call x) = true) before /\
    call m = Returned story /\
    fst (tryModels call models lastErr) = before ++ [m].
Proof.
  induction models as [|m rest IH]; intros lastErr story H; [discriminate|].
  cbn [tryModels] in *. destruct (call m) as [s|e] eqn:C.
  - cbn in H. inversion H; subst. exists [], m, rest. cbn. auto.
  - destruct (tryModels call rest (Some e)) as [called outcome] eqn:T.
    cbn [snd fst] in *.
    specialize (IH (Some e) story). rewrite T in IH. cbn [snd fst] in IH.
    destruct (IH H) as (before & m' & after & E1 & E2 & E3 & E4).
    exists (m :: before), m', after. subst. cbn. repeat split; auto.
    constructor; [now rewrite C|assumption].
Qed.

Lemma tryModels_throws call models : forall lastErr msg,
  snd (tryModels call models lastErr) = Thrown msg ->
  Forall (fun x => failed (call x) = true) models /\
  fst (tryModels call models lastErr) = models /\
  msg = Some (failureMessage
                (match rev models with
                 | [] => lastErr
                 | m :: _ =>
                     match call m with
                     | Thrown e => Some e
                     | Returned _ => lastErr
                     end
                 end)).
Proof.
  induction models as [|m rest IH]; intros lastErr msg H.
  - cbn in *. inversion H. auto.
  - cbn [tryModels] in *. destruct (call m) as [s|e] eqn:C; [discriminate|].
    destruct (tryModels call rest (Some e)) as [called outcome] eqn:T.
    cbn [snd fst] in *.
    specialize (IH (Some e) msg). rewrite T in IH. cbn [snd fst] in IH.
    destruct (IH H) as (A1 & A2 & A3). split; [|split].
    + constructor; [now rewrite C|assumption].
    + now rewrite A2.
    + rewrite A3. f_equal. f_equal. cbn [rev].
      destruct (rev rest) as [|l r] eqn:R; cbn [app]; [now rewrite C|].
      destruct (call l) eqn:L; [|reflexivity].
      exfalso. rewrite Forall_forall in A1.
      assert (In l rest) by (apply in_rev; rewrite R; now left).
      specialize (A1 l H0). rewrite L in A1. discriminate.
Qed.

(** X20.  [generateStoryOpenRouter] returns the story of the first model,
    in the order of [MODELS_TO_TRY], whose call does not throw, and calls
    no model after it; it throws only when all five calls threw, with the
    message of the last model's error, or the fixed message when that is
    missing or empty; if some model's call succeeds it returns. *)
Theorem generateStoryOpenRouter_falls_back call :
  let called := fst (generateStoryOpenRouter call) in
  let outcome := snd (generateStoryOpenRouter call) in
  (forall story,
     outcome = Returned story ->
     exists before m after,
       MODELS_TO_TRY = before ++ m :: after /\
       Forall (fun x => failed (call x) = true) before /\
       call m = Returned story /\
       called = before ++ [m]) /\
  (forall msg,
     outcome = Thrown msg ->
     Forall (fun x => failed (call x) = true) MODELS_TO_TRY /\
     called = MODELS_TO_TRY /\
     exists e,
       call (str "meta-llama/llama-3.1-8b-instruct") = Thrown e /\
       msg = Some (failureMessage (Some e))) /\
  ((exists m, In m MODELS_TO_TRY /\ failed (call m) = false) ->
   exists story, outcome = Returned story).
Proof.
  cbv zeta. unfold generateStoryOpenRouter. split; [|split].
  - intros story H. now apply tryModels_returns.
  - intros msg H. destruct (tryModels_throws _ _ _ _ H) as (A & B & C).
    split; [exact A|]. split; [exact B|].
    change (rev MODELS_TO_TRY) with
      [str "meta-llama/llama-3.1-8b-instruct"; str "mistralai/mistral-7b-instruct";
       str "mistralai/mistral-small-latest"; str "anthropic/claude-3.5-haiku";
       str "openai/gpt-4o-mini"] in C.
    cbv beta iota in C.
    destruct (call (str "meta-llama/llama-3.1-8b-instruct")) as [s|e] eqn:L.
    + exfalso. rewrite Forall_forall in A.
      assert (I : In (str "meta-llama/llama-3.1-8b-instruct") MODELS_TO_TRY)
        by (cbn; tauto).
      specialize (A _ I). rewrite L in A. discriminate.
    + exists e. split; [reflexivity|exact C].
  - intros (m & Hin & Hm).
    destruct (snd (tryModels call MODELS_TO_TRY None)) as [s|msg] eqn:E;
      [now exists s|].
    exfalso. destruct (tryModels_throws _ _ _ _ E) as (A & _).
    rewrite Forall_forall in A. rewrite (A m Hin) in Hm. discriminate.
Qed.

(* ===================================================================== *)
(** ** The narrators *)
(* ===================================================================== *)

Import VoiceMapping CharacterVoices.

Lemma orElse_some a b m :
  orElse a b = Some m -> a = Some m \/ b = Some m.
Proof. destruct a; cbn; auto. Qed.

Lemma matchFor_in mapped def m :
  matchFor mapped def = Some m -> In m mapped.
Proof.
  unfold matchFor. cbv zeta. intro H.
  repeat (apply orElse_some in H; destruct H as [H|H]);
    apply find_some in H; tauto.
Qed.

Lemma orElse_none a b : orElse a b = None -> a = None /\ b = None.
Proof. destruct a; cbn; [discriminate|auto]. Qed.

Lemma matchFor_none mapped def :
  matchFor mapped def = None ->
  forall m, In m mapped ->
    VoiceMapping.gender m <> defGender def /\
    Forall (fun pl => startsWith (languageTag m) pl = false)
           (preferredLangs def).
Proof.
  unfold matchFor. cbv zeta. intros H m Hin.
  apply orElse_none in H. destruct H as [_ H].
  apply orElse_none in H. destruct H as [_ H].
  apply orElse_none in H. destruct H as [H3 H4].
  pose proof (find_none _ _ H3 m Hin) as A. cbv beta in A.
  pose proof (find_none _ _ H4 m Hin) as B. cbv beta in B.
  split.
  - intro E. rewrite E in B. destruct (defGender def); discriminate.
  - apply Forall_forall. intros pl Hpl.
    destruct (startsWith (languageTag m) pl) eqn:S; [|reflexivity].
    assert (X : existsb (fun pl => startsWith (languageTag m) pl)
                  (preferredLangs def) = true)
      by (apply existsb_exists; eauto).
    rewrite X in A. discriminate.
Qed.

Lemma definitions_prefer_english :
  Forall (fun def => In (str "en") (preferredLangs def)) CHARACTER_DEFINITIONS.
Proof. repeat constructor; cbn; tauto. Qed.

(** X21.  [buildCharacterOptions] answers the same five narrators in the
    same order with their own rates, whatever the voices.  A narrator's
    voice identifier, when set, is that of an available voice; it is
    unset only when no available voice has the narrator's gender or a
    language tag starting with [en]. *)
Theorem buildCharacterOptions_always_five mapped :
  map character (buildCharacterOptions mapped)
  = [str "Samantha"; str "Josh"; str "Luna"; str "Aaron"; str "Jira"] /\
  map rate (buildCharacterOptions mapped)
  = [(92 # 100)%Q; (106 # 100)%Q; (9 # 10)%Q; (1 # 1)%Q; (98 # 100)%Q] /\
  forall o,
    In o (buildCharacterOptions mapped) ->
    (forall id,
       voiceIdentifier o = Some id ->
       exists m, In m mapped /\ identifier m = id) /\
    (voiceIdentifier o = None ->
     forall m, In m mapped ->
       VoiceMapping.gender m <> gender o /\
       startsWith (languageTag m) (str "en") = false).
Proof.
  split; [reflexivity|]. split; [reflexivity|].
  intros o Hin. unfold buildCharacterOptions in Hin.
  apply in_map_iff in Hin. destruct Hin as (def & E & Hdef). subst o.
  cbn [voiceIdentifier gender]. split.
  - intros id H. destruct (matchFor mapped def) as [v|] eqn:M; [|discriminate].
    inversion H; subst. exists v. split; [|reflexivity].
    eapply matchFor_in; eauto.
  - intros H m Hm. destruct (matchFor mapped def) as [v|] eqn:M; [discriminate|].
    destruct (matchFor_none mapped def M m Hm) as [A B]. split; [exact A|].
    rewrite Forall_forall in B. apply B.
    pose proof definitions_prefer_english as P. rewrite Forall_forall in P.
    now apply P.
Qed.
